(** * Ticket lifecycle, notifications, KPIs and reporting lines

    A shallow embedding of the decision logic of the support-ticket
    application: [src/store.ts] (the session, ticket and admin stores over
    the module-level arrays of the mock data file) and [getSubordinateIds]
    of the team-tickets page.

    Conventions of the embedding.
    - A TypeScript string is a [string]; an optional field [f?: T] is an
      [option T] ([None] for an absent key).
    - An ISO timestamp produced by [new Date().toISOString()] is kept as the
      epoch-millisecond integer it prints ([Z]); [new Date(s).getTime()]
      reads that integer back.
    - A JavaScript [number] that is computed with (the KPI average) is a
      binary64 [float].
    - The wall clock is an explicit argument: every [Date.now()] and
      [new Date()] of the source is one reading of it, in source order.
    - Every store action is modelled as running to completion (the awaited
      [apiDelay] only postpones its tail). *)

From Stdlib Require Import ZArith QArith Qabs Qpower String Ascii Floats Uint63 Lia Lqa.
From stdpp Require Import base decidable option list strings pretty gmap sorting.

Local Open Scope Z_scope.
Local Open Scope string_scope.

(** ** JavaScript string helpers *)

(** [s.split(sep)] for a one-character separator. *)
Fixpoint split (sep : ascii) (s : string) : list string :=
  match s with
  | EmptyString => [ EmptyString ]
  | String a s' =>
      if decide (a = sep) then EmptyString :: split sep s'
      else match split sep s' with
           | x :: xs => String a x :: xs
           | [] => [ String a EmptyString ]
           end
  end.

(** A template literal prints [undefined] as the word itself. *)
Definition interpolate (o : option string) : string :=
  match o with Some s => s | None => "undefined" end.

(** [${id.split('-')[1]}] *)
Definition ticket_number (id : string) : string :=
  interpolate (split "-"%char id !! 1%nat).

(** [${n}] for an integer-valued number such as [Date.now()]. *)
Definition string_of_Z (z : Z) : string := pretty z.

(** The double-quote character, for messages that quote a comment. *)
Definition dquote : string := String (ascii_of_nat 34) EmptyString.

(** Truthiness of a string: the empty string is falsy. *)
Definition truthy (s : string) : bool :=
  match s with EmptyString => false | _ => true end.

(** Truthiness of an optional string ([undefined], [null] and the empty
    string are falsy). *)
Definition truthy_opt (o : option string) : bool :=
  match o with Some s => truthy s | None => false end.

(** [a || b] on an optional string and a string default. *)
Definition or_else (o : option string) (d : string) : string :=
  match o with
  | Some s => if truthy s then s else d
  | None => d
  end.

(** ** Data model ([types.ts]) *)

Inductive Role := PRE | ADMIN | DATACR | BDM | ASM.

Inductive TicketStatus := IN_PROGRESS | COMPLETED | ESCALATED | CLOSED.

#[global] Instance Role_eq_dec : EqDecision Role.
Proof. solve_decision. Defined.

#[global] Instance TicketStatus_eq_dec : EqDecision TicketStatus.
Proof. solve_decision. Defined.

(** The string value of the enum member, as a template literal prints it. *)
Definition status_string (st : TicketStatus) : string :=
  match st with
  | IN_PROGRESS => "In Progress"
  | COMPLETED => "Completed"
  | ESCALATED => "Escalated"
  | CLOSED => "Closed"
  end.

(** [enum Team]: its members are strings at run time, and the session keeps
    the selected team as a plain string that [addTicket] casts to [Team]. *)
Definition Team := string.
Definition ONBOARDING : Team := "Onboarding Team".
Definition RETARGETING : Team := "Retargeting Team".
Definition RETENTION : Team := "Retention Team".

Module User.
Record t := mk {
  id : string;
  name : string;
  email : string;
  role : Role;
  team : option Team;
  managerId : option string;
}.
End User.

Module AutomatedMessage.
Record t := mk {
  id : string;
  errorTypeId : string;
  message : string;
}.
End AutomatedMessage.

Module Attachment.
Record t := mk {
  name : string;
  type : string;
  size : Z;
}.
End Attachment.

Module Ticket.
Record t := mk {
  id : string;
  uid : string;
  preId : string;
  errorTypeId : string;
  description : string;
  comment : option string;
  status : TicketStatus;
  createdAt : Z;
  updatedAt : Z;
  rpName : option string;
  team : Team;
  subject : option string;
  attachment : option Attachment.t;
}.
End Ticket.

(** [Omit<Ticket, 'id' | 'createdAt' | 'updatedAt' | 'preId' | 'status' | 'team'>] *)
Module TicketData.
Record t := mk {
  uid : string;
  errorTypeId : string;
  description : string;
  comment : option string;
  rpName : option string;
  subject : option string;
  attachment : option Attachment.t;
}.
End TicketData.

(** [Partial<Ticket> & { id: string }]: every field but [id] may be absent. *)
Module TicketPatch.
Record t := mk {
  id : string;
  uid : option string;
  preId : option string;
  errorTypeId : option string;
  description : option string;
  comment : option string;
  status : option TicketStatus;
  createdAt : option Z;
  updatedAt : option Z;
  rpName : option string;
  team : option Team;
  subject : option string;
  attachment : option Attachment.t;
}.
End TicketPatch.

Module AuditLog.
Record t := mk {
  id : string;
  ticketId : string;
  userId : string;
  action : string;
  timestamp : Z;
  details : string;
}.
End AuditLog.

Module SystemNotification.
Record t := mk {
  id : string;
  ticketId : string;
  preId : string;
  uid : string;
  message : string;
  timestamp : Z;
  isRead : bool;
}.
End SystemNotification.

Module AdminNotification.
Record t := mk {
  id : string;
  ticketId : string;
  message : string;
  timestamp : Z;
  isRead : bool;
}.
End AdminNotification.

Record KPI := {
  activeTickets : nat;
  closedTickets : nat;
  avgTimeToSolve : string;
}.

(** ** Array helpers *)

(** [arr.find(p)]: the first element that satisfies [p]. *)
Definition find {A} (P : A → Prop) `{!∀ x, Decision (P x)} (l : list A) : option A :=
  snd <$> list_find P l.

(** [arr.findIndex(p)]: the index of that element ([None] for [-1]). *)
Definition findIndex {A} (P : A → Prop) `{!∀ x, Decision (P x)} (l : list A) : option nat :=
  fst <$> list_find P l.

(** ** The wall clock

    [readings k] is what the [k]-th reading of the clock returns, [reads]
    counts the readings made so far. *)
Record Clock := {
  readings : nat → Z;
  reads : nat;
}.

(** [Date.now()] / [new Date()]: one reading. *)
Definition Date_now (c : Clock) : Z * Clock :=
  (readings c (reads c), {| readings := readings c; reads := S (reads c) |}).

(** ** Program state

    The module-level arrays of the mock data file, and the state of the three
    zustand stores. A store shows a copy of an array ([[...mockTickets]]) or,
    after a fetch, the array itself; every action that changes an array sets
    the store from it before it yields, so a value per array and a value per
    store field describe both cases. The two can differ: the ticket store
    starts with no tickets while [mockTickets] is already filled. *)
Record State := {
  (* mockData *)
  mockTickets : list Ticket.t;
  mockNotifications : list SystemNotification.t;
  mockAdminNotifications : list AdminNotification.t;
  mockMessages : list AutomatedMessage.t;
  mockLogs : list AuditLog.t;
  (* useSessionStore *)
  sessionUser : option User.t;
  sessionTeam : option string;
  (* useTicketStore *)
  tickets : list Ticket.t;
  notifications : list SystemNotification.t;
  adminNotifications : list AdminNotification.t;
  kpis : KPI;
  (* useAdminStore *)
  logs : list AuditLog.t;
}.

(** ** Admin store: [addLog] ([store.ts], lines 370-379) *)

(** [Omit<AuditLog, 'id' | 'timestamp'>] *)
Record LogData := {
  log_ticketId : string;
  log_userId : string;
  log_action : string;
  log_details : string;
}.

(** [mockLogs.unshift(newLog); set({ logs: [...mockLogs] })] *)
Definition addLog (logData : LogData) (s : State) (c : Clock) : State * Clock :=
  let '(now_id, c) := Date_now c in
  let '(now_ts, c) := Date_now c in
  let newLog :=
    {| AuditLog.id := "log-" +:+ string_of_Z now_id;
       AuditLog.ticketId := log_ticketId logData;
       AuditLog.userId := log_userId logData;
       AuditLog.action := log_action logData;
       AuditLog.timestamp := now_ts;
       AuditLog.details := log_details logData |} in
  let mockLogs' := newLog :: mockLogs s in
  ({| mockTickets := mockTickets s;
      mockNotifications := mockNotifications s;
      mockAdminNotifications := mockAdminNotifications s;
      mockMessages := mockMessages s;
      mockLogs := mockLogs';
      sessionUser := sessionUser s;
      sessionTeam := sessionTeam s;
      tickets := tickets s;
      notifications := notifications s;
      adminNotifications := adminNotifications s;
      kpis := kpis s;
      logs := mockLogs' |}, c).

(** [set({ tickets: [...mockTickets], notifications: [...mockNotifications],
    adminNotifications: [...mockAdminNotifications] })] after the arrays
    were (or were not) changed. *)
Definition commit (mt : list Ticket.t) (mn : list SystemNotification.t)
    (ma : list AdminNotification.t) (s : State) : State :=
  {| mockTickets := mt;
     mockNotifications := mn;
     mockAdminNotifications := ma;
     mockMessages := mockMessages s;
     mockLogs := mockLogs s;
     sessionUser := sessionUser s;
     sessionTeam := sessionTeam s;
     tickets := mt;
     notifications := mn;
     adminNotifications := ma;
     kpis := kpis s;
     logs := logs s |}.

(** ** Ticket store: [addTicket] ([store.ts], lines 78-171) *)

(** The two errors [addTicket] throws. *)
Inductive CreateError := SessionInvalid | TeamUnresolved.

Definition error_message (e : CreateError) : string :=
  match e with
  | SessionInvalid =>
      "Ticket creation failed: Your session has expired. Please log out and log back in."
  | TeamUnresolved =>
      "Ticket creation failed: Your team information is missing. Please log out and log back in."
  end.

(** [mockMessages.find(m => m.errorTypeId === ticketData.errorTypeId)] *)
Definition automatedMessageFor (errorTypeId : string) (s : State) : option AutomatedMessage.t :=
  find (λ m, AutomatedMessage.errorTypeId m = errorTypeId) (mockMessages s).

(** [get().tickets.find(t => t.uid === ticketData.uid &&
    t.errorTypeId === ticketData.errorTypeId)]: the search runs over the
    ticket store's [tickets]. *)
Definition existingTicketFor (uid errorTypeId : string) (s : State) : option Ticket.t :=
  find (λ t, Ticket.uid t = uid ∧ Ticket.errorTypeId t = errorTypeId) (tickets s).

(** The initial status, lines 95-111. *)
Definition initialStatus (ticketData : TicketData.t) (s : State) : TicketStatus :=
  match automatedMessageFor (TicketData.errorTypeId ticketData) s with
  | Some _ =>
      match existingTicketFor (TicketData.uid ticketData)
              (TicketData.errorTypeId ticketData) s with
      | Some _ => ESCALATED
      | None => CLOSED
      end
  | None => IN_PROGRESS
  end.

(** The team of the acting user: selected in the session for a PRE, fixed on
    the profile for every other role. *)
Definition resolveTeam (user : User.t) (s : State) : option Team :=
  if decide (User.role user = PRE) then sessionTeam s else User.team user.

(** The body of [addTicket] after its two guards, lines 95-170, for the
    acting user's id [preId] and the resolved [team]. *)
Definition addTicket_body (ticketData : TicketData.t) (preId : string) (team : Team)
    (s : State) (c : Clock) : State * Clock :=
  let status := initialStatus ticketData s in
  let automatedMessageToSend :=
    automatedMessageFor (TicketData.errorTypeId ticketData) s in
  let '(now_id, c) := Date_now c in
  let '(now_created, c) := Date_now c in
  let '(now_updated, c) := Date_now c in
  let newTicket :=
    {| Ticket.id := "ticket-" +:+ string_of_Z now_id;
       Ticket.uid := TicketData.uid ticketData;
       Ticket.preId := preId;
       Ticket.errorTypeId := TicketData.errorTypeId ticketData;
       Ticket.description := TicketData.description ticketData;
       Ticket.comment := TicketData.comment ticketData;
       Ticket.status := status;
       Ticket.createdAt := now_created;
       Ticket.updatedAt := now_updated;
       Ticket.rpName := TicketData.rpName ticketData;
       Ticket.team := team;
       Ticket.subject := TicketData.subject ticketData;
       Ticket.attachment := TicketData.attachment ticketData |} in
  let mockTickets' := newTicket :: mockTickets s in
  let '(now_aid, c) := Date_now c in
  let '(now_ats, c) := Date_now c in
  let '(adminMessage, mockNotifications', c) :=
    if decide (status = ESCALATED) then
      let '(now_nid, c) := Date_now c in
      let '(now_nts, c) := Date_now c in
      let newNotification :=
        {| SystemNotification.id := "notif-" +:+ string_of_Z now_nid;
           SystemNotification.ticketId := Ticket.id newTicket;
           SystemNotification.preId := preId;
           SystemNotification.uid := Ticket.uid newTicket;
           SystemNotification.message :=
             "Your ticket submission for UID " +:+ Ticket.uid newTicket
             +:+ " (Ticket #" +:+ ticket_number (Ticket.id newTicket)
             +:+ ") was escalated.";
           SystemNotification.timestamp := now_nts;
           SystemNotification.isRead := false |} in
      ("Ticket for UID " +:+ Ticket.uid newTicket
         +:+ " was re-submitted and has been escalated.",
       newNotification :: mockNotifications s, c)
    else
      ("New ticket from UID " +:+ Ticket.uid newTicket +:+ " was created.",
       mockNotifications s, c) in
  let newAdminNotification :=
    {| AdminNotification.id := "admin-notif-" +:+ string_of_Z now_aid;
       AdminNotification.ticketId := Ticket.id newTicket;
       AdminNotification.message := adminMessage;
       AdminNotification.timestamp := now_ats;
       AdminNotification.isRead := false |} in
  let mockAdminNotifications' :=
    newAdminNotification :: mockAdminNotifications s in
  let '(mockNotifications', c) :=
    match automatedMessageToSend with
    | Some msg =>
        if decide (status = CLOSED) then
          let '(now_nid, c) := Date_now c in
          let '(now_nts, c) := Date_now c in
          let newNotification :=
            {| SystemNotification.id := "notif-" +:+ string_of_Z now_nid;
               SystemNotification.ticketId := Ticket.id newTicket;
               SystemNotification.preId := preId;
               SystemNotification.uid := Ticket.uid newTicket;
               SystemNotification.message :=
                 "Ticket #" +:+ ticket_number (Ticket.id newTicket)
                 +:+ " for UID " +:+ Ticket.uid newTicket +:+ ": "
                 +:+ AutomatedMessage.message msg;
               SystemNotification.timestamp := now_nts;
               SystemNotification.isRead := false |} in
          (newNotification :: mockNotifications', c)
        else (mockNotifications', c)
    | None => (mockNotifications', c)
    end in
  let s := commit mockTickets' mockNotifications' mockAdminNotifications' s in
  addLog
    {| log_ticketId := Ticket.id newTicket;
       log_userId := preId;
       log_action := "CREATE";
       log_details :=
         "Ticket created for UID " +:+ Ticket.uid newTicket
         +:+ " with status " +:+ status_string status +:+ "." |}
    s c.

(** [addTicket]: the session guard (no user), the guard
    [!preId || !team], then the body. A thrown [Error] is an [inl]. *)
Definition addTicket (ticketData : TicketData.t) (s : State) (c : Clock)
    : CreateError + State * Clock :=
  match sessionUser s with
  | None => inl SessionInvalid
  | Some user =>
    let preId := User.id user in
    match resolveTeam user s with
    | None => inl TeamUnresolved
    | Some team =>
        if negb (truthy preId) || negb (truthy team) then inl TeamUnresolved
        else inr (addTicket_body ticketData preId team s c)
    end
  end.

(** ** Ticket store: [updateTicket] ([store.ts], lines 172-244) *)

(** [{ ...mockTickets[ticketIndex], ...ticketData, updatedAt: now }]: every
    field the patch carries overwrites, and [updatedAt] is always the update
    instant (a patched [updatedAt] is overwritten by it). *)
Definition applyPatch (t : Ticket.t) (ticketData : TicketPatch.t) (now : Z) : Ticket.t :=
  {| Ticket.id := TicketPatch.id ticketData;
     Ticket.uid := default (Ticket.uid t) (TicketPatch.uid ticketData);
     Ticket.preId := default (Ticket.preId t) (TicketPatch.preId ticketData);
     Ticket.errorTypeId :=
       default (Ticket.errorTypeId t) (TicketPatch.errorTypeId ticketData);
     Ticket.description :=
       default (Ticket.description t) (TicketPatch.description ticketData);
     Ticket.comment :=
       match TicketPatch.comment ticketData with
       | Some x => Some x
       | None => Ticket.comment t
       end;
     Ticket.status := default (Ticket.status t) (TicketPatch.status ticketData);
     Ticket.createdAt := default (Ticket.createdAt t) (TicketPatch.createdAt ticketData);
     Ticket.updatedAt := now;
     Ticket.rpName :=
       match TicketPatch.rpName ticketData with
       | Some x => Some x
       | None => Ticket.rpName t
       end;
     Ticket.team := default (Ticket.team t) (TicketPatch.team ticketData);
     Ticket.subject :=
       match TicketPatch.subject ticketData with
       | Some x => Some x
       | None => Ticket.subject t
       end;
     Ticket.attachment :=
       match TicketPatch.attachment ticketData with
       | Some x => Some x
       | None => Ticket.attachment t
       end |}.

(** The first notification rule, lines 190-210: the patch asks for
    [ESCALATED] and the ticket was not escalated before. *)
Definition manualEscalation (ticketData : TicketPatch.t) (originalStatus : TicketStatus) : bool :=
  bool_decide (TicketPatch.status ticketData = Some ESCALATED)
  && negb (bool_decide (originalStatus = ESCALATED)).

(** The second notification rule, lines 212-226: the updated ticket is
    [COMPLETED] or [CLOSED] and that is a change. *)
Definition resolution (updatedTicket : Ticket.t) (originalStatus : TicketStatus) : bool :=
  (bool_decide (Ticket.status updatedTicket = COMPLETED)
   || bool_decide (Ticket.status updatedTicket = CLOSED))
  && negb (bool_decide (originalStatus = Ticket.status updatedTicket)).

Definition escalatedAdminNotification (ticketData : TicketPatch.t)
    (originalTicket : Ticket.t) (now_id now_ts : Z) : AdminNotification.t :=
  {| AdminNotification.id := "admin-notif-" +:+ string_of_Z now_id;
     AdminNotification.ticketId := TicketPatch.id ticketData;
     AdminNotification.message :=
       "Ticket for UID " +:+ Ticket.uid originalTicket +:+ " has been escalated.";
     AdminNotification.timestamp := now_ts;
     AdminNotification.isRead := false |}.

Definition escalatedNotification (updatedTicket : Ticket.t) (now_id now_ts : Z)
    : SystemNotification.t :=
  {| SystemNotification.id := "notif-escalated-" +:+ string_of_Z now_id;
     SystemNotification.ticketId := Ticket.id updatedTicket;
     SystemNotification.preId := Ticket.preId updatedTicket;
     SystemNotification.uid := Ticket.uid updatedTicket;
     SystemNotification.message :=
       "Your ticket #" +:+ ticket_number (Ticket.id updatedTicket)
       +:+ " for UID " +:+ Ticket.uid updatedTicket
       +:+ " has been manually escalated.";
     SystemNotification.timestamp := now_ts;
     SystemNotification.isRead := false |}.

(** The text between the quotes of the resolution message:
    [updatedTicket.comment || 'No comment provided.'] *)
Definition resolutionComment (updatedTicket : Ticket.t) : string :=
  or_else (Ticket.comment updatedTicket) "No comment provided.".

Definition resolvedNotification (updatedTicket : Ticket.t) (now_id now_ts : Z)
    : SystemNotification.t :=
  {| SystemNotification.id := "notif-" +:+ string_of_Z now_id;
     SystemNotification.ticketId := Ticket.id updatedTicket;
     SystemNotification.preId := Ticket.preId updatedTicket;
     SystemNotification.uid := Ticket.uid updatedTicket;
     SystemNotification.message :=
       "Your ticket #" +:+ ticket_number (Ticket.id updatedTicket)
       +:+ " for UID " +:+ Ticket.uid updatedTicket
       +:+ " has been resolved. DataCR Comment: " +:+ dquote
       +:+ resolutionComment updatedTicket +:+ dquote;
     SystemNotification.timestamp := now_ts;
     SystemNotification.isRead := false |}.

(** The detail string of the [UPDATE] audit entry, lines 233-236.
    [originalStatus] is [None] when no ticket was found. *)
Definition updateDetails (ticketData : TicketPatch.t) (originalStatus : option TicketStatus)
    : string :=
  match TicketPatch.status ticketData with
  | Some st =>
      if decide (Some st = originalStatus)
      then "Ticket details updated for " +:+ TicketPatch.id ticketData +:+ "."
      else "Status changed to " +:+ status_string st +:+ " for ticket "
           +:+ TicketPatch.id ticketData +:+ "."
  | None => "Ticket details updated for " +:+ TicketPatch.id ticketData +:+ "."
  end.

(** [updateTicket]: nothing happens without an acting user id; the ticket
    and the notifications change only when the id is found; the stores are
    set and the audit entry is added in both cases. *)
Definition updateTicket (ticketData : TicketPatch.t) (s : State) (c : Clock) : State * Clock :=
  let adminId := User.id <$> sessionUser s in
  match adminId with
  | None => (s, c)
  | Some adminId =>
    if negb (truthy adminId) then (s, c)
    else
      let '(now, c) := Date_now c in
      let '(originalStatus, mockTickets', mockNotifications', mockAdminNotifications', c) :=
        match list_find (λ t, Ticket.id t = TicketPatch.id ticketData) (mockTickets s) with
        | Some (ticketIndex, originalTicket) =>
            let originalStatus := Ticket.status originalTicket in
            let updatedTicket := applyPatch originalTicket ticketData now in
            let mockTickets' := <[ticketIndex := updatedTicket]> (mockTickets s) in
            let '(mockNotifications', mockAdminNotifications', c) :=
              if manualEscalation ticketData originalStatus then
                let '(now_aid, c) := Date_now c in
                let '(now_ats, c) := Date_now c in
                let '(now_nid, c) := Date_now c in
                let '(now_nts, c) := Date_now c in
                (escalatedNotification updatedTicket now_nid now_nts
                   :: mockNotifications s,
                 escalatedAdminNotification ticketData originalTicket now_aid now_ats
                   :: mockAdminNotifications s,
                 c)
              else (mockNotifications s, mockAdminNotifications s, c) in
            let '(mockNotifications', c) :=
              if resolution updatedTicket originalStatus then
                let '(now_nid, c) := Date_now c in
                let '(now_nts, c) := Date_now c in
                (resolvedNotification updatedTicket now_nid now_nts
                   :: mockNotifications', c)
              else (mockNotifications', c) in
            (Some originalStatus, mockTickets', mockNotifications',
             mockAdminNotifications', c)
        | None =>
            (None, mockTickets s, mockNotifications s, mockAdminNotifications s, c)
        end in
      let s := commit mockTickets' mockNotifications' mockAdminNotifications' s in
      addLog
        {| log_ticketId := TicketPatch.id ticketData;
           log_userId := adminId;
           log_action := "UPDATE";
           log_details := updateDetails ticketData originalStatus |}
        s c
  end.

(** ** Ticket store: marking notifications as read ([store.ts], lines 245-260) *)

Definition readAdmin (n : AdminNotification.t) : AdminNotification.t :=
  {| AdminNotification.id := AdminNotification.id n;
     AdminNotification.ticketId := AdminNotification.ticketId n;
     AdminNotification.message := AdminNotification.message n;
     AdminNotification.timestamp := AdminNotification.timestamp n;
     AdminNotification.isRead := true |}.

Definition readSystem (n : SystemNotification.t) : SystemNotification.t :=
  {| SystemNotification.id := SystemNotification.id n;
     SystemNotification.ticketId := SystemNotification.ticketId n;
     SystemNotification.preId := SystemNotification.preId n;
     SystemNotification.uid := SystemNotification.uid n;
     SystemNotification.message := SystemNotification.message n;
     SystemNotification.timestamp := SystemNotification.timestamp n;
     SystemNotification.isRead := true |}.

(** [mockAdminNotifications[notifIndex].isRead = true] when the index is
    found, the array as it is otherwise. *)
Definition markAdminRead (notificationId : string) (l : list AdminNotification.t)
    : list AdminNotification.t :=
  match findIndex (λ n, AdminNotification.id n = notificationId) l with
  | Some notifIndex => alter readAdmin notifIndex l
  | None => l
  end.

Definition markSystemRead (notificationId : string) (l : list SystemNotification.t)
    : list SystemNotification.t :=
  match findIndex (λ n, SystemNotification.id n = notificationId) l with
  | Some notifIndex => alter readSystem notifIndex l
  | None => l
  end.

Definition markAdminNotificationAsRead (notificationId : string) (s : State) : State :=
  let mockAdminNotifications' := markAdminRead notificationId (mockAdminNotifications s) in
  {| mockTickets := mockTickets s;
     mockNotifications := mockNotifications s;
     mockAdminNotifications := mockAdminNotifications';
     mockMessages := mockMessages s;
     mockLogs := mockLogs s;
     sessionUser := sessionUser s;
     sessionTeam := sessionTeam s;
     tickets := tickets s;
     notifications := notifications s;
     adminNotifications := mockAdminNotifications';
     kpis := kpis s;
     logs := logs s |}.

Definition markSystemNotificationAsRead (notificationId : string) (s : State) : State :=
  let mockNotifications' := markSystemRead notificationId (mockNotifications s) in
  {| mockTickets := mockTickets s;
     mockNotifications := mockNotifications';
     mockAdminNotifications := mockAdminNotifications s;
     mockMessages := mockMessages s;
     mockLogs := mockLogs s;
     sessionUser := sessionUser s;
     sessionTeam := sessionTeam s;
     tickets := tickets s;
     notifications := mockNotifications';
     adminNotifications := adminNotifications s;
     kpis := kpis s;
     logs := logs s |}.

(** [fetchTickets]: the store takes the array of the mock data. *)
Definition fetchTickets (s : State) : State :=
  {| mockTickets := mockTickets s;
     mockNotifications := mockNotifications s;
     mockAdminNotifications := mockAdminNotifications s;
     mockMessages := mockMessages s;
     mockLogs := mockLogs s;
     sessionUser := sessionUser s;
     sessionTeam := sessionTeam s;
     tickets := mockTickets s;
     notifications := notifications s;
     adminNotifications := adminNotifications s;
     kpis := kpis s;
     logs := logs s |}.

(** ** JavaScript numbers for the KPI average *)

(** The number of an integer time value or count. Every time value of a
    valid [Date] is an integer of magnitude at most 8.64e15, which binary64
    holds exactly. *)
Definition Number_of_Z (z : Z) : float :=
  match z with
  | Z0 => PrimFloat.of_uint63 0%uint63
  | Zpos _ => PrimFloat.of_uint63 (Uint63.of_Z z)
  | Zneg p => PrimFloat.opp (PrimFloat.of_uint63 (Uint63.of_Z (Zpos p)))
  end.

(** [new Date(iso).getTime()] *)
Definition getTime (iso : Z) : float := Number_of_Z iso.

(** The integer [n] for which [n / 10^f - x] is as close to zero as possible,
    the larger one on a tie, for [x = m * 2^e] with [m] positive. *)
Definition nearest_scaled (f : nat) (m : positive) (e : Z) : Z :=
  let scaled := Zpos m * 10 ^ Z.of_nat f in
  if (0 <=? e)%Z then scaled * 2 ^ e
  else (2 * scaled + 2 ^ (- e)) / 2 ^ (1 - e).

(** The decimal digits of [n] with a point before the last [f] of them,
    zero-padded on the left to [f + 1] digits. *)
Definition fixed_digits (f : nat) (n : Z) : string :=
  let whole := n / 10 ^ Z.of_nat f in
  let frac := pretty (n mod 10 ^ Z.of_nat f) in
  let zeros := String.concat "" (replicate (f - String.length frac) "0") in
  match f with
  | O => pretty whole
  | S _ => pretty whole +:+ "." +:+ zeros +:+ frac
  end.

(** [x.toFixed(f)] (Number.prototype.toFixed) for a magnitude below 1e21,
    the only range the average of in-range time values reaches; a larger
    magnitude prints in exponent form in JavaScript, which is not modelled. *)
Definition toFixed (f : nat) (x : float) : string :=
  match Prim2SF x with
  | S754_nan => "NaN"
  | S754_infinity false => "Infinity"
  | S754_infinity true => "-Infinity"
  | S754_zero _ => fixed_digits f 0
  | S754_finite sign m e =>
      (if sign then "-" else "") +:+ fixed_digits f (nearest_scaled f m e)
  end.

(** ** Ticket store: [calculateKPIs] ([store.ts], lines 274-299) *)

Definition isActive (t : Ticket.t) : Prop :=
  Ticket.status t = IN_PROGRESS ∨ Ticket.status t = ESCALATED.

Definition isClosedOrCompleted (t : Ticket.t) : Prop :=
  Ticket.status t = COMPLETED ∨ Ticket.status t = CLOSED.

#[global] Instance isActive_dec t : Decision (isActive t).
Proof. unfold isActive. apply _. Defined.

#[global] Instance isClosedOrCompleted_dec t : Decision (isClosedOrCompleted t).
Proof. unfold isClosedOrCompleted. apply _. Defined.

(** The reducer of [totalSolveTime]. *)
Definition addSolveTime (acc : float) (t : Ticket.t) : float :=
  let created := getTime (Ticket.createdAt t) in
  let updated := getTime (Ticket.updatedAt t) in
  PrimFloat.add acc (PrimFloat.sub updated created).

Definition msPerDay : float :=
  PrimFloat.mul (PrimFloat.mul (PrimFloat.mul (Number_of_Z 1000) (Number_of_Z 60))
                   (Number_of_Z 60)) (Number_of_Z 24).

(** The KPI record that [calculateKPIs] stores. *)
Definition computeKPIs (filteredTickets : list Ticket.t) : KPI :=
  let activeTickets := length (filter isActive filteredTickets) in
  let closedOrCompletedTickets := filter isClosedOrCompleted filteredTickets in
  let closedTickets := length closedOrCompletedTickets in
  let avgTimeToSolve :=
    if decide (0 < closedTickets)%nat then
      let totalSolveTime :=
        foldl addSolveTime (Number_of_Z 0) closedOrCompletedTickets in
      let avgMilliseconds :=
        PrimFloat.div totalSolveTime (Number_of_Z (Z.of_nat closedTickets)) in
      let avgDays := PrimFloat.div avgMilliseconds msPerDay in
      toFixed 1 avgDays +:+ " days"
    else "N/A" in
  {| activeTickets := activeTickets;
     closedTickets := closedTickets;
     avgTimeToSolve := avgTimeToSolve |}.

Definition calculateKPIs (filteredTickets : list Ticket.t) (s : State) : State :=
  {| mockTickets := mockTickets s;
     mockNotifications := mockNotifications s;
     mockAdminNotifications := mockAdminNotifications s;
     mockMessages := mockMessages s;
     mockLogs := mockLogs s;
     sessionUser := sessionUser s;
     sessionTeam := sessionTeam s;
     tickets := tickets s;
     notifications := notifications s;
     adminNotifications := adminNotifications s;
     kpis := computeKPIs filteredTickets;
     logs := logs s |}.

(** ** Reporting lines: [getSubordinateIds] (team tickets page, lines 31-51) *)

(** The variables of the loop: the result array, the work queue with its read
    position, and the visited set. *)
Record Traversal := {
  subordinates : list string;
  queue : list string;
  visited : gset string;
  head : nat;
}.

(** [allUsers.filter(u => u.managerId === currentManagerId)] *)
Definition directSubordinates (allUsers : list User.t) (currentManagerId : string)
    : list User.t :=
  filter (λ u, User.managerId u = Some currentManagerId) allUsers.

(** The body of the [for] loop for one direct subordinate. *)
Definition visit (tr : Traversal) (subordinate : User.t) : Traversal :=
  if decide (User.id subordinate ∈ visited tr) then tr
  else
    {| subordinates := subordinates tr ++ [User.id subordinate];
       queue := queue tr ++ [User.id subordinate];
       visited := {[User.id subordinate]} ∪ visited tr;
       head := head tr |}.

(** One iteration of the [while] loop, entered with [head < queue.length]:
    [currentManagerId = queue[head++]], then the [for] loop. *)
Definition iteration (allUsers : list User.t) (tr : Traversal) : Traversal :=
  match queue tr !! head tr with
  | Some currentManagerId =>
      foldl visit
        {| subordinates := subordinates tr;
           queue := queue tr;
           visited := visited tr;
           head := S (head tr) |}
        (directSubordinates allUsers currentManagerId)
  | None => tr
  end.

(** The [while] loop, with a bound on the number of times its condition is
    evaluated: [None] when the bound is used up before the loop exits. *)
Fixpoint while_loop (fuel : nat) (allUsers : list User.t) (tr : Traversal)
    : option Traversal :=
  match fuel with
  | O => None
  | S fuel =>
      if decide (head tr < length (queue tr))%nat
      then while_loop fuel allUsers (iteration allUsers tr)
      else Some tr
  end.

Definition traversal_start (managerId : string) : Traversal :=
  {| subordinates := [];
     queue := [managerId];
     visited := {[managerId]};
     head := 0 |}.

(** Enough evaluations of the loop condition for any user list: the queue
    never holds more than the manager and one entry per user. *)
Definition traversal_fuel (allUsers : list User.t) : nat := 2 + length allUsers.

Definition getSubordinateIds (managerId : string) (allUsers : list User.t) : list string :=
  match while_loop (traversal_fuel allUsers) allUsers (traversal_start managerId) with
  | Some tr => subordinates tr
  | None => []
  end.

(** Reporting lines as a relation: [reports allUsers m x] when a user with id
    [x] reaches [m] by following manager references one or more times. *)
Inductive reports (allUsers : list User.t) (m : string) : string → Prop :=
  | reports_direct u :
      u ∈ allUsers → User.managerId u = Some m → reports allUsers m (User.id u)
  | reports_indirect u x :
      reports allUsers m x → u ∈ allUsers → User.managerId u = Some x →
      reports allUsers m (User.id u).

(** ** Team view: [teamTickets] (team tickets page, lines 67-74) *)

(** [arr.sort(compareFn)]: the sort is stable, so for a comparator that
    orders by a key its result is the one of an insertion sort that puts an
    element before the first one it does not have to follow. *)
Fixpoint insertBy {A} (compareFn : A → A → Z) (x : A) (sorted : list A) : list A :=
  match sorted with
  | [] => [x]
  | y :: rest =>
      if decide (compareFn x y ≤ 0)%Z then x :: y :: rest
      else y :: insertBy compareFn x rest
  end.

Definition sortBy {A} (compareFn : A → A → Z) (l : list A) : list A :=
  foldr (insertBy compareFn) [] l.

(** [(a, b) => new Date(b.createdAt).getTime() - new Date(a.createdAt).getTime()] *)
Definition newestFirst (a b : Ticket.t) : Z :=
  Ticket.createdAt b - Ticket.createdAt a.

Definition teamTickets (user : option User.t) (users : list User.t)
    (tickets : list Ticket.t) : list Ticket.t :=
  match user with
  | None => []
  | Some user =>
      if decide (length users = 0%nat) then []
      else
        let subordinateIds := getSubordinateIds (User.id user) users in
        let allTeamTickets :=
          filter (λ ticket, Ticket.preId ticket ∈ subordinateIds) tickets in
        sortBy newestFirst allTeamTickets
  end.

(** ** Notification badges (layout, lines 593-594 and 657 of [store.ts]) *)

(** [notifications.filter(n => n.preId === user?.id)] *)
Definition myNotifications (user : option User.t) (notifications : list SystemNotification.t)
    : list SystemNotification.t :=
  filter (λ n, Some (SystemNotification.preId n) = User.id <$> user) notifications.

(** [myNotifications.filter(n => !n.isRead).length] *)
Definition preUnreadCount (user : option User.t) (notifications : list SystemNotification.t)
    : nat :=
  length (filter (λ n, SystemNotification.isRead n = false) (myNotifications user notifications)).

(** [adminNotifications.filter(n => !n.isRead).length] *)
Definition adminUnreadCount (adminNotifications : list AdminNotification.t) : nat :=
  length (filter (λ n, AdminNotification.isRead n = false) adminNotifications).

(** ** Session store ([store.ts], lines 19-37) *)

Module Session.
Record t := mk {
  user : option User.t;
  isAuthenticated : bool;
  team : option string;
}.
End Session.

Definition initialSession : Session.t :=
  {| Session.user := None; Session.isAuthenticated := false; Session.team := None |}.

(** [foundUser.team || null] *)
Definition teamOrNull (team : option Team) : option string :=
  match team with
  | Some t => if truthy t then Some t else None
  | None => None
  end.

(** [login(email)] over the user array [mockUsers]: the returned flag and
    the session. *)
Definition login (email : string) (mockUsers : list User.t) (ss : Session.t)
    : bool * Session.t :=
  match find (λ u, User.email u = email) mockUsers with
  | Some foundUser =>
      (true,
       {| Session.user := Some foundUser;
          Session.isAuthenticated := true;
          Session.team := teamOrNull (User.team foundUser) |})
  | None => (false, ss)
  end.

Definition logout (ss : Session.t) : Session.t :=
  {| Session.user := None; Session.isAuthenticated := false; Session.team := None |}.

Definition setTeam (team : string) (ss : Session.t) : Session.t :=
  {| Session.user := Session.user ss;
     Session.isAuthenticated := Session.isAuthenticated ss;
     Session.team := Some team |}.

(** The program state seen with the session [ss]: what
    [useSessionStore.getState()] gives the ticket store. *)
Definition inSession (ss : Session.t) (s : State) : State :=
  {| mockTickets := mockTickets s;
     mockNotifications := mockNotifications s;
     mockAdminNotifications := mockAdminNotifications s;
     mockMessages := mockMessages s;
     mockLogs := mockLogs s;
     sessionUser := Session.user ss;
     sessionTeam := Session.team ss;
     tickets := tickets s;
     notifications := notifications s;
     adminNotifications := adminNotifications s;
     kpis := kpis s;
     logs := logs s |}.

(** ** Admin store: users ([store.ts], lines 341-369) *)

(** The user array of the mock data and the [users] of the admin store. *)
Module Admin.
Record t := mk {
  mockUsers : list User.t;
  users : list User.t;
}.
End Admin.

(** [Omit<User, 'id'>] *)
Module UserData.
Record t := mk {
  name : string;
  email : string;
  role : Role;
  team : option Team;
  managerId : option string;
}.
End UserData.

Definition addUser (userData : UserData.t) (a : Admin.t) (c : Clock) : Admin.t * Clock :=
  let '(now, c) := Date_now c in
  let newUser :=
    {| User.id := "user-" +:+ string_of_Z now;
       User.name := UserData.name userData;
       User.email := UserData.email userData;
       User.role := UserData.role userData;
       User.team := UserData.team userData;
       User.managerId := UserData.managerId userData |} in
  let mockUsers' := (Admin.mockUsers a ++ [newUser])%list in
  ({| Admin.mockUsers := mockUsers'; Admin.users := mockUsers' |}, c).

(** The array takes the update at the first index with the id; the store
    maps over its own list and replaces every user with the id. *)
Definition updateUser (updatedUser : User.t) (a : Admin.t) : Admin.t :=
  {| Admin.mockUsers :=
       match findIndex (λ u, User.id u = User.id updatedUser) (Admin.mockUsers a) with
       | Some userIndex => <[userIndex := updatedUser]> (Admin.mockUsers a)
       | None => Admin.mockUsers a
       end;
     Admin.users :=
       (λ u, if decide (User.id u = User.id updatedUser) then updatedUser else u)
         <$> Admin.users a |}.

(** The array loses the first user with the id ([splice]); the store filters
    its own list and loses every user with the id. *)
Definition deleteUser (userId : string) (a : Admin.t) : Admin.t :=
  {| Admin.mockUsers :=
       match findIndex (λ u, User.id u = userId) (Admin.mockUsers a) with
       | Some userIndex => delete userIndex (Admin.mockUsers a)
       | None => Admin.mockUsers a
       end;
     Admin.users := filter (λ u, User.id u ≠ userId) (Admin.users a) |}.

(** ** Admin store: [addMessage] ([store.ts], lines 409-414)

    Only the array matters to the ticket store, which reads
    [mockMessages]. *)

Definition addMessage (errorTypeId message : string) (s : State) (c : Clock)
    : State * Clock :=
  let '(now, c) := Date_now c in
  let newMessage :=
    {| AutomatedMessage.id := "msg-" +:+ string_of_Z now;
       AutomatedMessage.errorTypeId := errorTypeId;
       AutomatedMessage.message := message |} in
  ({| mockTickets := mockTickets s;
      mockNotifications := mockNotifications s;
      mockAdminNotifications := mockAdminNotifications s;
      mockMessages := (mockMessages s ++ [newMessage])%list;
      mockLogs := mockLogs s;
      sessionUser := sessionUser s;
      sessionTeam := sessionTeam s;
      tickets := tickets s;
      notifications := notifications s;
      adminNotifications := adminNotifications s;
      kpis := kpis s;
      logs := logs s |}, c).

(** ** CSV export: [convertToCSV] (utilities, lines 85-99) *)

Module Header.
Record t := mk {
  key : string;
  label : string;
}.
End Header.

(** The double-quote and line-feed characters. *)
Definition quoteChar : ascii := "034"%char.
Definition lineFeed : ascii := "010"%char.

(** [s.replace] with the global pattern for the double quote and two double
    quotes as replacement: every double quote is doubled. *)
Fixpoint escapeQuotes (s : string) : string :=
  match s with
  | EmptyString => EmptyString
  | String a s' =>
      if decide (a = quoteChar) then String a (String a (escapeQuotes s'))
      else String a (escapeQuotes s')
  end.

(** A template literal that wraps [s] in double quotes. *)
Definition quoted (s : string) : string :=
  String quoteChar (s +:+ String quoteChar EmptyString).

(** The cell of [row] under [key]: a row is an object whose values are
    strings; a missing value ([null] or [undefined]) is the empty string. *)
Definition cellData (row : gmap string string) (key : string) : string :=
  default EmptyString (row !! key).

(** [arr.join(sep)] is [String.concat sep arr]. *)
Definition convertToCSV (data : list (gmap string string)) (headers : list Header.t)
    : string :=
  let headerRow := String.concat "," ((λ h, quoted (Header.label h)) <$> headers) in
  let rows :=
    (λ row,
       String.concat ","
         ((λ header, quoted (escapeQuotes (cellData row (Header.key header)))) <$> headers))
      <$> data in
  String.concat (String lineFeed EmptyString) (headerRow :: rows).

(** * Vocabulary of the properties *)

Local Close Scope Z_scope.
Local Close Scope string_scope.

(** ** Reporting lines *)

(** What holds of the loop variables of [getSubordinateIds] whenever the loop
    condition is evaluated. *)
Record traversal_wf (allUsers : list User.t) (managerId : string) (tr : Traversal) : Prop := {
  wf_queue : queue tr = managerId :: subordinates tr;
  wf_visited : ∀ x, x ∈ visited tr ↔ x ∈ queue tr;
  wf_nodup : NoDup (queue tr);
  wf_sound : ∀ x, x ∈ subordinates tr → reports allUsers managerId x;
}.

(** Every entry of the queue before [head] has been expanded: all of its
    direct reports are visited. *)
Definition expanded (allUsers : list User.t) (tr : Traversal) : Prop :=
  ∀ i p u, (i < head tr)%nat → queue tr !! i = Some p →
    u ∈ allUsers → User.managerId u = Some p → User.id u ∈ visited tr.

Record traversal_inv (allUsers : list User.t) (managerId : string) (tr : Traversal) : Prop := {
  inv_wf : traversal_wf allUsers managerId tr;
  inv_head : (head tr ≤ length (queue tr))%nat;
  inv_expanded : expanded allUsers tr;
}.

(** ** Ticket creation *)

(** Some automated message is configured for the error type. *)
Definition hasAutomatedMessage (errorTypeId : string) (s : State) : Prop :=
  Exists (λ m, AutomatedMessage.errorTypeId m = errorTypeId) (mockMessages s).

(** Some ticket of the ticket store has the same (uid, error type) pair. *)
Definition hasPriorTicket (uid errorTypeId : string) (s : State) : Prop :=
  Exists (λ t, Ticket.uid t = uid ∧ Ticket.errorTypeId t = errorTypeId) (tickets s).

(** The team of the acting user is missing: none was selected in the session
    (for a PRE), none is on the profile (for another role), or it is the
    empty string. *)
Definition teamMissing (user : User.t) (s : State) : Prop :=
  match User.role user with
  | PRE => sessionTeam s = None ∨ sessionTeam s = Some EmptyString
  | _ => User.team user = None ∨ User.team user = Some EmptyString
  end.

(** ** Sample data (the users and automated messages of the mock data) *)

Local Open Scope string_scope.

Definition asmOnboarding : User.t :=
  User.mk "user-asm-1" "Eve (ASM Onboarding)" "asm@example.com" ASM (Some ONBOARDING) None.
Definition bdmOnboarding : User.t :=
  User.mk "user-bdm-1" "Frank (BDM Onboarding)" "bdm@example.com" BDM (Some ONBOARDING)
    (Some "user-asm-1").
Definition asmRetargeting : User.t :=
  User.mk "user-asm-2" "Grace (ASM Retargeting)" "asm2@example.com" ASM (Some RETARGETING) None.
Definition bdmRetargeting : User.t :=
  User.mk "user-bdm-2" "Henry (BDM Retargeting)" "bdm2@example.com" BDM (Some RETARGETING)
    (Some "user-asm-2").
Definition alice : User.t :=
  User.mk "user-1" "Alice (PRE)" "pre@example.com" PRE (Some ONBOARDING) (Some "user-bdm-1").
Definition bob : User.t :=
  User.mk "user-2" "Bob (Admin)" "admin@example.com" ADMIN None None.

Definition mockUsers : list User.t :=
  [ alice; bob;
    User.mk "user-3" "Charlie (PRE)" "charlie@example.com" PRE (Some ONBOARDING)
      (Some "user-bdm-1");
    User.mk "user-4" "David (DataCR)" "datacr@example.com" DATACR None None;
    asmOnboarding; bdmOnboarding; asmRetargeting; bdmRetargeting;
    User.mk "user-5" "Ivy (PRE)" "pre2@example.com" PRE (Some RETARGETING)
      (Some "user-bdm-2") ].

Definition sampleMessages : list AutomatedMessage.t :=
  [ AutomatedMessage.mk "msg-1" "et-1"
      "A data mismatch has been detected. We are investigating.";
    AutomatedMessage.mk "msg-2" "et-2"
      "System error confirmed. Technical team has been notified.";
    AutomatedMessage.mk "msg-3" "et-4"
      "This issue has been auto-resolved. If the problem persists, please resubmit the ticket for escalation." ].

(** A clock that advances by one millisecond per reading. *)
Definition sampleClock : Clock :=
  {| readings := λ k, (1730000000000 + Z.of_nat k)%Z; reads := 0 |}.

(** A session of [user] with [team] selected, over empty collections. *)
Definition sampleSession (user : option User.t) (team : option string) : State :=
  {| mockTickets := [];
     mockNotifications := [];
     mockAdminNotifications := [];
     mockMessages := sampleMessages;
     mockLogs := [];
     sessionUser := user;
     sessionTeam := team;
     tickets := [];
     notifications := [];
     adminNotifications := [];
     kpis := {| activeTickets := 0; closedTickets := 0; avgTimeToSolve := "N/A" |};
     logs := [] |}.

Definition aliceSession : State := sampleSession (Some alice) (Some ONBOARDING).

Definition sampleDraft (uid errorTypeId : string) (comment : option string) : TicketData.t :=
  {| TicketData.uid := uid;
     TicketData.errorTypeId := errorTypeId;
     TicketData.description := "The record does not match.";
     TicketData.comment := comment;
     TicketData.rpName := None;
     TicketData.subject := None;
     TicketData.attachment := None |}.

(** The state and clock after a call of [addTicket] that must succeed. *)
Definition created (ticketData : TicketData.t) (w : State * Clock) : State * Clock :=
  match addTicket ticketData w.1 w.2 with
  | inr w' => w'
  | inl _ => w
  end.

Local Close Scope string_scope.

(** A profile whose id is the empty string, with a team selected in the
    session. *)
Definition namelessSession : State :=
  sampleSession (Some (User.mk "" "Nameless (PRE)" "nameless@example.com" PRE None None))
    (Some ONBOARDING).

(** ** Ticket update *)

Local Open Scope string_scope.

(** A ticket in progress that was filed with an empty comment field. *)
Definition openTicket : Ticket.t :=
  {| Ticket.id := "ticket-1";
     Ticket.uid := "UID500";
     Ticket.preId := "user-1";
     Ticket.errorTypeId := "et-3";
     Ticket.description := "Cannot log in.";
     Ticket.comment := Some "";
     Ticket.status := IN_PROGRESS;
     Ticket.createdAt := 1729000000000%Z;
     Ticket.updatedAt := 1729000000000%Z;
     Ticket.rpName := None;
     Ticket.team := ONBOARDING;
     Ticket.subject := None;
     Ticket.attachment := None |}.

(** Bob (admin) is logged in; the store and the mock data hold [openTicket]. *)
Definition bobSession : State :=
  {| mockTickets := [openTicket];
     mockNotifications := [];
     mockAdminNotifications := [];
     mockMessages := sampleMessages;
     mockLogs := [];
     sessionUser := Some bob;
     sessionTeam := None;
     tickets := [openTicket];
     notifications := [];
     adminNotifications := [];
     kpis := {| activeTickets := 0; closedTickets := 0; avgTimeToSolve := "N/A" |};
     logs := [] |}.

(** A patch that carries only a status and a comment. *)
Definition statusPatch (id : string) (status : option TicketStatus) (comment : option string)
    : TicketPatch.t :=
  {| TicketPatch.id := id;
     TicketPatch.uid := None;
     TicketPatch.preId := None;
     TicketPatch.errorTypeId := None;
     TicketPatch.description := None;
     TicketPatch.comment := comment;
     TicketPatch.status := status;
     TicketPatch.createdAt := None;
     TicketPatch.updatedAt := None;
     TicketPatch.rpName := None;
     TicketPatch.team := None;
     TicketPatch.subject := None;
     TicketPatch.attachment := None |}.

Local Close Scope string_scope.

(** ** Notifications *)

(** The scheme of both mark-as-read operations: find the first record with
    the key, and replace it by [mark1] of it. *)
Definition markRead {A : Type} (key : A → string) (mark1 : A → A)
    (notificationId : string) (l : list A) : list A :=
  match findIndex (λ n, key n = notificationId) l with
  | Some notifIndex => alter mark1 notifIndex l
  | None => l
  end.

Definition systemRead (n : SystemNotification.t) : Prop :=
  SystemNotification.isRead n = true.

Definition adminRead (n : AdminNotification.t) : Prop :=
  AdminNotification.isRead n = true.

Local Open Scope string_scope.

Definition noticeOne : SystemNotification.t :=
  SystemNotification.mk "notif-1" "ticket-1" "user-1" "UID500" "First notice." 1%Z false.
Definition noticeTwo : SystemNotification.t :=
  SystemNotification.mk "notif-2" "ticket-2" "user-1" "UID501" "Second notice." 2%Z false.
Definition adminNoticeOne : AdminNotification.t :=
  AdminNotification.mk "admin-notif-1" "ticket-1" "First admin notice." 1%Z false.
Definition adminNoticeTwo : AdminNotification.t :=
  AdminNotification.mk "admin-notif-2" "ticket-2" "Second admin notice." 2%Z false.

(** Alice's session with two unread notifications of each kind. *)
Definition notifiedSession : State :=
  {| mockTickets := [];
     mockNotifications := [noticeOne; noticeTwo];
     mockAdminNotifications := [adminNoticeOne; adminNoticeTwo];
     mockMessages := sampleMessages;
     mockLogs := [];
     sessionUser := Some alice;
     sessionTeam := Some ONBOARDING;
     tickets := [];
     notifications := [noticeOne; noticeTwo];
     adminNotifications := [adminNoticeOne; adminNoticeTwo];
     kpis := {| activeTickets := 0; closedTickets := 0; avgTimeToSolve := "N/A" |};
     logs := [] |}.

Local Close Scope string_scope.

(** ** KPIs *)

(** The number of elements of [l] that satisfy [P]. *)
Definition countWhere {A} (P : A → Prop) `{!∀ x, Decision (P x)} (l : list A) : nat :=
  foldr (λ x n, if decide (P x) then S n else n) 0 l.

(** [updatedAt - createdAt] of one ticket, in milliseconds. *)
Definition resolutionTime (t : Ticket.t) : float :=
  PrimFloat.sub (getTime (Ticket.updatedAt t)) (getTime (Ticket.createdAt t)).

(** The mean resolution time of [resolved], summed from the left and
    converted from milliseconds to days. *)
Definition meanResolutionDays (resolved : list Ticket.t) : float :=
  PrimFloat.div
    (PrimFloat.div
       (foldl (λ acc t, PrimFloat.add acc (resolutionTime t)) (Number_of_Z 0) resolved)
       (Number_of_Z (Z.of_nat (length resolved))))
    (Number_of_Z 86400000).

(** *** The mean as a rational number *)

Local Open Scope Z_scope.

(** [updatedAt - createdAt] of one ticket, in milliseconds, as an integer. *)
Definition solveTime (t : Ticket.t) : Z := Ticket.updatedAt t - Ticket.createdAt t.

(** The sum of the solve times of [resolved]. *)
Definition totalSolveTime (resolved : list Ticket.t) : Z :=
  foldr (λ t total, solveTime t + total) 0 resolved.

(** The mean solve time of [resolved] in days, exactly. *)
Definition meanDays (resolved : list Ticket.t) : Q :=
  (inject_Z (totalSolveTime resolved)
   / (inject_Z (Z.of_nat (length resolved)) * 86400000))%Q.

(** The inputs on which the sum is computed without rounding: time values
    of valid dates (at most 8.64e15 in magnitude), fewer tickets than an
    array can hold, and solve times whose magnitudes add up to less than
    [2^53] milliseconds. *)
Definition exactTimes (resolved : list Ticket.t) : Prop :=
  Forall (λ t, Z.abs (Ticket.createdAt t) ≤ 8640000000000000
               ∧ Z.abs (Ticket.updatedAt t) ≤ 8640000000000000) resolved
  ∧ foldr (λ t total, Z.abs (solveTime t) + total) 0 resolved < 2 ^ 53
  ∧ Z.of_nat (length resolved) < 2 ^ 32.

(** A number of tenths, printed with one decimal place. *)
Definition oneDecimal (tenths : Z) : string :=
  pretty (tenths / 10) +:+ "." +:+ pretty (tenths mod 10).

(** *** binary64 arithmetic *)

Abbreviation fexp64 := (SpecFloat.fexp prec emax).

(** The round and sticky bits [r], [s] place a value [m + k/d] within the
    unit interval above [m]. *)
Definition placed (r s : bool) (k d : Z) : Prop :=
  0 ≤ k < d ∧ (r = true ↔ d ≤ 2 * k) ∧ (s = true ↔ k ≠ 0 ∧ 2 * k ≠ d).

(** The shifted mantissa with its two bits stands for [n/d]. *)
Definition placedAt (mrs : shr_record) (n d : Z) : Prop :=
  0 ≤ shr_m mrs ∧ ∃ k, placed (shr_r mrs) (shr_s mrs) k d ∧ shr_m mrs * d + k = n.

(** A location [l] places [k/d]. *)
Definition located (l : location) (k d : Z) : Prop :=
  placed (shr_r (shr_record_of_loc 0 l)) (shr_s (shr_record_of_loc 0 l)) k d.

(** Powers of two as rationals. *)
Definition pow2 (e : Z) : Q := (2 ^ e)%Q.

(** The magnitude [m * 2^e] of a finite float. *)
Definition magnitude (m : positive) (e : Z) : Q := (inject_Z (Z.pos m) * pow2 e)%Q.

(** The float of an integer of magnitude below [2^53]: its 53-bit mantissa
    and its exponent. *)
Definition SF_of_Z (z : Z) : spec_float :=
  match z with
  | 0 => S754_zero false
  | Z.pos p =>
      S754_finite false (Z.to_pos (Z.pos p * 2 ^ (53 - Z.pos (digits2_pos p))))
        (Z.pos (digits2_pos p) - 53)
  | Z.neg p =>
      S754_finite true (Z.to_pos (Z.pos p * 2 ^ (53 - Z.pos (digits2_pos p))))
        (Z.pos (digits2_pos p) - 53)
  end.

Local Close Scope Z_scope.

Local Open Scope string_scope.

(** A ticket with the given status and timestamps. *)
Definition ticketAt (status : TicketStatus) (createdAt updatedAt : Z) : Ticket.t :=
  {| Ticket.id := "ticket-7";
     Ticket.uid := "UID700";
     Ticket.preId := "user-1";
     Ticket.errorTypeId := "et-3";
     Ticket.description := "Cannot log in.";
     Ticket.comment := None;
     Ticket.status := status;
     Ticket.createdAt := createdAt;
     Ticket.updatedAt := updatedAt;
     Ticket.rpName := None;
     Ticket.team := ONBOARDING;
     Ticket.subject := None;
     Ticket.attachment := None |}.

(** The reporting lines of the specification's example: M has the direct
    reports A and B, and A has the report C. *)
Definition report (id : string) (managerId : option string) : User.t :=
  User.mk id id "someone@example.com" PRE (Some ONBOARDING) managerId.

Definition exampleTeam : list User.t :=
  [ report "M" None; report "A" (Some "M"); report "B" (Some "M"); report "C" (Some "A") ].

(** Reporting lines that form a cycle through the manager. *)
Definition cyclicTeam : list User.t :=
  [ report "M" (Some "C"); report "A" (Some "M"); report "C" (Some "A") ].

(** A report whose manager was deleted from the user list. *)
Definition orphanedTeam : list User.t :=
  [ report "user-1" (Some "user-bdm-1"); report "user-2" None ].

Local Close Scope string_scope.

(** ** Timestamps *)

(** The invariant on one ticket. *)
Definition timesOrdered (t : Ticket.t) : Prop :=
  (Ticket.createdAt t ≤ Ticket.updatedAt t)%Z.

(** The clock never runs backwards. *)
Definition monotone (c : Clock) : Prop :=
  ∀ i j, i ≤ j → (readings c i ≤ readings c j)%Z.

(** The ticket was not created after the next reading of the clock. *)
Definition notAhead (c : Clock) (t : Ticket.t) : Prop :=
  (Ticket.createdAt t ≤ readings c (reads c))%Z.

(** Every ticket of the array and of the store has ordered timestamps and a
    creation time that is not ahead of the clock. *)
Definition timestampsOk (w : State * Clock) : Prop :=
  Forall (λ t, timesOrdered t ∧ notAhead w.2 t) (mockTickets w.1)
  ∧ Forall (λ t, timesOrdered t ∧ notAhead w.2 t) (tickets w.1).

(** The operations of the ticket store. *)
Inductive Command :=
  | AddTicket (ticketData : TicketData.t)
  | UpdateTicket (ticketData : TicketPatch.t)
  | MarkAdminNotificationAsRead (notificationId : string)
  | MarkSystemNotificationAsRead (notificationId : string)
  | CalculateKPIs (filteredTickets : list Ticket.t)
  | FetchTickets.

(** One operation on the state and the clock; a failed [addTicket] leaves
    both as they are. *)
Definition exec (w : State * Clock) (cmd : Command) : State * Clock :=
  match cmd with
  | AddTicket ticketData =>
      match addTicket ticketData w.1 w.2 with
      | inr w' => w'
      | inl _ => w
      end
  | UpdateTicket ticketData => updateTicket ticketData w.1 w.2
  | MarkAdminNotificationAsRead notificationId =>
      (markAdminNotificationAsRead notificationId w.1, w.2)
  | MarkSystemNotificationAsRead notificationId =>
      (markSystemNotificationAsRead notificationId w.1, w.2)
  | CalculateKPIs filteredTickets => (calculateKPIs filteredTickets w.1, w.2)
  | FetchTickets => (fetchTickets w.1, w.2)
  end.

(** An update patch is admissible at a clock when it carries no [createdAt],
    or one that is not later than the update instant (the next reading). *)
Definition admissible (c : Clock) (cmd : Command) : Prop :=
  match cmd with
  | UpdateTicket ticketData =>
      match TicketPatch.createdAt ticketData with
      | Some createdAt => (createdAt ≤ readings c (reads c))%Z
      | None => True
      end
  | _ => True
  end.

(** Every command of the sequence is admissible when its turn comes. *)
Fixpoint admissibleAll (w : State * Clock) (cmds : list Command) : Prop :=
  match cmds with
  | [] => True
  | cmd :: cmds => admissible w.2 cmd ∧ admissibleAll (exec w cmd) cmds
  end.

(** The clock [c'] is the clock [c] after some more readings. *)
Definition later (c c' : Clock) : Prop :=
  readings c' = readings c ∧ reads c ≤ reads c'.

Local Open Scope string_scope.

(** A patch that only moves [createdAt]. *)
Definition createdAtPatch (id : string) (createdAt : Z) : TicketPatch.t :=
  {| TicketPatch.id := id;
     TicketPatch.uid := None;
     TicketPatch.preId := None;
     TicketPatch.errorTypeId := None;
     TicketPatch.description := None;
     TicketPatch.comment := None;
     TicketPatch.status := None;
     TicketPatch.createdAt := Some createdAt;
     TicketPatch.updatedAt := None;
     TicketPatch.rpName := None;
     TicketPatch.team := None;
     TicketPatch.subject := None;
     TicketPatch.attachment := None |}.

Local Close Scope string_scope.

(** ** Invariants of the ticket store *)

(** Every store field shows its array. *)
Definition synced (s : State) : Prop :=
  tickets s = mockTickets s
  ∧ notifications s = mockNotifications s
  ∧ adminNotifications s = mockAdminNotifications s
  ∧ logs s = mockLogs s.

(** A record as it was, or marked by [mark1]. *)
Definition sameOrMarked {A : Type} (mark1 : A → A) (old new : A) : Prop :=
  new = old ∨ new = mark1 old.

(** A system notification as it was, or marked as read. *)
Definition sameOrReadSystem (old new : SystemNotification.t) : Prop :=
  new = old ∨ new = readSystem old.

(** An admin notification as it was, or marked as read. *)
Definition sameOrReadAdmin (old new : AdminNotification.t) : Prop :=
  new = old ∨ new = readAdmin old.

(** The clock advances with every reading. *)
Definition strictlyIncreasing (c : Clock) : Prop :=
  ∀ i j, i < j → (readings c i < readings c j)%Z.

(** No ticket of [l] has an id that [addTicket] can still generate. *)
Definition idsFresh (c : Clock) (l : list Ticket.t) : Prop :=
  ∀ t k, t ∈ l → reads c ≤ k →
    Ticket.id t ≠ ("ticket-" +:+ string_of_Z (readings c k))%string.

(** The ticket ids are pairwise different, and stay so. *)
Definition uniqueIds (w : State * Clock) : Prop :=
  NoDup (Ticket.id <$> mockTickets w.1) ∧ idsFresh w.2 (mockTickets w.1).

(** [t] with another [updatedAt]. *)
Definition touched (now : Z) (t : Ticket.t) : Ticket.t :=
  {| Ticket.id := Ticket.id t;
     Ticket.uid := Ticket.uid t;
     Ticket.preId := Ticket.preId t;
     Ticket.errorTypeId := Ticket.errorTypeId t;
     Ticket.description := Ticket.description t;
     Ticket.comment := Ticket.comment t;
     Ticket.status := Ticket.status t;
     Ticket.createdAt := Ticket.createdAt t;
     Ticket.updatedAt := now;
     Ticket.rpName := Ticket.rpName t;
     Ticket.team := Ticket.team t;
     Ticket.subject := Ticket.subject t;
     Ticket.attachment := Ticket.attachment t |}.

(** A clock that stands still. *)
Definition frozenClock : Clock :=
  {| readings := λ _, 1730000000000%Z; reads := 0 |}.

(** ** Reading CSV back

    A reader for the format of RFC 4180 restricted to quoted fields: fields
    are separated by commas, records by line feeds, and inside a field two
    double quotes stand for one. It is the yardstick for [convertToCSV], not
    part of the program. *)

Inductive ReaderMode := FieldStart | InField | AfterQuote.

Record Reader := {
  mode : ReaderMode;
  field : string;
  record : list string;
  records : list (list string);
}.

Definition readChar (r : Reader) (a : ascii) : option Reader :=
  match mode r with
  | FieldStart =>
      if decide (a = quoteChar)
      then Some {| mode := InField; field := EmptyString;
                   record := record r; records := records r |}
      else None
  | InField =>
      if decide (a = quoteChar)
      then Some {| mode := AfterQuote; field := field r;
                   record := record r; records := records r |}
      else Some {| mode := InField; field := field r +:+ String a EmptyString;
                   record := record r; records := records r |}
  | AfterQuote =>
      if decide (a = quoteChar)
      then Some {| mode := InField; field := field r +:+ String a EmptyString;
                   record := record r; records := records r |}
      else if decide (a = ","%char)
      then Some {| mode := FieldStart; field := EmptyString;
                   record := record r ++ [field r]; records := records r |}
      else if decide (a = lineFeed)
      then Some {| mode := FieldStart; field := EmptyString;
                   record := []; records := records r ++ [record r ++ [field r]] |}
      else None
  end.

Fixpoint readAll (r : Reader) (s : string) : option Reader :=
  match s with
  | EmptyString => Some r
  | String a s' =>
      match readChar r a with
      | Some r' => readAll r' s'
      | None => None
      end
  end.

Definition readerStart : Reader :=
  {| mode := FieldStart; field := EmptyString; record := []; records := [] |}.

(** The records read from [s], when [s] ends after a closing quote. *)
Definition readCSV (s : string) : option (list (list string)) :=
  match readAll readerStart s with
  | Some r =>
      match mode r with
      | AfterQuote => Some (records r ++ [record r ++ [field r]])
      | _ => None
      end
  | None => None
  end.




Local Open Scope string_scope.



Local Close Scope string_scope.

(** ** Team view *)

(** [a] may stand before [b] in the team view: it is not older. *)
Definition notOlder (a b : Ticket.t) : Prop :=
  (Ticket.createdAt b ≤ Ticket.createdAt a)%Z.

(** ** Session *)

Inductive SessionAction :=
  | Login (email : string)
  | Logout
  | SetTeam (team : string).

Definition sessionStep (mockUsers : list User.t) (ss : Session.t) (action : SessionAction)
    : Session.t :=
  match action with
  | Login email => (login email mockUsers ss).2
  | Logout => logout ss
  | SetTeam team => setTeam team ss
  end.

(** ** Admin store *)

Inductive AdminCommand :=
  | AddUser (userData : UserData.t)
  | UpdateUser (updatedUser : User.t)
  | DeleteUser (userId : string).

Definition adminStep (w : Admin.t * Clock) (cmd : AdminCommand) : Admin.t * Clock :=
  match cmd with
  | AddUser userData => addUser userData w.1 w.2
  | UpdateUser updatedUser => (updateUser updatedUser w.1, w.2)
  | DeleteUser userId => (deleteUser userId w.1, w.2)
  end.

(** No user of [l] has an id that [addUser] can still generate. *)
Definition userIdsFresh (c : Clock) (l : list User.t) : Prop :=
  ∀ u k, u ∈ l → reads c ≤ k →
    User.id u ≠ ("user-" +:+ string_of_Z (readings c k))%string.

(** The store shows the array, and the user ids are pairwise different and
    stay so. *)
Definition adminOk (w : Admin.t * Clock) : Prop :=
  Admin.users w.1 = Admin.mockUsers w.1
  ∧ NoDup (User.id <$> Admin.mockUsers w.1)
  ∧ userIdsFresh w.2 (Admin.mockUsers w.1).

Local Open Scope string_scope.

Definition sampleAdmin : Admin.t :=
  {| Admin.mockUsers := [alice; bob]; Admin.users := [alice; bob] |}.

Definition newcomer : UserData.t :=
  {| UserData.name := "Judy (PRE)";
     UserData.email := "judy@example.com";
     UserData.role := PRE;
     UserData.team := None;
     UserData.managerId := Some "user-bdm-1" |}.

(** Two users who were given the same id. *)
Definition twins : Admin.t :=
  {| Admin.mockUsers := [ report "user-9" None; report "user-9" (Some "user-bdm-1") ];
     Admin.users := [ report "user-9" None; report "user-9" (Some "user-bdm-1") ] |}.

Local Close Scope string_scope.

(** ** Ticket numbers *)

(** [s] holds no hyphen. *)
Fixpoint dashFree (s : string) : Prop :=
  match s with
  | EmptyString => True
  | String a s' => a ≠ "-"%char ∧ dashFree s'
  end.

(** * Proofs *)

(** ** Reporting lines: the traversal *)

Section traversal.
Context (allUsers : list User.t) (managerId : string).

Lemma reports_is_user x : reports allUsers managerId x → x ∈ User.id <$> allUsers.
Proof. intros [u Hu _|u y _ Hu _]; by apply list_elem_of_fmap_2. Qed.

Lemma traversal_start_inv : traversal_inv allUsers managerId (traversal_start managerId).
Proof.
  split; [split|..]; simpl.
  - done.
  - intros x. rewrite elem_of_singleton, list_elem_of_singleton. done.
  - apply NoDup_singleton.
  - intros x Hx. by apply elem_of_nil in Hx.
  - lia.
  - intros i p u Hi. simpl in Hi. lia.
Qed.

(** The queue holds the manager and then at most one entry per user. *)
Lemma wf_queue_length tr :
  traversal_wf allUsers managerId tr → (length (queue tr) ≤ S (length allUsers))%nat.
Proof.
  intros [Hq _ Hnd Hs]. rewrite Hq in Hnd |- *. simpl.
  apply NoDup_cons in Hnd as [_ Hnd].
  apply le_n_S. rewrite <- (length_fmap User.id allUsers).
  apply submseteq_length, NoDup_submseteq; [done|].
  intros x Hx. by apply reports_is_user, Hs.
Qed.

(** One direct report of a queued manager [p]. *)
Lemma visit_wf tr p u :
  traversal_wf allUsers managerId tr →
  p ∈ queue tr → u ∈ allUsers → User.managerId u = Some p →
  traversal_wf allUsers managerId (visit tr u).
Proof.
  intros Hwf Hp Hu Hm. unfold visit. case_decide as Hv; [done|].
  destruct Hwf as [Hq Hvis Hnd Hs]. split; simpl.
  - by rewrite Hq.
  - intros x. rewrite elem_of_union, elem_of_singleton, elem_of_app,
      list_elem_of_singleton, Hvis. tauto.
  - apply NoDup_app. split_and!; [done| |apply NoDup_singleton].
    intros x Hx ->%list_elem_of_singleton. by apply Hv, Hvis.
  - intros x [Hx| ->%list_elem_of_singleton]%elem_of_app; [by apply Hs|].
    rewrite Hq in Hp. apply elem_of_cons in Hp as [->|Hp].
    + by apply reports_direct.
    + eapply reports_indirect; [by apply Hs| |]; done.
Qed.

Lemma visit_head tr u : head (visit tr u) = head tr.
Proof. unfold visit. by case_decide. Qed.

Lemma visit_queue tr u : ∃ ext, queue (visit tr u) = queue tr ++ ext.
Proof.
  unfold visit. case_decide; simpl; [exists []; by rewrite app_nil_r|by eexists].
Qed.

Lemma visit_visited tr u x : x ∈ visited tr → x ∈ visited (visit tr u).
Proof. unfold visit. case_decide; simpl; set_solver. Qed.

Lemma visit_marks tr u : User.id u ∈ visited (visit tr u).
Proof. unfold visit. case_decide; simpl; set_solver. Qed.

(** The [for] loop over the direct reports of a queued manager [p]. *)
Lemma for_loop_spec p ds : ∀ tr,
  traversal_wf allUsers managerId tr →
  p ∈ queue tr →
  (∀ u, u ∈ ds → u ∈ allUsers ∧ User.managerId u = Some p) →
  traversal_wf allUsers managerId (foldl visit tr ds)
  ∧ head (foldl visit tr ds) = head tr
  ∧ (∃ ext, queue (foldl visit tr ds) = queue tr ++ ext)
  ∧ (∀ x, x ∈ visited tr → x ∈ visited (foldl visit tr ds))
  ∧ (∀ u, u ∈ ds → User.id u ∈ visited (foldl visit tr ds)).
Proof.
  induction ds as [|u ds IH]; intros tr Hwf Hp Hds; simpl.
  - split_and!; [done|done|exists []; by rewrite app_nil_r|done|].
    intros u Hu. by apply elem_of_nil in Hu.
  - destruct (Hds u) as [Hu Hm]; [by left|].
    destruct (visit_queue tr u) as [ext1 Hext1].
    destruct (IH (visit tr u)) as (Hwf' & Hh & [ext2 Hext2] & Hmono & Hall).
    + by eapply visit_wf.
    + rewrite Hext1. apply elem_of_app. by left.
    + intros v Hv. apply Hds. by right.
    + split_and!.
      * done.
      * by rewrite Hh, visit_head.
      * exists (ext1 ++ ext2). by rewrite Hext2, Hext1, <- app_assoc.
      * intros x Hx. by apply Hmono, visit_visited.
      * intros v [->|Hv]%elem_of_cons; [apply Hmono, visit_marks|by apply Hall].
Qed.

(** One iteration of the [while] loop keeps the invariant and advances
    [head] by one. *)
Lemma iteration_inv tr :
  traversal_inv allUsers managerId tr → (head tr < length (queue tr))%nat →
  traversal_inv allUsers managerId (iteration allUsers tr)
  ∧ head (iteration allUsers tr) = S (head tr).
Proof.
  intros [Hwf Hh Hex] Hlt. unfold iteration.
  destruct (lookup_lt_is_Some_2 _ _ Hlt) as [p Hp]. rewrite Hp.
  set (tr0 := {| subordinates := subordinates tr; queue := queue tr;
                 visited := visited tr; head := S (head tr) |}).
  assert (traversal_wf allUsers managerId tr0) as Hwf0 by (by destruct Hwf).
  destruct (for_loop_spec p (directSubordinates allUsers p) tr0)
    as (Hwf' & Hh' & [ext Hext] & Hmono & Hall); [done|..].
  { by eapply list_elem_of_lookup_2. }
  { intros u Hu. unfold directSubordinates in Hu.
    by apply list_elem_of_filter in Hu as [? ?]. }
  split; [|done]. split; [done|..].
  - rewrite Hh', Hext, length_app. simpl. lia.
  - intros i q u Hi Hq Hu Hm. rewrite Hh' in Hi. simpl in Hi.
    assert (queue tr !! i = Some q) as Hq'.
    { rewrite Hext in Hq. simpl in Hq. rewrite lookup_app_l in Hq by lia. done. }
    destruct (decide (i = head tr)) as [->|Hne].
    + assert (q = p) as -> by congruence.
      apply Hall. unfold directSubordinates. by apply list_elem_of_filter.
    + apply Hmono. simpl. eapply Hex; [|done..]. lia.
Qed.

(** The loop exits before the bound is used up, and the invariant holds on
    exit with every queued id expanded. *)
Lemma while_loop_exits fuel : ∀ tr,
  traversal_inv allUsers managerId tr →
  (S (length allUsers) - head tr < fuel)%nat →
  ∃ tr', while_loop fuel allUsers tr = Some tr'
    ∧ traversal_inv allUsers managerId tr'
    ∧ head tr' = length (queue tr').
Proof.
  induction fuel as [|fuel IH]; intros tr Hinv Hfuel; [lia|]. simpl.
  case_decide as Hlt.
  - destruct (iteration_inv tr Hinv Hlt) as [Hinv' Hh'].
    apply IH; [done|]. rewrite Hh'.
    pose proof (wf_queue_length tr (inv_wf _ _ _ Hinv)). lia.
  - exists tr. split_and!; [done..|]. pose proof (inv_head _ _ _ Hinv). lia.
Qed.

(** On exit the visited set is closed under the reporting relation. *)
Lemma exit_complete tr x :
  traversal_inv allUsers managerId tr → head tr = length (queue tr) →
  reports allUsers managerId x → x ∈ queue tr.
Proof.
  intros [Hwf Hh Hex] Hexit Hr. apply (wf_visited _ _ _ Hwf).
  induction Hr as [u Hu Hm|u y Hr IH Hu Hm].
  - apply (Hex 0 managerId u); [|by rewrite (wf_queue _ _ _ Hwf)|done..].
    rewrite Hexit, (wf_queue _ _ _ Hwf). simpl. lia.
  - apply (wf_visited _ _ _ Hwf) in IH.
    apply list_elem_of_lookup_1 in IH as [i Hi].
    apply (Hex i y u); [|done..].
    rewrite Hexit. by eapply lookup_lt_Some.
Qed.

(** The run of [getSubordinateIds]: the loop exits, and its final variables
    satisfy the invariant. *)
Lemma getSubordinateIds_run k :
  ∃ tr, while_loop (traversal_fuel allUsers + k) allUsers (traversal_start managerId) = Some tr
    ∧ traversal_inv allUsers managerId tr
    ∧ head tr = length (queue tr).
Proof.
  apply while_loop_exits; [apply traversal_start_inv|].
  unfold traversal_fuel. simpl. lia.
Qed.

End traversal.

(** ** Array helpers *)

Lemma find_Some_Exists {A} (P : A → Prop) `{!∀ x, Decision (P x)} (l : list A) x :
  find P l = Some x → Exists P l.
Proof.
  unfold find. destruct (list_find P l) as [[i y]|] eqn:Hf; [|done].
  intros _. apply list_find_Some in Hf as (Hi & HP & _).
  apply Exists_exists. exists y. split; [|done]. by eapply list_elem_of_lookup_2.
Qed.

Lemma find_None_Forall {A} (P : A → Prop) `{!∀ x, Decision (P x)} (l : list A) :
  find P l = None → ¬ Exists P l.
Proof.
  unfold find. destruct (list_find P l) as [[i y]|] eqn:Hf; [done|].
  intros _. apply list_find_None in Hf. by apply Forall_Exists_neg.
Qed.

(** ** Ticket creation *)

Lemma addTicket_inr ticketData s c w :
  addTicket ticketData s c = inr w →
  ∃ user team,
    sessionUser s = Some user ∧ resolveTeam user s = Some team
    ∧ truthy (User.id user) = true ∧ truthy team = true
    ∧ w = addTicket_body ticketData (User.id user) team s c.
Proof.
  unfold addTicket. destruct (sessionUser s) as [user|]; [|done].
  destruct (resolveTeam user s) as [team|] eqn:Hres; [|done].
  destruct (truthy (User.id user)) eqn:Hid, (truthy team) eqn:Hteam; simpl; try done.
  intros [= <-]. exists user, team. by split_and!.
Qed.

Lemma initialStatus_cases ticketData s :
  let errorTypeId := TicketData.errorTypeId ticketData in
  let uid := TicketData.uid ticketData in
  (¬ hasAutomatedMessage errorTypeId s → initialStatus ticketData s = IN_PROGRESS)
  ∧ (hasAutomatedMessage errorTypeId s → ¬ hasPriorTicket uid errorTypeId s →
     initialStatus ticketData s = CLOSED)
  ∧ (hasAutomatedMessage errorTypeId s → hasPriorTicket uid errorTypeId s →
     initialStatus ticketData s = ESCALATED).
Proof.
  simpl. unfold initialStatus, automatedMessageFor, existingTicketFor,
    hasAutomatedMessage, hasPriorTicket.
  destruct (find _ (mockMessages s)) as [m|] eqn:Hm.
  - apply find_Some_Exists in Hm.
    destruct (find _ (tickets s)) as [t|] eqn:Ht.
    + apply find_Some_Exists in Ht. split_and!; tauto.
    + apply find_None_Forall in Ht. split_and!; tauto.
  - apply find_None_Forall in Hm. split_and!; tauto.
Qed.

Lemma addTicket_body_tickets ticketData preId team s c :
  let w := addTicket_body ticketData preId team s c in
  let newTicket :=
    {| Ticket.id := "ticket-" +:+ string_of_Z (readings c (reads c));
       Ticket.uid := TicketData.uid ticketData;
       Ticket.preId := preId;
       Ticket.errorTypeId := TicketData.errorTypeId ticketData;
       Ticket.description := TicketData.description ticketData;
       Ticket.comment := TicketData.comment ticketData;
       Ticket.status := initialStatus ticketData s;
       Ticket.createdAt := readings c (S (reads c));
       Ticket.updatedAt := readings c (S (S (reads c)));
       Ticket.rpName := TicketData.rpName ticketData;
       Ticket.team := team;
       Ticket.subject := TicketData.subject ticketData;
       Ticket.attachment := TicketData.attachment ticketData |} in
  mockTickets w.1 = newTicket :: mockTickets s
  ∧ tickets w.1 = newTicket :: mockTickets s.
Proof.
  simpl. unfold addTicket_body. simpl.
  destruct (decide (initialStatus ticketData s = ESCALATED));
    destruct (automatedMessageFor _ s); simpl;
    try destruct (decide (initialStatus ticketData s = CLOSED)); simpl; done.
Qed.

(** C1. Every successful [addTicket] puts one new ticket at the head of the
    ticket collection, and its status is: In Progress when no automated
    message references the draft's error type; Closed when one does and no
    ticket of the store has the same (uid, error type) pair; Escalated when
    one does and some ticket of the store has that pair. *)
Theorem addTicket_initial_status (ticketData : TicketData.t) (s : State) (c : Clock)
    (w : State * Clock) :
  addTicket ticketData s c = inr w →
  let errorTypeId := TicketData.errorTypeId ticketData in
  let uid := TicketData.uid ticketData in
  ∃ newTicket,
    mockTickets w.1 = newTicket :: mockTickets s
    ∧ tickets w.1 = newTicket :: mockTickets s
    ∧ Ticket.uid newTicket = uid
    ∧ Ticket.errorTypeId newTicket = errorTypeId
    ∧ (¬ hasAutomatedMessage errorTypeId s → Ticket.status newTicket = IN_PROGRESS)
    ∧ (hasAutomatedMessage errorTypeId s → ¬ hasPriorTicket uid errorTypeId s →
       Ticket.status newTicket = CLOSED)
    ∧ (hasAutomatedMessage errorTypeId s → hasPriorTicket uid errorTypeId s →
       Ticket.status newTicket = ESCALATED).
Proof.
  intros (user & team & _ & _ & _ & _ & ->)%addTicket_inr. simpl.
  destruct (addTicket_body_tickets ticketData (User.id user) team s c) as [Hm Ht].
  eexists. split; [exact Hm|]. split; [exact Ht|]. simpl.
  split; [done|]. split; [done|]. apply initialStatus_cases.
Qed.

(** A first submission for an error type with an automated message: the
    witness of C1. *)
Lemma addTicket_initial_status_witness :
  addTicket (sampleDraft "UID500" "et-4" None) aliceSession sampleClock
    = inr (created (sampleDraft "UID500" "et-4" None) (aliceSession, sampleClock))
  ∧ ∃ newTicket,
      mockTickets (created (sampleDraft "UID500" "et-4" None) (aliceSession, sampleClock)).1
        = newTicket :: mockTickets aliceSession
      ∧ Ticket.status newTicket = CLOSED.
Proof.
  split; [reflexivity|].
  destruct (addTicket_initial_status (sampleDraft "UID500" "et-4" None) aliceSession
              sampleClock _ eq_refl) as (t & Hm & _ & _ & _ & _ & Hclosed & _).
  exists t. split; [exact Hm|]. apply Hclosed.
  - unfold hasAutomatedMessage. simpl. do 2 apply Exists_cons_tl. by apply Exists_cons_hd.
  - unfold hasPriorTicket. simpl. by intros ?%Exists_nil.
Defined.



Lemma teamMissing_resolveTeam user s :
  teamMissing user s ↔
  resolveTeam user s = None ∨ resolveTeam user s = Some EmptyString.
Proof. unfold teamMissing, resolveTeam. by destruct (User.role user). Qed.

Lemma truthy_false s : truthy s = false ↔ s = EmptyString.
Proof. by destruct s. Qed.

Lemma truthy_true s : truthy s = true ↔ s ≠ EmptyString.
Proof. by destruct s. Qed.

(** C5, as the code has it. [addTicket] fails with SessionInvalid exactly
    when the session holds no user. It fails with TeamUnresolved exactly
    when the session holds a user whose id is empty or whose team is missing
    (the team selected in the session for a PRE, the team of the profile for
    any other role). Otherwise it succeeds, and stores at the head of the
    ticket collection the fully populated ticket: the draft's fields, the
    generated id, the user's id, the team, the initial status and the two
    timestamps. The call itself returns no value. *)
Theorem addTicket_outcome (ticketData : TicketData.t) (s : State) (c : Clock) :
  (addTicket ticketData s c = inl SessionInvalid ↔ sessionUser s = None)
  ∧ (addTicket ticketData s c = inl TeamUnresolved ↔
     ∃ user, sessionUser s = Some user
       ∧ (User.id user = EmptyString ∨ teamMissing user s))
  ∧ (∀ user, sessionUser s = Some user →
       User.id user ≠ EmptyString → ¬ teamMissing user s →
       ∃ w team,
         addTicket ticketData s c = inr w
         ∧ resolveTeam user s = Some team
         ∧ tickets w.1 = mockTickets w.1
         ∧ mockTickets w.1 =
             {| Ticket.id := "ticket-" +:+ string_of_Z (readings c (reads c));
                Ticket.uid := TicketData.uid ticketData;
                Ticket.preId := User.id user;
                Ticket.errorTypeId := TicketData.errorTypeId ticketData;
                Ticket.description := TicketData.description ticketData;
                Ticket.comment := TicketData.comment ticketData;
                Ticket.status := initialStatus ticketData s;
                Ticket.createdAt := readings c (S (reads c));
                Ticket.updatedAt := readings c (S (S (reads c)));
                Ticket.rpName := TicketData.rpName ticketData;
                Ticket.team := team;
                Ticket.subject := TicketData.subject ticketData;
                Ticket.attachment := TicketData.attachment ticketData |}
             :: mockTickets s).
Proof.
  split_and!.
  - unfold addTicket. destruct (sessionUser s) as [user|]; [|done].
    split; [|done]. simpl.
    destruct (resolveTeam user s); [|done]. by case_match.
  - unfold addTicket. destruct (sessionUser s) as [user|].
    + simpl. setoid_rewrite teamMissing_resolveTeam.
      destruct (resolveTeam user s) as [team|] eqn:Hteam.
      * destruct (truthy (User.id user)) eqn:Hid, (truthy team) eqn:Htm; simpl.
        -- split; [done|]. intros (u & [= <-] & [Hi|[Hn|Hn]]); exfalso.
           ++ by apply truthy_true in Hid.
           ++ congruence.
           ++ apply truthy_true in Htm. congruence.
        -- split; [|done]. intros _. exists user. split; [done|].
           right. right. rewrite Hteam. f_equal. by apply truthy_false.
        -- split; [|done]. intros _. exists user. split; [done|].
           left. by apply truthy_false.
        -- split; [|done]. intros _. exists user. split; [done|].
           left. by apply truthy_false.
      * split; [|done]. intros _. exists user. split; [done|]. right. by left.
    + split; [done|]. by intros (u & ? & _).
  - intros user Hu Hid Hteam. rewrite teamMissing_resolveTeam in Hteam.
    unfold addTicket. rewrite Hu. simpl.
    destruct (resolveTeam user s) as [team|] eqn:Hres; [|by destruct Hteam; left].
    apply truthy_true in Hid. rewrite Hid.
    assert (truthy team = true) as -> by (apply truthy_true; naive_solver).
    simpl. eexists _, team. split; [done|]. split; [done|].
    destruct (addTicket_body_tickets ticketData (User.id user) team s c) as [Hm Ht].
    split; [by rewrite Ht, Hm|exact Hm].
Qed.

(** Alice with the Onboarding team selected: the witness of C5. *)
Lemma addTicket_outcome_witness :
  sessionUser aliceSession = Some alice
  ∧ User.id alice ≠ EmptyString
  ∧ ¬ teamMissing alice aliceSession
  ∧ ∃ w team,
      addTicket (sampleDraft "UID500" "et-1" None) aliceSession sampleClock = inr w
      ∧ resolveTeam alice aliceSession = Some team
      ∧ tickets w.1 = mockTickets w.1
      ∧ Ticket.status <$> mockTickets w.1 = [CLOSED].
Proof.
  assert (User.id alice ≠ EmptyString) as Hid by done.
  assert (¬ teamMissing alice aliceSession) as Hteam by (by intros [?|?]).
  split_and!; [done..|].
  destruct (addTicket_outcome (sampleDraft "UID500" "et-1" None) aliceSession sampleClock)
    as (_ & _ & Hok).
  destruct (Hok alice eq_refl Hid Hteam) as (w & team & Hw & Hr & Hs & Hm).
  exists w, team. split_and!; [done..|]. by rewrite Hm.
Defined.

(** C5 as stated fails for a session user whose id is the empty string: the
    user is in the session and the team is selected, and [addTicket] still
    fails with TeamUnresolved (and not with SessionInvalid). *)
Lemma addTicket_empty_id_counterexample :
  (∃ user, sessionUser namelessSession = Some user
     ∧ resolveTeam user namelessSession = Some ONBOARDING
     ∧ ¬ teamMissing user namelessSession)
  ∧ addTicket (sampleDraft "UID500" "et-1" None) namelessSession sampleClock
    = inl TeamUnresolved.
Proof.
  split; [|reflexivity]. eexists. split; [reflexivity|]. split; [reflexivity|].
  by intros [?|?].
Qed.

(** ** Ticket update *)

(** The two notification rules never fire together: a patch that asks for
    [ESCALATED] leaves the updated ticket escalated. *)
Lemma rules_exclusive ticketData originalTicket now :
  manualEscalation ticketData (Ticket.status originalTicket) = true →
  resolution (applyPatch originalTicket ticketData now) (Ticket.status originalTicket) = false.
Proof.
  unfold manualEscalation, resolution. simpl.
  intros [Hp _]%andb_prop. apply bool_decide_eq_true in Hp. rewrite Hp. simpl.
  done.
Qed.

Lemma manualEscalation_spec ticketData originalStatus :
  manualEscalation ticketData originalStatus = true ↔
  TicketPatch.status ticketData = Some ESCALATED ∧ originalStatus ≠ ESCALATED.
Proof.
  unfold manualEscalation.
  rewrite andb_true_iff, negb_true_iff, bool_decide_eq_true, bool_decide_eq_false. done.
Qed.

Lemma resolution_spec updatedTicket originalStatus :
  resolution updatedTicket originalStatus = true ↔
  (Ticket.status updatedTicket = COMPLETED ∨ Ticket.status updatedTicket = CLOSED)
  ∧ Ticket.status updatedTicket ≠ originalStatus.
Proof.
  unfold resolution.
  rewrite andb_true_iff, orb_true_iff, negb_true_iff, !bool_decide_eq_true,
    bool_decide_eq_false. split; intros [H1 H2]; (split; [done|congruence]).
Qed.

(** The placeholder stands in for an absent comment and for an empty one. *)
Lemma resolutionComment_spec updatedTicket :
  resolutionComment updatedTicket =
    match Ticket.comment updatedTicket with
    | Some comment =>
        if decide (comment = EmptyString) then "No comment provided."%string else comment
    | None => "No comment provided."%string
    end.
Proof.
  unfold resolutionComment, or_else.
  destruct (Ticket.comment updatedTicket) as [[|a comment]|]; done.
Qed.

(** The arrays after an update of a ticket that exists. *)
Lemma updateTicket_found ticketData s c adminUser ticketIndex originalTicket :
  sessionUser s = Some adminUser →
  User.id adminUser ≠ EmptyString →
  list_find (λ t, Ticket.id t = TicketPatch.id ticketData) (mockTickets s)
    = Some (ticketIndex, originalTicket) →
  let w := updateTicket ticketData s c in
  let k := reads c in
  let updatedTicket := applyPatch originalTicket ticketData (readings c k) in
  let originalStatus := Ticket.status originalTicket in
  mockTickets w.1 = <[ticketIndex := updatedTicket]> (mockTickets s)
  ∧ tickets w.1 = mockTickets w.1
  ∧ notifications w.1 = mockNotifications w.1
  ∧ adminNotifications w.1 = mockAdminNotifications w.1
  ∧ mockAdminNotifications w.1 =
      (if manualEscalation ticketData originalStatus
       then [escalatedAdminNotification ticketData originalTicket
               (readings c (1 + k)) (readings c (2 + k))]
       else []) ++ mockAdminNotifications s
  ∧ mockNotifications w.1 =
      (if manualEscalation ticketData originalStatus
       then [escalatedNotification updatedTicket
               (readings c (3 + k)) (readings c (4 + k))]
       else if resolution updatedTicket originalStatus
       then [resolvedNotification updatedTicket
               (readings c (1 + k)) (readings c (2 + k))]
       else []) ++ mockNotifications s.
Proof.
  intros Hu Hid%truthy_true Hfind. simpl.
  unfold updateTicket. rewrite Hu. simpl. rewrite Hid. simpl. rewrite Hfind.
  destruct (manualEscalation ticketData (Ticket.status originalTicket)) eqn:Hesc.
  - rewrite (rules_exclusive _ _ _ Hesc). simpl. done.
  - destruct (resolution _ (Ticket.status originalTicket)); simpl; done.
Qed.

(** C3. For an update of an existing ticket by a resolved acting user: when
    the patch asks for Escalated and the ticket was not escalated, exactly
    one admin notification and one system notification about the manual
    escalation are emitted; otherwise, when the updated ticket is Completed
    or Closed and that is a change, exactly one system notification is
    emitted that quotes the ticket's current comment, or the fixed
    placeholder when the ticket has none (no comment stored, or the empty
    string that the forms store for a comment field left blank); every
    other update emits no notification. So at most one rule fires. *)
Theorem updateTicket_notifications (ticketData : TicketPatch.t) (s : State) (c : Clock)
    (adminUser : User.t) (ticketIndex : nat) (originalTicket : Ticket.t) :
  sessionUser s = Some adminUser →
  User.id adminUser ≠ EmptyString →
  list_find (λ t, Ticket.id t = TicketPatch.id ticketData) (mockTickets s)
    = Some (ticketIndex, originalTicket) →
  let w := updateTicket ticketData s c in
  let updatedTicket := applyPatch originalTicket ticketData (readings c (reads c)) in
  let priorStatus := Ticket.status originalTicket in
  ∃ adminEmitted systemEmitted,
    mockTickets w.1 !! ticketIndex = Some updatedTicket
    ∧ mockAdminNotifications w.1 = adminEmitted ++ mockAdminNotifications s
    ∧ adminNotifications w.1 = mockAdminNotifications w.1
    ∧ mockNotifications w.1 = systemEmitted ++ mockNotifications s
    ∧ notifications w.1 = mockNotifications w.1
    ∧ if decide (TicketPatch.status ticketData = Some ESCALATED ∧ priorStatus ≠ ESCALATED)
      then
        ∃ a n,
          adminEmitted = [a] ∧ systemEmitted = [n]
          ∧ AdminNotification.ticketId a = Ticket.id updatedTicket
          ∧ AdminNotification.isRead a = false
          ∧ AdminNotification.message a =
              "Ticket for UID " +:+ Ticket.uid originalTicket +:+ " has been escalated."
          ∧ SystemNotification.ticketId n = Ticket.id updatedTicket
          ∧ SystemNotification.preId n = Ticket.preId updatedTicket
          ∧ SystemNotification.isRead n = false
          ∧ SystemNotification.message n =
              "Your ticket #" +:+ ticket_number (Ticket.id updatedTicket)
              +:+ " for UID " +:+ Ticket.uid updatedTicket
              +:+ " has been manually escalated."
      else if decide ((Ticket.status updatedTicket = COMPLETED
                       ∨ Ticket.status updatedTicket = CLOSED)
                      ∧ Ticket.status updatedTicket ≠ priorStatus)
      then
        ∃ n,
          adminEmitted = [] ∧ systemEmitted = [n]
          ∧ SystemNotification.ticketId n = Ticket.id updatedTicket
          ∧ SystemNotification.preId n = Ticket.preId updatedTicket
          ∧ SystemNotification.isRead n = false
          ∧ SystemNotification.message n =
              "Your ticket #" +:+ ticket_number (Ticket.id updatedTicket)
              +:+ " for UID " +:+ Ticket.uid updatedTicket
              +:+ " has been resolved. DataCR Comment: " +:+ dquote
              +:+ match Ticket.comment updatedTicket with
                  | Some comment =>
                      if decide (comment = EmptyString)
                      then "No comment provided."%string else comment
                  | None => "No comment provided."%string
                  end
              +:+ dquote
      else adminEmitted = [] ∧ systemEmitted = [].
Proof.
  intros Hu Hid Hfind w updatedTicket priorStatus.
  destruct (updateTicket_found ticketData s c adminUser ticketIndex originalTicket
              Hu Hid Hfind) as (Ht & _ & Hn & Ha & Hma & Hmn).
  fold w updatedTicket priorStatus in Ht, Hn, Ha, Hma, Hmn.
  do 2 eexists. split_and!; [|exact Hma|exact Ha|exact Hmn|exact Hn|].
  - rewrite Ht. apply list_lookup_insert_eq.
    apply list_find_Some in Hfind as (Hi & _). by eapply lookup_lt_Some.
  - destruct (manualEscalation ticketData priorStatus) eqn:Hesc.
    + apply manualEscalation_spec in Hesc. rewrite decide_True by done.
      by eexists _, _.
    + rewrite decide_False by (by rewrite <- manualEscalation_spec, Hesc).
      destruct (resolution updatedTicket priorStatus) eqn:Hres.
      * apply resolution_spec in Hres. rewrite decide_True by done.
        eexists. split_and!; try reflexivity.
        by rewrite <- resolutionComment_spec.
      * rewrite decide_False by (by rewrite <- resolution_spec, Hres). done.
Qed.

(** Bob completes the open ticket with the comment "fixed": the witness of
    C3, and the scenario of the specification (one system notification whose
    text quotes the comment). *)
Lemma updateTicket_notifications_witness :
  sessionUser bobSession = Some bob
  ∧ User.id bob ≠ EmptyString
  ∧ list_find (λ t, Ticket.id t = "ticket-1"%string) (mockTickets bobSession)
    = Some (0, openTicket)
  ∧ ∃ n,
      mockNotifications
        (updateTicket (statusPatch "ticket-1" (Some COMPLETED) (Some "fixed"))
           bobSession sampleClock).1 = [n]
      ∧ SystemNotification.message n =
          "Your ticket #1 for UID UID500 has been resolved. DataCR Comment: "
          +:+ dquote +:+ "fixed" +:+ dquote.
Proof.
  assert (User.id bob ≠ EmptyString) as Hid by done.
  split_and!; [done..|].
  destruct (updateTicket_notifications
              (statusPatch "ticket-1" (Some COMPLETED) (Some "fixed"))
              bobSession sampleClock bob 0 openTicket eq_refl Hid eq_refl)
    as (ae & se & _ & _ & _ & Hmn & _ & Hcase).
  rewrite decide_False in Hcase by (by intros [[=] _]).
  rewrite decide_True in Hcase by (split; [by left|done]).
  destruct Hcase as (n & _ & -> & _ & _ & _ & Hmsg).
  exists n. split; [exact Hmn|exact Hmsg].
Defined.

(** A ticket filed with the comment field left blank holds the empty
    string, which counts as no comment: completing it without a comment
    quotes the placeholder. *)
Example updateTicket_blank_comment :
  let w := updateTicket (statusPatch "ticket-1" (Some COMPLETED) None)
             bobSession sampleClock in
  Ticket.comment <$> mockTickets w.1 = [Some EmptyString]
  ∧ SystemNotification.message <$> mockNotifications w.1 =
      [ "Your ticket #1 for UID UID500 has been resolved. DataCR Comment: "
        +:+ dquote +:+ "No comment provided." +:+ dquote ].
Proof. split_and!; reflexivity. Qed.

(** The second, identical completion changes no status and emits nothing
    more. *)
Example updateTicket_completed_twice :
  let patch := statusPatch "ticket-1" (Some COMPLETED) (Some "fixed") in
  let w1 := updateTicket patch bobSession sampleClock in
  let w2 := updateTicket patch w1.1 w1.2 in
  length (mockNotifications w1.1) = 1
  ∧ mockNotifications w2.1 = mockNotifications w1.1
  ∧ mockAdminNotifications w2.1 = [].
Proof. split_and!; reflexivity. Qed.

(** An update without a resolved acting user changes nothing. *)
Lemma updateTicket_unresolved_user ticketData s c :
  sessionUser s = None
  ∨ (∃ user, sessionUser s = Some user ∧ User.id user = EmptyString) →
  updateTicket ticketData s c = (s, c).
Proof.
  unfold updateTicket. intros [->|(user & -> & Hid)]; [done|].
  simpl. by rewrite Hid.
Qed.

Lemma updateTicket_unresolved_user_witness :
  (sessionUser (sampleSession None None) = None
   ∨ ∃ user, sessionUser (sampleSession None None) = Some user
       ∧ User.id user = EmptyString)
  ∧ updateTicket (statusPatch "ticket-1" (Some COMPLETED) None)
      (sampleSession None None) sampleClock
    = (sampleSession None None, sampleClock).
Proof.
  split; [by left|]. apply updateTicket_unresolved_user. by left.
Defined.

(** An update of a ticket id that is not in the array leaves the three
    arrays as they are, and still appends one UPDATE entry to the audit log. *)
Lemma updateTicket_missing_ticket ticketData s c adminUser :
  sessionUser s = Some adminUser →
  User.id adminUser ≠ EmptyString →
  list_find (λ t, Ticket.id t = TicketPatch.id ticketData) (mockTickets s) = None →
  let w := updateTicket ticketData s c in
  mockTickets w.1 = mockTickets s
  ∧ mockNotifications w.1 = mockNotifications s
  ∧ mockAdminNotifications w.1 = mockAdminNotifications s
  ∧ ∃ entry,
      mockLogs w.1 = entry :: mockLogs s
      ∧ logs w.1 = mockLogs w.1
      ∧ AuditLog.action entry = "UPDATE"%string
      ∧ AuditLog.ticketId entry = TicketPatch.id ticketData
      ∧ AuditLog.userId entry = User.id adminUser
      ∧ AuditLog.details entry = updateDetails ticketData None.
Proof.
  intros Hu Hid%truthy_true Hfind. simpl.
  unfold updateTicket. rewrite Hu. simpl. rewrite Hid. simpl. rewrite Hfind.
  simpl. split_and!; [done..|]. by eexists.
Qed.

Lemma updateTicket_missing_ticket_witness :
  sessionUser bobSession = Some bob
  ∧ User.id bob ≠ EmptyString
  ∧ list_find (λ t, Ticket.id t = "ticket-404"%string) (mockTickets bobSession) = None
  ∧ length (mockLogs (updateTicket (statusPatch "ticket-404" (Some COMPLETED) None)
                        bobSession sampleClock).1) = 1.
Proof.
  assert (User.id bob ≠ EmptyString) as Hid by done.
  split_and!; [done..|].
  destruct (updateTicket_missing_ticket (statusPatch "ticket-404" (Some COMPLETED) None)
              bobSession sampleClock bob eq_refl Hid eq_refl)
    as (_ & _ & _ & entry & -> & _).
  done.
Defined.

(** C4 at its failing input. Bob updates the id ticket-404, which no ticket
    has: the ticket array is unchanged, and the audit log, empty before,
    holds an UPDATE entry that reports a status change of that ticket. *)
Lemma updateTicket_missing_ticket_audit_entry :
  let w := updateTicket (statusPatch "ticket-404" (Some COMPLETED) None)
             bobSession sampleClock in
  Ticket.id <$> mockTickets bobSession = ["ticket-1"%string]
  ∧ mockTickets w.1 = mockTickets bobSession
  ∧ mockLogs bobSession = []
  ∧ (λ e, (AuditLog.ticketId e, AuditLog.action e, AuditLog.details e))
      <$> mockLogs w.1
    = [ ("ticket-404", "UPDATE",
         "Status changed to Completed for ticket ticket-404.")%string ]
  ∧ logs w.1 = mockLogs w.1.
Proof. split_and!; reflexivity. Qed.

(** ** Marking notifications as read *)

(** Both operations are one scheme: find the first record with the key, and
    replace it by its read version. *)
Section mark_read.
Context {A : Type} (key : A → string) (mark1 : A → A) (isRead : A → bool).
Abbreviation markRead := (markRead key mark1).
Context (mark1_key : ∀ n, key (mark1 n) = key n).
Context (mark1_read : ∀ n, isRead (mark1 n) = true).
Context (mark1_idem : ∀ n, mark1 (mark1 n) = mark1 n).

Lemma markRead_cons notificationId n l :
  markRead notificationId (n :: l) =
    if decide (key n = notificationId) then mark1 n :: l
    else n :: markRead notificationId l.
Proof.
  unfold markRead, findIndex. simpl. case_decide; [done|].
  by destruct (list_find _ l) as [[i x]|].
Qed.

Lemma markRead_idem notificationId l :
  markRead notificationId (markRead notificationId l) = markRead notificationId l.
Proof.
  induction l as [|n l IH]; [done|].
  rewrite markRead_cons. case_decide as Hk.
  - rewrite markRead_cons, mark1_key, decide_True by done. by rewrite mark1_idem.
  - rewrite markRead_cons, decide_False by done. by rewrite IH.
Qed.

Lemma markRead_unknown notificationId l :
  Forall (λ n, key n ≠ notificationId) l → markRead notificationId l = l.
Proof.
  induction 1 as [|n l Hn _ IH]; [done|].
  by rewrite markRead_cons, decide_False, IH.
Qed.

Lemma markRead_length notificationId l :
  length (markRead notificationId l) = length l.
Proof.
  induction l as [|n l IH]; [done|].
  rewrite markRead_cons. case_decide; simpl; by rewrite ?IH.
Qed.

(** Only the first record with the key changes, into its read version. *)
Lemma markRead_first notificationId l :
  Exists (λ n, key n = notificationId) l →
  ∃ l1 n l2,
    l = l1 ++ n :: l2
    ∧ Forall (λ m, key m ≠ notificationId) l1
    ∧ key n = notificationId
    ∧ markRead notificationId l = l1 ++ mark1 n :: l2.
Proof.
  induction l as [|m l IH]; intros Hex; [by apply Exists_nil in Hex|].
  rewrite markRead_cons. case_decide as Hk.
  - by exists [], m, l.
  - apply Exists_cons in Hex as [?|Hex]; [done|].
    destruct (IH Hex) as (l1 & n & l2 & -> & Hl1 & Hn & ->).
    exists (m :: l1), n, l2. split_and!; [done| |done..].
    by constructor.
Qed.

Lemma filter_unread_nil l :
  Forall (λ n, isRead n = false) l → filter (λ n, isRead n = true) l = [].
Proof.
  induction 1 as [|n l Hn _ IH]; [done|].
  rewrite filter_cons_False by congruence. done.
Qed.

(** Starting from unread records, marking a known id (any number of times)
    leaves exactly one read record. *)
Lemma markRead_one_read notificationId l :
  Forall (λ n, isRead n = false) l →
  Exists (λ n, key n = notificationId) l →
  length (filter (λ n, isRead n = true) (markRead notificationId l)) = 1.
Proof.
  intros Hunread (l1 & n & l2 & -> & _ & _ & ->)%markRead_first.
  apply Forall_app in Hunread as [H1 [_ H2]%Forall_cons].
  rewrite filter_app, filter_cons_True by apply mark1_read.
  rewrite !filter_unread_nil by done. done.
Qed.

End mark_read.

Lemma markSystemRead_is_markRead notificationId l :
  markSystemRead notificationId l = markRead SystemNotification.id readSystem notificationId l.
Proof. done. Qed.

Lemma markAdminRead_is_markRead notificationId l :
  markAdminRead notificationId l = markRead AdminNotification.id readAdmin notificationId l.
Proof. done. Qed.

Lemma readSystem_idem n : readSystem (readSystem n) = readSystem n.
Proof. done. Qed.

Lemma readAdmin_idem n : readAdmin (readAdmin n) = readAdmin n.
Proof. done. Qed.

(** C9. Marking a system or an admin notification as read is idempotent and
    tolerant. For every notification id and state: a second call changes
    nothing; no record is added or removed; with an id that matches no
    notification the array is unchanged (and so is the whole state when the
    store shows the array); with an id that matches, only the first record
    with that id changes, to its read version, so that from unread records
    two calls leave exactly one record with isRead = true. *)
Theorem markAsRead_idempotent_tolerant (notificationId : string) (s : State) :
  let sys := markSystemNotificationAsRead notificationId in
  let adm := markAdminNotificationAsRead notificationId in
  (sys (sys s) = sys s
   ∧ length (mockNotifications (sys s)) = length (mockNotifications s)
   ∧ notifications (sys s) = mockNotifications (sys s)
   ∧ (Forall (λ n, SystemNotification.id n ≠ notificationId) (mockNotifications s) →
      mockNotifications (sys s) = mockNotifications s
      ∧ (notifications s = mockNotifications s → sys s = s))
   ∧ (Exists (λ n, SystemNotification.id n = notificationId) (mockNotifications s) →
      ∃ l1 n l2,
        mockNotifications s = l1 ++ n :: l2
        ∧ Forall (λ m, SystemNotification.id m ≠ notificationId) l1
        ∧ SystemNotification.id n = notificationId
        ∧ mockNotifications (sys (sys s)) = l1 ++ readSystem n :: l2)
   ∧ (Forall (λ n, SystemNotification.isRead n = false) (mockNotifications s) →
      Exists (λ n, SystemNotification.id n = notificationId) (mockNotifications s) →
      length (filter systemRead (mockNotifications (sys (sys s)))) = 1))
  ∧ (adm (adm s) = adm s
     ∧ length (mockAdminNotifications (adm s)) = length (mockAdminNotifications s)
     ∧ adminNotifications (adm s) = mockAdminNotifications (adm s)
     ∧ (Forall (λ n, AdminNotification.id n ≠ notificationId) (mockAdminNotifications s) →
        mockAdminNotifications (adm s) = mockAdminNotifications s
        ∧ (adminNotifications s = mockAdminNotifications s → adm s = s))
     ∧ (Exists (λ n, AdminNotification.id n = notificationId) (mockAdminNotifications s) →
        ∃ l1 n l2,
          mockAdminNotifications s = l1 ++ n :: l2
          ∧ Forall (λ m, AdminNotification.id m ≠ notificationId) l1
          ∧ AdminNotification.id n = notificationId
          ∧ mockAdminNotifications (adm (adm s)) = l1 ++ readAdmin n :: l2)
     ∧ (Forall (λ n, AdminNotification.isRead n = false) (mockAdminNotifications s) →
        Exists (λ n, AdminNotification.id n = notificationId) (mockAdminNotifications s) →
        length (filter adminRead (mockAdminNotifications (adm (adm s)))) = 1)).
Proof.
  cbv zeta. split.
  - assert (mockNotifications (markSystemNotificationAsRead notificationId
              (markSystemNotificationAsRead notificationId s))
            = mockNotifications (markSystemNotificationAsRead notificationId s)) as Htwice.
    { simpl. rewrite !markSystemRead_is_markRead. by apply markRead_idem. }
    split_and!.
    + unfold markSystemNotificationAsRead at 1 3. simpl in Htwice. simpl.
      by rewrite Htwice.
    + simpl. rewrite markSystemRead_is_markRead. apply markRead_length.
    + done.
    + intros Hno. simpl. rewrite markSystemRead_is_markRead.
      rewrite markRead_unknown by done. split; [done|].
      intros Hsync. unfold markSystemNotificationAsRead.
      rewrite markSystemRead_is_markRead, markRead_unknown by done.
      destruct s; simpl in *; by subst.
    + intros Hex. rewrite Htwice. simpl. rewrite markSystemRead_is_markRead.
      by apply markRead_first.
    + intros Hun Hex. rewrite Htwice. simpl. rewrite markSystemRead_is_markRead.
      by apply (markRead_one_read _ _ SystemNotification.isRead).
  - assert (mockAdminNotifications (markAdminNotificationAsRead notificationId
              (markAdminNotificationAsRead notificationId s))
            = mockAdminNotifications (markAdminNotificationAsRead notificationId s))
      as Htwice.
    { simpl. rewrite !markAdminRead_is_markRead. by apply markRead_idem. }
    split_and!.
    + unfold markAdminNotificationAsRead at 1 3. simpl in Htwice. simpl.
      by rewrite Htwice.
    + simpl. rewrite markAdminRead_is_markRead. apply markRead_length.
    + done.
    + intros Hno. simpl. rewrite markAdminRead_is_markRead.
      rewrite markRead_unknown by done. split; [done|].
      intros Hsync. unfold markAdminNotificationAsRead.
      rewrite markAdminRead_is_markRead, markRead_unknown by done.
      destruct s; simpl in *; by subst.
    + intros Hex. rewrite Htwice. simpl. rewrite markAdminRead_is_markRead.
      by apply markRead_first.
    + intros Hun Hex. rewrite Htwice. simpl. rewrite markAdminRead_is_markRead.
      by apply (markRead_one_read _ _ AdminNotification.isRead).
Qed.

(** The second of two unread notifications is marked twice: the witness of
    C9, for both kinds of notification. *)
Lemma markAsRead_idempotent_tolerant_witness :
  (Forall (λ n, SystemNotification.isRead n = false) (mockNotifications notifiedSession)
   ∧ Exists (λ n, SystemNotification.id n = "notif-2"%string)
       (mockNotifications notifiedSession)
   ∧ length (filter systemRead
               (mockNotifications
                  (markSystemNotificationAsRead "notif-2"
                     (markSystemNotificationAsRead "notif-2" notifiedSession)))) = 1)
  ∧ (Forall (λ n, AdminNotification.id n ≠ "notif-2"%string)
       (mockAdminNotifications notifiedSession)
     ∧ adminNotifications notifiedSession = mockAdminNotifications notifiedSession
     ∧ markAdminNotificationAsRead "notif-2" notifiedSession = notifiedSession).
Proof.
  destruct (markAsRead_idempotent_tolerant "notif-2" notifiedSession)
    as [(_ & _ & _ & _ & _ & Hone) (_ & _ & _ & Hunknown & _)].
  assert (Forall (λ n, SystemNotification.isRead n = false)
            (mockNotifications notifiedSession)) as Hunread
    by (by repeat constructor).
  assert (Exists (λ n, SystemNotification.id n = "notif-2"%string)
            (mockNotifications notifiedSession)) as Hknown
    by (by apply Exists_cons_tl, Exists_cons_hd).
  assert (Forall (λ n, AdminNotification.id n ≠ "notif-2"%string)
            (mockAdminNotifications notifiedSession)) as Hother
    by (by repeat constructor).
  split; split_and!; [done|done|by apply Hone|done|done|].
  by apply Hunknown.
Defined.

(** ** KPIs *)

Lemma length_filter_countWhere {A} (P Q : A → Prop)
    `{!∀ x, Decision (P x)} `{!∀ x, Decision (Q x)} (l : list A) :
  (∀ x, P x ↔ Q x) → length (filter P l) = countWhere Q l.
Proof.
  intros HPQ. induction l as [|x l IH]; [done|]. simpl.
  destruct (decide (Q x)) as [HQ|HQ].
  - rewrite filter_cons_True by (by apply HPQ). simpl. by rewrite IH.
  - rewrite filter_cons_False by (by rewrite HPQ). done.
Qed.

Lemma msPerDay_value : msPerDay = Number_of_Z 86400000.
Proof. vm_compute. reflexivity. Qed.

Lemma totalSolveTime_fold resolved acc :
  foldl addSolveTime acc resolved
  = foldl (λ acc t, PrimFloat.add acc (resolutionTime t)) acc resolved.
Proof. revert acc. induction resolved as [|t l IH]; intros acc; [done|]. apply IH. Qed.

(** *** binary64 arithmetic

    The primitive float operations are known through their IEEE
    specification ([SpecFloat], [FloatAxioms]). From it: integers below
    [2^53] in magnitude are converted, added and subtracted without
    rounding, and a division in the normal range is within a relative
    [2^-53] of the quotient. *)

Local Open Scope Z_scope.

Lemma fexp64_eq e : fexp64 e = Z.max (e - 53) (-1074).
Proof. reflexivity. Qed.

Lemma digits2_pos_bounds (m : positive) :
  2 ^ (Z.pos (digits2_pos m) - 1) ≤ Z.pos m < 2 ^ Z.pos (digits2_pos m).
Proof.
  induction m as [m IH|m IH|]; simpl digits2_pos.
  - rewrite Pos2Z.inj_succ. replace (Z.succ (Z.pos (digits2_pos m)) - 1)
      with (Z.succ (Z.pos (digits2_pos m) - 1)) by lia.
    rewrite !Z.pow_succ_r by lia. lia.
  - rewrite Pos2Z.inj_succ. replace (Z.succ (Z.pos (digits2_pos m)) - 1)
      with (Z.succ (Z.pos (digits2_pos m) - 1)) by lia.
    rewrite !Z.pow_succ_r by lia. lia.
  - simpl. lia.
Qed.

Lemma Zdigits2_unique (z k : Z) :
  2 ^ (k - 1) ≤ z < 2 ^ k → 0 < k → Zdigits2 z = k.
Proof.
  intros [Hlo Hhi] Hk.
  assert (0 < z) as Hz by (pose proof (Z.pow_pos_nonneg 2 (k - 1)); lia).
  destruct z as [|m|m]; try lia. simpl.
  pose proof (digits2_pos_bounds m) as [Hl Hh].
  set (d := Z.pos (digits2_pos m)) in *.
  destruct (Z.lt_trichotomy d k) as [Hlt|[Heq|Hgt]]; [|done|].
  - assert (2 ^ d ≤ 2 ^ (k - 1)) by (apply Z.pow_le_mono_r; lia). lia.
  - assert (2 ^ k ≤ 2 ^ (d - 1)) by (apply Z.pow_le_mono_r; lia). lia.
Qed.

Lemma Zdigits2_bounds (z : Z) :
  0 < z → 2 ^ (Zdigits2 z - 1) ≤ z < 2 ^ Zdigits2 z ∧ 0 < Zdigits2 z.
Proof.
  destruct z as [|m|m]; try lia. intros _. split; [apply digits2_pos_bounds|done].
Qed.

(** Shifting right keeps the value that the mantissa and its two bits stand
    for. *)
Lemma shr_1_placedAt mrs n d : placedAt mrs n d → placedAt (shr_1 mrs) n (2 * d).
Proof.
  unfold placedAt. destruct mrs as [m r s]. intros [Hm (k & (Hk & Hr & Hs) & Hn)]. simpl in *.
  assert (orb r s = true ↔ k ≠ 0) as Hrs.
  { rewrite orb_true_iff, Hr, Hs. lia. }
  destruct m as [|[p|p|]|p]; simpl; try lia.
  - split; [lia|]. exists k. split; [|lia].
    split; [lia|]. split; [split; [done|lia]|]. rewrite Hrs. lia.
  - split; [lia|]. exists (d + k). split; [|lia].
    split; [lia|]. split; [split; [lia|done]|]. rewrite Hrs. lia.
  - split; [lia|]. exists k. split; [|lia].
    split; [lia|]. split; [split; [done|lia]|]. rewrite Hrs. lia.
  - split; [lia|]. exists (d + k). split; [|lia].
    split; [lia|]. split; [split; [lia|done]|]. rewrite Hrs. lia.
Qed.

Lemma iter_shr_1_placedAt (p : positive) : ∀ mrs n d,
  placedAt mrs n d → placedAt (SpecFloat.iter_pos shr_1 p mrs) n (d * 2 ^ Z.pos p).
Proof.
  induction p as [p IH|p IH|]; intros mrs n d H; simpl SpecFloat.iter_pos.
  - apply shr_1_placedAt, IH, IH in H.
    replace (d * 2 ^ Z.pos p~1) with (2 * d * 2 ^ Z.pos p * 2 ^ Z.pos p); [done|].
    replace (Z.pos p~1) with (1 + Z.pos p + Z.pos p) by lia.
    rewrite !Z.pow_add_r by lia. lia.
  - apply IH, IH in H.
    replace (d * 2 ^ Z.pos p~0) with (d * 2 ^ Z.pos p * 2 ^ Z.pos p); [done|].
    replace (Z.pos p~0) with (Z.pos p + Z.pos p) by lia.
    rewrite !Z.pow_add_r by lia. lia.
  - apply shr_1_placedAt in H. by replace (d * 2 ^ 1) with (2 * d) by lia.
Qed.

Lemma shr_placedAt mrs e n N d :
  placedAt mrs N d → 0 ≤ n →
  (shr mrs e n).2 = e + n ∧ placedAt (shr mrs e n).1 N (d * 2 ^ n).
Proof.
  intros H Hn. destruct n as [|p|p]; [| |lia]; simpl.
  - split; [lia|]. by rewrite Z.mul_1_r.
  - split; [done|]. by apply iter_shr_1_placedAt.
Qed.

Lemma placedAt_of_loc m l k d :
  0 ≤ m → located l k d → placedAt (shr_record_of_loc m l) (m * d + k) d.
Proof.
  intros Hm Hl. split.
  - by destruct l as [|[]].
  - exists k. split; [|by destruct l as [|[]]]. by destruct l as [|[]].
Qed.

(** Rounding to nearest, ties to even, moves by at most half a unit. *)
Lemma round_nearest_even_placedAt mrs N D :
  placedAt mrs N D →
  let m2 := round_nearest_even (shr_m mrs) (loc_of_shr_record mrs) in
  shr_m mrs ≤ m2 ≤ shr_m mrs + 1 ∧ 2 * Z.abs (m2 * D - N) ≤ D
  ∧ shr_m mrs * D ≤ N < (shr_m mrs + 1) * D.
Proof.
  destruct mrs as [m r s]. intros [Hm (k & (Hk & Hr & Hs) & HN)]. simpl in *.
  destruct r, s; simpl.
  - assert (D ≤ 2 * k) by (by apply Hr). assert (2 * k ≠ D) by (by apply Hs). lia.
  - assert (D ≤ 2 * k) by (by apply Hr).
    assert (¬ (k ≠ 0 ∧ 2 * k ≠ D)) by (intros ?%Hs; done).
    destruct (Z.even m); lia.
  - assert (¬ D ≤ 2 * k) by (intros ?%Hr; done). lia.
  - assert (¬ D ≤ 2 * k) by (intros ?%Hr; done).
    assert (¬ (k ≠ 0 ∧ 2 * k ≠ D)) by (intros ?%Hs; done). lia.
Qed.

Lemma bounded_normal (m : positive) (e : Z) :
  2 ^ 52 ≤ Z.pos m < 2 ^ 53 → -1074 ≤ e ≤ 971 → bounded prec emax m e = true.
Proof.
  intros Hm He. unfold bounded, canonical_mantissa.
  assert (Z.pos (digits2_pos m) = 53) as ->.
  { apply (Zdigits2_unique (Z.pos m) 53); [done|lia]. }
  rewrite fexp64_eq. apply andb_true_iff. split.
  - apply Z.eqb_eq. lia.
  - apply Z.leb_le. unfold emax, prec. lia.
Qed.

(** Rounding to nearest-even in the normal range. *)
Lemma binary_round_aux_normal sx mx ex lx k d :
  0 < mx → located lx k d →
  let mag := Zdigits2 mx + ex in
  ex ≤ mag - 53 → -1074 ≤ mag - 53 → mag ≤ 1023 →
  ∃ m e,
    binary_round_aux prec emax sx mx ex lx = S754_finite sx m e
    ∧ bounded prec emax m e = true
    ∧ mag - 53 ≤ e ≤ mag - 52
    ∧ 2 ^ 52 ≤ Z.pos m < 2 ^ 53
    ∧ 2 * Z.abs (Z.pos m * 2 ^ (e - (mag - 53)) * (d * 2 ^ (mag - 53 - ex)) - (mx * d + k))
      ≤ d * 2 ^ (mag - 53 - ex)
    ∧ 2 ^ 52 * (d * 2 ^ (mag - 53 - ex)) ≤ mx * d + k.
Proof.
  intros Hmx Hl mag Hex Hlo Hhi.
  pose proof (Zdigits2_bounds mx Hmx) as [[Hdl Hdh] Hdp].
  assert (0 < d ∧ 0 ≤ k < d) as [Hd Hk] by (destruct Hl as [? _]; lia).
  set (n1 := mag - 53 - ex). set (N := mx * d + k). set (D := d * 2 ^ n1).
  assert (0 < 2 ^ n1) as HP by (apply Z.pow_pos_nonneg; lia).
  assert (0 < D) as HD by (unfold D; lia).
  assert (2 ^ Zdigits2 mx = 2 ^ 53 * 2 ^ n1) as Hpow.
  { rewrite <- Z.pow_add_r by lia. f_equal. unfold n1, mag. lia. }
  assert (2 ^ (Zdigits2 mx - 1) = 2 ^ 52 * 2 ^ n1) as Hpow'.
  { rewrite <- Z.pow_add_r by lia. f_equal. unfold n1, mag. lia. }
  unfold binary_round_aux, shr_fexp.
  replace (fexp64 (Zdigits2 mx + ex) - ex) with n1
    by (rewrite fexp64_eq; unfold n1, mag in *; lia).
  destruct (shr_placedAt (shr_record_of_loc mx lx) ex n1 N d) as [He1 Hp1].
  { apply placedAt_of_loc; [lia|done]. }
  { unfold n1. lia. }
  destruct (shr (shr_record_of_loc mx lx) ex n1) as [mrs1 e1]. simpl in He1, Hp1.
  fold D in Hp1.
  destruct (round_nearest_even_placedAt mrs1 N D Hp1) as (Hm2 & Herr & Hbr).
  set (m1 := shr_m mrs1) in *.
  set (m2 := round_nearest_even m1 (loc_of_shr_record mrs1)) in *.
  assert (e1 = mag - 53) as He1' by (unfold n1 in He1; lia).
  assert (2 ^ 52 ≤ m1 < 2 ^ 53) as Hm1.
  { split.
    - assert (2 ^ 52 * D ≤ N) as H1.
      { unfold D, N. rewrite Z.mul_assoc, (Z.mul_comm (2 ^ 52) d), <- Z.mul_assoc.
        rewrite <- Hpow'. nia. }
      nia.
    - assert (N < 2 ^ 53 * D) as H1.
      { unfold D, N. rewrite Z.mul_assoc, (Z.mul_comm (2 ^ 53) d), <- Z.mul_assoc.
        rewrite <- Hpow. nia. }
      nia. }
  assert (2 ^ 52 * D ≤ N) as HND by nia.
  destruct (decide (m2 < 2 ^ 53)) as [Hlt|Hge].
  - replace (fexp64 (Zdigits2 m2 + e1) - e1) with 0.
    2:{ rewrite (Zdigits2_unique m2 53), fexp64_eq by lia. lia. }
    simpl. destruct m2 as [|m|m]; [lia| |lia].
    exists m, e1. split.
    { replace (e1 <=? emax - prec) with true; [done|].
      symmetry. apply Z.leb_le. unfold emax, prec. lia. }
    split; [apply bounded_normal; lia|].
    split; [lia|]. split; [lia|].
    replace (e1 - (mag - 53)) with 0 by lia. rewrite Z.mul_1_r. fold n1 N D. lia.
  - assert (m2 = 2 ^ 53) as Hm2' by lia.
    replace (fexp64 (Zdigits2 m2 + e1) - e1) with 1.
    2:{ rewrite (Zdigits2_unique m2 54), fexp64_eq by lia. lia. }
    rewrite Hm2'. simpl.
    exists (4503599627370496)%positive, (e1 + 1). split.
    { replace (e1 + 1 <=? emax - prec) with true; [done|].
      symmetry. apply Z.leb_le. unfold emax, prec. lia. }
    split; [apply bounded_normal; lia|].
    split; [lia|]. split; [lia|].
    replace (e1 + 1 - (mag - 53)) with 1 by lia. fold n1 N D.
    replace (4503599627370496 * 2 ^ 1) with m2 by lia. lia.
Qed.

Lemma new_location_located my r :
  0 < my → 0 ≤ r < my → located (new_location my r) r my.
Proof.
  intros Hmy Hr. unfold new_location, new_location_even, new_location_odd.
  destruct (Z.even my) eqn:Hev.
  - destruct (Z.eqb_spec r 0) as [->|Hr0]; [by repeat split; try lia|].
    destruct (Z.compare_spec (2 * r) my); simpl; repeat split; try lia; try done.
  - destruct (Z.eqb_spec r 0) as [->|Hr0]; [by repeat split; try lia|].
    assert (2 * r ≠ my).
    { intros <-. by rewrite Z.even_mul in Hev. }
    destruct (Z.compare_spec (2 * r + 1) my); simpl; repeat split; try lia; try done.
Qed.

Lemma pow2_pos e : (0 < pow2 e)%Q.
Proof. by apply Qpower_0_lt. Qed.

Lemma pow2_add a b : (pow2 (a + b) == pow2 a * pow2 b)%Q.
Proof. by apply Qpower_plus. Qed.

Lemma pow2_inject n : 0 ≤ n → (inject_Z (2 ^ n) == pow2 n)%Q.
Proof. intros Hn. by rewrite Zpower_Qpower. Qed.

Lemma magnitude_pos m e : (0 < magnitude m e)%Q.
Proof.
  unfold magnitude. apply Qmult_lt_0_compat; [|apply pow2_pos].
  unfold Qlt. simpl. lia.
Qed.

Lemma shifted_mantissa (m s : Z) :
  0 ≤ s →
  match s with Z.pos _ => Z.shiftl m s | 0 => m | Z.neg _ => 0 end = m * 2 ^ s.
Proof.
  intros Hs. destruct s as [|p|p]; [simpl; lia| |lia].
  by rewrite Z.shiftl_mul_pow2.
Qed.

(** Division of finite floats whose quotient is in the normal range, in
    integers: the result [m * 2^e] and the quotient [mx * 2^s / (my * 2^n)],
    both in units of [2^a]. *)
Lemma SFdiv_finite_integers sx sy (mx my : positive) (ex ey : Z) :
  let magx := Z.pos (digits2_pos mx) + ex in
  let magy := Z.pos (digits2_pos my) + ey in
  -1021 ≤ magx - magy ≤ 1022 →
  ∃ m e a n s,
    SFdiv prec emax (S754_finite sx mx ex) (S754_finite sy my ey)
      = S754_finite (xorb sx sy) m e
    ∧ bounded prec emax m e = true
    ∧ 2 ^ 52 ≤ Z.pos m < 2 ^ 53
    ∧ magx - magy - 53 ≤ e ≤ magx - magy - 51
    ∧ 0 ≤ n ∧ 0 ≤ s ∧ 0 ≤ e - a ∧ s - n + a = ex - ey
    ∧ 2 ^ 53 * Z.abs (Z.pos m * 2 ^ (e - a) * (Z.pos my * 2 ^ n) - Z.pos mx * 2 ^ s)
      ≤ Z.pos mx * 2 ^ s.
Proof.
  intros magx magy Hmag.
  pose proof (digits2_pos_bounds mx) as [Hxl Hxh].
  pose proof (digits2_pos_bounds my) as [Hyl Hyh].
  set (dx := Z.pos (digits2_pos mx)) in *. set (dy := Z.pos (digits2_pos my)) in *.
  unfold SFdiv, SFdiv_core_binary. simpl Zdigits2. fold dx dy.
  rewrite fexp64_eq.
  set (e' := Z.min (Z.max (dx + ex - (dy + ey) - 53) (-1074)) (ex - ey)).
  set (s := ex - ey - e').
  assert (0 ≤ s ∧ 53 - dx + dy ≤ s) as [Hs Hs'] by (unfold s, e', magx, magy in *; lia).
  rewrite (shifted_mantissa (Z.pos mx) s Hs).
  pose proof (Z_div_mod (Z.pos mx * 2 ^ s) (Z.pos my) eq_refl) as Hdiv.
  destruct (Z.div_eucl (Z.pos mx * 2 ^ s) (Z.pos my)) as [q r]. destruct Hdiv as [Hq Hr].
  set (j := dx + s - dy).
  assert (0 < 2 ^ s) as Hps by (apply Z.pow_pos_nonneg; lia).
  assert (2 ^ (j - 1) ≤ q < 2 ^ (j + 1)) as [Hql Hqh].
  { assert (2 ^ (dx + s) = 2 ^ (j + 1) * 2 ^ (dy - 1)) as H1.
    { rewrite <- Z.pow_add_r by lia. f_equal. lia. }
    assert (2 ^ (dx - 1 + s) = 2 ^ (j - 1) * 2 ^ dy) as H2.
    { rewrite <- Z.pow_add_r by lia. f_equal. lia. }
    assert (Z.pos mx * 2 ^ s < 2 ^ (dx + s)) as H3.
    { rewrite Z.pow_add_r by lia. nia. }
    assert (2 ^ (dx - 1 + s) ≤ Z.pos mx * 2 ^ s) as H4.
    { rewrite Z.pow_add_r by lia. nia. }
    assert (0 < 2 ^ (dy - 1)) by (apply Z.pow_pos_nonneg; lia).
    assert (0 < 2 ^ dy) by (apply Z.pow_pos_nonneg; lia).
    assert (0 < 2 ^ (j - 1)) by (apply Z.pow_pos_nonneg; lia).
    assert (0 < 2 ^ (j + 1)) by (apply Z.pow_pos_nonneg; lia).
    split; nia. }
  assert (0 < q) as Hq0.
  { assert (0 < 2 ^ (j - 1)) by (apply Z.pow_pos_nonneg; lia). lia. }
  assert (j ≤ Zdigits2 q ≤ j + 1) as Hdq.
  { destruct (decide (q < 2 ^ j)) as [Hlt|Hge].
    - rewrite (Zdigits2_unique q j); lia.
    - rewrite (Zdigits2_unique q (j + 1)); [lia| |lia].
      replace (j + 1 - 1) with j by lia. lia. }
  destruct (binary_round_aux_normal (xorb sx sy) q e' (new_location (Z.pos my) r) r (Z.pos my))
    as (m & e & Heq & Hb & He & Hm & Herr & Hnorm).
  { done. }
  { by apply new_location_located. }
  { lia. }
  { unfold s, e', magx, magy, j in *. lia. }
  { unfold s, e', magx, magy, j in *. lia. }
  set (a := Zdigits2 q + e' - 53) in *.
  exists m, e, a, (a - e'), s. rewrite Heq.
  split; [done|]. split; [done|]. split; [done|].
  split; [unfold a, s, e', magx, magy, j in *; lia|].
  split; [unfold a, j in *; lia|]. split; [done|]. split; [lia|].
  split; [unfold s; lia|].
  replace (q * Z.pos my + r) with (Z.pos mx * 2 ^ s) in Herr, Hnorm by lia.
  lia.
Qed.

Lemma pow2_sub a b : (pow2 (a - b) == pow2 a / pow2 b)%Q.
Proof. by apply Qpower_minus. Qed.

Lemma pow2_nonzero e : ¬ (pow2 e == 0)%Q.
Proof. pose proof (pow2_pos e). lra. Qed.

(** Division of finite floats whose quotient is in the normal range: the
    result is finite and within a relative [2^-53] of the quotient. *)
Lemma SFdiv_finite sx sy (mx my : positive) (ex ey : Z) :
  let magx := Z.pos (digits2_pos mx) + ex in
  let magy := Z.pos (digits2_pos my) + ey in
  -1021 ≤ magx - magy ≤ 1022 →
  ∃ m e,
    SFdiv prec emax (S754_finite sx mx ex) (S754_finite sy my ey)
      = S754_finite (xorb sx sy) m e
    ∧ bounded prec emax m e = true
    ∧ magx - magy ≤ Z.pos (digits2_pos m) + e ≤ magx - magy + 2
    ∧ (Qabs (magnitude m e - magnitude mx ex / magnitude my ey)
       <= magnitude mx ex / magnitude my ey * (1 # 9007199254740992))%Q.
Proof.
  intros magx magy Hmag.
  destruct (SFdiv_finite_integers sx sy mx my ex ey Hmag)
    as (m & e & a & n & s & Heq & Hb & Hm & He & Hn & Hs & Ht & Hexp & Herr).
  exists m, e. split; [done|]. split; [done|]. split.
  { pose proof (Zdigits2_unique (Z.pos m) 53 Hm) as Hdm. simpl in Hdm.
    rewrite Hdm by lia. fold magx magy in He. lia. }
  unfold magnitude.
  set (iM := inject_Z (Z.pos m * 2 ^ (e - a))).
  set (iD := inject_Z (Z.pos my * 2 ^ n)).
  set (iN := inject_Z (Z.pos mx * 2 ^ s)).
  assert (iM == inject_Z (Z.pos m) * pow2 (e - a))%Q as HM
    by (unfold iM; by rewrite inject_Z_mult, pow2_inject).
  assert (iD == inject_Z (Z.pos my) * pow2 n)%Q as HD
    by (unfold iD; by rewrite inject_Z_mult, pow2_inject).
  assert (iN == inject_Z (Z.pos mx) * pow2 s)%Q as HN
    by (unfold iN; by rewrite inject_Z_mult, pow2_inject).
  assert (- iN <= inject_Z (2 ^ 53) * (iM * iD - iN) <= iN)%Q as [Hlo Hhi].
  { unfold iM, iD, iN.
    rewrite <- !inject_Z_mult, <- inject_Z_opp. unfold Qminus.
    rewrite <- inject_Z_opp, <- inject_Z_plus, <- inject_Z_mult, <- !Zle_Qle. lia. }
  replace e with ((e - a) + a) at 1 by lia.
  replace ex with ((s + a + ey) - n) at 1 2 by lia.
  rewrite !pow2_sub, !pow2_add.
  pose proof (pow2_pos a) as Hpa. pose proof (pow2_pos n) as Hpn.
  pose proof (pow2_pos s) as Hps. pose proof (pow2_pos ey) as Hpy.
  pose proof (pow2_pos (e - a)) as Hpt.
  assert (0 < inject_Z (Z.pos my))%Q as Hmy by (unfold Qlt; simpl; lia).
  assert (0 < inject_Z (Z.pos mx))%Q as Hmx by (unfold Qlt; simpl; lia).
  set (c := (pow2 a / iD)%Q).
  assert (0 < iD)%Q as HD0 by (rewrite HD; by apply Qmult_lt_0_compat).
  assert (0 < c)%Q as Hc by (by apply Qlt_shift_div_l; [|lra]).
  assert (inject_Z (Z.pos m) * (pow2 (e - a) * pow2 a)
          - inject_Z (Z.pos mx) * (pow2 s * pow2 a * pow2 ey / pow2 n)
            / (inject_Z (Z.pos my) * pow2 ey)
          == (iM * iD - iN) * c)%Q as Hv.
  { unfold c. rewrite HM, HD, HN. field. split_and!; lra. }
  assert (inject_Z (Z.pos mx) * (pow2 s * pow2 a * pow2 ey / pow2 n)
            / (inject_Z (Z.pos my) * pow2 ey) * (1 # 9007199254740992)
          == (iN * (1 # 9007199254740992)) * c)%Q as Hx.
  { unfold c. rewrite HD, HN. field. split_and!; lra. }
  rewrite Hv, Hx.
  change (inject_Z (2 ^ 53)) with (9007199254740992 # 1)%Q in Hlo, Hhi.
  apply Qabs_Qle_condition. split.
  - assert (- (iN * (1 # 9007199254740992) * c)
            == (- (iN * (1 # 9007199254740992))) * c)%Q as Hopp by ring.
    rewrite Hopp. apply Qmult_le_compat_r; lra.
  - apply Qmult_le_compat_r; lra.
Qed.

(** Integers: conversion, addition and subtraction are exact. *)
Lemma iter_xO (m d : positive) : Z.pos (Pos.iter xO m d) = Z.pos m * 2 ^ Z.pos d.
Proof.
  revert m. induction d as [|d IH] using Pos.peano_ind; intros m.
  - simpl. lia.
  - rewrite Pos.iter_succ, Pos2Z.inj_succ, Z.pow_succ_r by lia.
    rewrite Pos2Z.inj_xO, IH. lia.
Qed.

Lemma shl_align_spec (m : positive) (e e' : Z) :
  e' ≤ e → shl_align m e e' = (Z.to_pos (Z.pos m * 2 ^ (e - e')), e').
Proof.
  intros He. unfold shl_align.
  destruct (e' - e) as [|d|d] eqn:Hd; [|lia|].
  - replace (e - e') with 0 by lia. replace e' with e by lia.
    rewrite Z.mul_1_r. done.
  - replace (e - e') with (Z.pos d) by lia. by rewrite <- iter_xO, Pos2Z.id.
Qed.

Lemma binary_round_integer (s : bool) (m : positive) (e z : Z) :
  e ≤ 0 → Z.pos m = z * 2 ^ (- e) → 0 < z < 2 ^ 53 →
  binary_round prec emax s m e
  = S754_finite s (Z.to_pos (z * 2 ^ (53 - Zdigits2 z))) (Zdigits2 z - 53).
Proof.
  intros He Hm Hz.
  pose proof (digits2_pos_bounds m) as [Hml Hmh].
  pose proof (Zdigits2_bounds z ltac:(lia)) as [[Hzl Hzh] Hzd].
  set (dm := Z.pos (digits2_pos m)) in *. set (dz := Zdigits2 z) in *.
  assert (0 < 2 ^ (- e)) as Hpe by (apply Z.pow_pos_nonneg; lia).
  assert (dz ≤ 53) as Hdz.
  { destruct (decide (dz ≤ 53)) as [|Hn]; [done|].
    assert (2 ^ 53 ≤ 2 ^ (dz - 1)) by (apply Z.pow_le_mono_r; lia). lia. }
  assert (dm = dz - e) as Hdm.
  { change (Zdigits2 (Z.pos m) = dz - e). apply (Zdigits2_unique (Z.pos m) (dz - e)); [|lia].
    rewrite Hm. replace (dz - e - 1) with (dz - 1 + - e) by lia.
    replace (dz - e) with (dz + - e) by lia. rewrite !Z.pow_add_r by lia. nia. }
  unfold binary_round. fold dm. rewrite fexp64_eq.
  replace (Z.max (dm + e - 53) (-1074)) with (dz - 53) by lia.
  set (c := z * 2 ^ (53 - dz)).
  assert (2 ^ 52 ≤ c < 2 ^ 53) as Hc.
  { unfold c. replace (2 ^ 52) with (2 ^ (dz - 1) * 2 ^ (53 - dz)).
    2:{ rewrite <- Z.pow_add_r by lia. f_equal. lia. }
    replace (2 ^ 53) with (2 ^ dz * 2 ^ (53 - dz)).
    2:{ rewrite <- Z.pow_add_r by lia. f_equal. lia. }
    assert (0 < 2 ^ (53 - dz)) by (apply Z.pow_pos_nonneg; lia). nia. }
  destruct (decide (dz - 53 ≤ e)) as [Hshift|Hround].
  - (* the mantissa is shifted left to 53 bits *)
    rewrite shl_align_spec by done.
    assert (Z.pos m * 2 ^ (e - (dz - 53)) = c) as Hmz.
    { unfold c. rewrite Hm, <- Z.mul_assoc, <- Z.pow_add_r by lia. do 2 f_equal. lia. }
    rewrite Hmz.
    destruct (binary_round_aux_normal s c (dz - 53) loc_Exact 0 1)
      as (m' & e' & Heq & _ & He' & Hm' & Herr & _).
    { lia. }
    { by repeat split; try lia. }
    { rewrite (Zdigits2_unique c 53) by lia. lia. }
    { rewrite (Zdigits2_unique c 53) by lia. lia. }
    { rewrite (Zdigits2_unique c 53) by lia. lia. }
    rewrite (Zdigits2_unique c 53) in He', Herr by lia.
    lazy beta iota. rewrite Z2Pos.id by lia. rewrite Heq.
    replace (53 + (dz - 53) - 53 - (dz - 53)) with 0 in Herr by lia.
    destruct (decide (e' = dz - 53)) as [->|Hne].
    + replace (dz - 53 - (53 + (dz - 53) - 53)) with 0 in Herr by lia.
      f_equal. assert (Z.pos m' = c) as <- by lia. by rewrite Pos2Z.id.
    + replace (e' - (53 + (dz - 53) - 53)) with 1 in Herr by lia. lia.
  - (* the low bits that are dropped are zero *)
    replace (shl_align m e (dz - 53)) with (m, e).
    2:{ unfold shl_align. destruct (dz - 53 - e) eqn:Hd; try done. lia. }
    destruct (binary_round_aux_normal s (Z.pos m) e loc_Exact 0 1)
      as (m' & e' & Heq & _ & He' & Hm' & Herr & _).
    { lia. }
    { by repeat split; try lia. }
    { simpl Zdigits2. fold dm. lia. }
    { simpl Zdigits2. fold dm. lia. }
    { simpl Zdigits2. fold dm. lia. }
    simpl Zdigits2 in He', Herr. fold dm in He', Herr. lazy beta iota. rewrite Heq.
    set (P := 2 ^ (dm + e - 53 - e)) in *.
    assert (0 < P) as HP by (apply Z.pow_pos_nonneg; lia).
    assert (Z.pos m = c * P) as HcP.
    { unfold c, P. rewrite Hm, <- Z.mul_assoc, <- Z.pow_add_r by lia. do 2 f_equal. lia. }
    rewrite Z.mul_1_l, Z.mul_1_r, Z.add_0_r, HcP in Herr.
    destruct (decide (e' = dz - 53)) as [->|Hne].
    + replace (dz - 53 - (dm + e - 53)) with 0 in Herr by lia.
      f_equal. assert (Z.pos m' = c) as <- by nia. by rewrite Pos2Z.id.
    + replace (e' - (dm + e - 53)) with 1 in Herr by lia. nia.
Qed.

Lemma binary_normalize_integer (M ez z : Z) :
  ez ≤ 0 → M = z * 2 ^ (- ez) → Z.abs z < 2 ^ 53 →
  binary_normalize prec emax M ez false = SF_of_Z z.
Proof.
  intros Hez HM Hz.
  assert (0 < 2 ^ (- ez)) as Hp by (apply Z.pow_pos_nonneg; lia).
  destruct M as [|m|m]; simpl.
  - assert (z = 0) as -> by nia. done.
  - assert (0 < z) as Hz0 by nia.
    rewrite (binary_round_integer false m ez z) by lia.
    by destruct z.
  - assert (z < 0) as Hz0 by nia.
    rewrite (binary_round_integer true m ez (- z)) by lia.
    by destruct z.
Qed.

(** The mantissa and exponent of a non-zero integer. *)
Lemma SF_of_Z_finite (z : Z) :
  z ≠ 0 → Z.abs z < 2 ^ 53 →
  ∃ m e, SF_of_Z z = S754_finite (z <? 0) m e
         ∧ Z.pos (digits2_pos m) = 53 ∧ -52 ≤ e ≤ 0
         ∧ Z.pos m = Z.abs z * 2 ^ (- e).
Proof.
  intros Hz0 Hz.
  pose proof (Zdigits2_bounds (Z.abs z) ltac:(lia)) as [[Hl Hh] Hd].
  assert (Zdigits2 (Z.abs z) = Zdigits2 z) as Hdz by (by destruct z).
  rewrite Hdz in *. set (d := Zdigits2 z) in *.
  assert (d ≤ 53) as Hd53.
  { destruct (decide (d ≤ 53)) as [|Hn]; [done|].
    assert (2 ^ 53 ≤ 2 ^ (d - 1)) by (apply Z.pow_le_mono_r; lia). lia. }
  assert (0 < 2 ^ (53 - d)) as Hp by (apply Z.pow_pos_nonneg; lia).
  exists (Z.to_pos (Z.abs z * 2 ^ (53 - d))), (d - 53).
  split; [by destruct z|].
  assert (Z.pos (Z.to_pos (Z.abs z * 2 ^ (53 - d))) = Z.abs z * 2 ^ (- (d - 53))) as Hm.
  { rewrite Z2Pos.id by nia. do 2 f_equal. lia. }
  split; [|split; [lia|done]].
  apply (Zdigits2_unique (Z.pos (Z.to_pos (Z.abs z * 2 ^ (53 - d)))) 53); [|lia].
  rewrite Hm. replace (- (d - 53)) with (53 - d) by lia.
  replace (2 ^ (53 - 1)) with (2 ^ (d - 1) * 2 ^ (53 - d)).
  2:{ rewrite <- Z.pow_add_r by lia. f_equal. lia. }
  replace (Z.abs z * 2 ^ (53 - d) < 2 ^ 53)
    with (Z.abs z * 2 ^ (53 - d) < 2 ^ d * 2 ^ (53 - d)).
  2:{ rewrite <- (Z.pow_add_r 2 d) by lia. do 2 f_equal. lia. }
  split; [apply Z.mul_le_mono_nonneg_r; lia|apply Z.mul_lt_mono_pos_r; lia].
Qed.

Lemma cond_Zopp_sign (z p : Z) : cond_Zopp (z <? 0) (Z.abs z * p) = z * p.
Proof. destruct (Z.ltb_spec z 0); simpl; nia. Qed.

Lemma aligned_mantissa (m : positive) (e ez z : Z) :
  ez ≤ e → e ≤ 0 → Z.pos m = Z.abs z * 2 ^ (- e) →
  Z.pos (shl_align m e ez).1 = Z.abs z * 2 ^ (- ez).
Proof.
  intros Hez He Hm. rewrite shl_align_spec by done. simpl.
  assert (0 < 2 ^ (e - ez)) by (apply Z.pow_pos_nonneg; lia).
  rewrite Z2Pos.id by lia.
  rewrite Hm, <- Z.mul_assoc, <- Z.pow_add_r by lia. do 2 f_equal. lia.
Qed.

Lemma SFadd_integers (a b : Z) :
  Z.abs a < 2 ^ 53 → Z.abs b < 2 ^ 53 → Z.abs (a + b) < 2 ^ 53 →
  SFadd prec emax (SF_of_Z a) (SF_of_Z b) = SF_of_Z (a + b).
Proof.
  intros Ha Hb Hab.
  destruct (decide (a = 0)) as [->|Ha0]; [by destruct b|].
  destruct (decide (b = 0)) as [->|Hb0]; [rewrite Z.add_0_r; by destruct a|].
  destruct (SF_of_Z_finite a Ha0 Ha) as (ma & ea & -> & _ & Hea & Hma).
  destruct (SF_of_Z_finite b Hb0 Hb) as (mb & eb & -> & _ & Heb & Hmb).
  unfold SFadd. apply binary_normalize_integer; [lia| |done].
  rewrite (aligned_mantissa ma ea (Z.min ea eb) a), (aligned_mantissa mb eb (Z.min ea eb) b)
    by (done || lia).
  rewrite !cond_Zopp_sign. lia.
Qed.

Lemma SFsub_integers (a b : Z) :
  Z.abs a < 2 ^ 53 → Z.abs b < 2 ^ 53 → Z.abs (a - b) < 2 ^ 53 →
  SFsub prec emax (SF_of_Z a) (SF_of_Z b) = SF_of_Z (a - b).
Proof.
  intros Ha Hb Hab.
  destruct (decide (b = 0)) as [->|Hb0]; [rewrite Z.sub_0_r; by destruct a|].
  destruct (decide (a = 0)) as [->|Ha0]; [by destruct b|].
  destruct (SF_of_Z_finite a Ha0 Ha) as (ma & ea & -> & _ & Hea & Hma).
  destruct (SF_of_Z_finite b Hb0 Hb) as (mb & eb & -> & _ & Heb & Hmb).
  unfold SFsub. apply binary_normalize_integer; [lia| |done].
  rewrite (aligned_mantissa ma ea (Z.min ea eb) a), (aligned_mantissa mb eb (Z.min ea eb) b)
    by (done || lia).
  rewrite !cond_Zopp_sign. lia.
Qed.

Lemma of_uint63_integer (z : Z) :
  0 ≤ z < 2 ^ 53 → Prim2SF (PrimFloat.of_uint63 (Uint63.of_Z z)) = SF_of_Z z.
Proof.
  intros Hz. rewrite of_uint63_spec, Uint63.of_Z_spec.
  rewrite Z.mod_small.
  2:{ change wB with (2 ^ 63). lia. }
  apply binary_normalize_integer; [done|simpl; lia|lia].
Qed.

Lemma Number_of_Z_spec (z : Z) :
  Z.abs z < 2 ^ 53 → Prim2SF (Number_of_Z z) = SF_of_Z z.
Proof.
  intros Hz. destruct z as [|p|p]; unfold Number_of_Z.
  - by apply (of_uint63_integer 0).
  - apply of_uint63_integer. lia.
  - rewrite FloatAxioms.opp_spec, of_uint63_integer by lia. done.
Qed.

Lemma Number_add (a b : Z) :
  Z.abs a < 2 ^ 53 → Z.abs b < 2 ^ 53 → Z.abs (a + b) < 2 ^ 53 →
  PrimFloat.add (Number_of_Z a) (Number_of_Z b) = Number_of_Z (a + b).
Proof.
  intros Ha Hb Hab. apply Prim2SF_inj.
  rewrite FloatAxioms.add_spec, !Number_of_Z_spec by done. by apply SFadd_integers.
Qed.

Lemma Number_sub (a b : Z) :
  Z.abs a < 2 ^ 53 → Z.abs b < 2 ^ 53 → Z.abs (a - b) < 2 ^ 53 →
  PrimFloat.sub (Number_of_Z a) (Number_of_Z b) = Number_of_Z (a - b).
Proof.
  intros Ha Hb Hab. apply Prim2SF_inj.
  rewrite FloatAxioms.sub_spec, !Number_of_Z_spec by done. by apply SFsub_integers.
Qed.

Lemma magnitude_integer (m : positive) (e z : Z) :
  e ≤ 0 → Z.pos m = Z.abs z * 2 ^ (- e) → (magnitude m e == inject_Z (Z.abs z))%Q.
Proof.
  intros He Hm. unfold magnitude.
  rewrite Hm, inject_Z_mult, pow2_inject by lia.
  rewrite <- Qmult_assoc, <- pow2_add. replace (- e + e) with 0 by lia.
  unfold pow2. simpl. ring.
Qed.

(** Division of a finite float by a positive integer below [2^53]. *)
Lemma div_Number (x : float) (s : bool) (m : positive) (e K : Z) :
  Prim2SF x = S754_finite s m e →
  -900 ≤ Z.pos (digits2_pos m) + e ≤ 900 →
  0 < K < 2 ^ 53 →
  ∃ m' e',
    Prim2SF (PrimFloat.div x (Number_of_Z K)) = S754_finite s m' e'
    ∧ Z.pos (digits2_pos m) + e - 53 ≤ Z.pos (digits2_pos m') + e'
      ≤ Z.pos (digits2_pos m) + e + 1
    ∧ (Qabs (magnitude m' e' - magnitude m e / inject_Z K)
       <= magnitude m e / inject_Z K * (1 # 9007199254740992))%Q.
Proof.
  intros Hx Hmag HK.
  destruct (SF_of_Z_finite K ltac:(lia) ltac:(lia)) as (mk & ek & HKf & Hdk & Hek & Hmk).
  replace (K <? 0) with false in HKf by (symmetry; apply Z.ltb_ge; lia).
  destruct (SFdiv_finite s false m mk e ek) as (m' & e' & Heq & _ & Hmag' & Herr).
  { rewrite Hdk. lia. }
  exists m', e'. rewrite FloatAxioms.div_spec, Hx, Number_of_Z_spec, HKf by lia.
  unfold SF64div. rewrite Heq, xorb_false_r. split; [done|].
  split; [rewrite Hdk in Hmag'; lia|].
  rewrite (magnitude_integer mk ek K) in Herr by (done || lia).
  by rewrite Z.abs_eq in Herr by lia.
Qed.

(** [toFixed(1)] *)
Lemma fixed_digits_one (n : Z) : 0 ≤ n → fixed_digits 1 n = oneDecimal n.
Proof.
  intros Hn. unfold fixed_digits, oneDecimal.
  change (10 ^ Z.of_nat 1) with 10.
  assert (0 ≤ n mod 10 < 10) as Hd by (apply Z.mod_pos_bound; lia).
  assert (String.length (pretty (n mod 10)) = 1%nat) as ->.
  { assert (n mod 10 = 0 ∨ n mod 10 = 1 ∨ n mod 10 = 2 ∨ n mod 10 = 3 ∨ n mod 10 = 4
            ∨ n mod 10 = 5 ∨ n mod 10 = 6 ∨ n mod 10 = 7 ∨ n mod 10 = 8 ∨ n mod 10 = 9)
      as Hcases by lia.
    destruct Hcases as [->|[->|[->|[->|[->|[->|[->|[->|[->| ->]]]]]]]]]; reflexivity. }
  reflexivity.
Qed.

(** [nearest_scaled 1] is the number of tenths nearest to the magnitude. *)
Lemma nearest_scaled_one (m : positive) (e : Z) :
  0 ≤ nearest_scaled 1 m e
  ∧ (Qabs (inject_Z (nearest_scaled 1 m e) * (1 # 10) - magnitude m e) <= 1 # 20)%Q.
Proof.
  unfold nearest_scaled, magnitude. change (10 ^ Z.of_nat 1) with 10.
  destruct (Z.leb_spec 0 e) as [He|He].
  - assert (0 < 2 ^ e) by (apply Z.pow_pos_nonneg; lia).
    split; [lia|].
    rewrite !inject_Z_mult, pow2_inject by done.
    assert (inject_Z (Z.pos m) * inject_Z 10 * pow2 e * (1 # 10)
              - inject_Z (Z.pos m) * pow2 e == 0)%Q as -> by (change (inject_Z 10) with 10%Q; ring).
    done.
  - set (h := 2 ^ (- e)).
    assert (0 < h) as Hh by (apply Z.pow_pos_nonneg; lia).
    replace (2 ^ (1 - e)) with (2 * h).
    2:{ unfold h. replace (1 - e) with (1 + - e) by lia. by rewrite Z.pow_add_r by lia. }
    set (n := (2 * (Z.pos m * 10) + h) / (2 * h)).
    assert (2 * h * n ≤ 2 * (Z.pos m * 10) + h < 2 * h * n + 2 * h) as [Hl Hu].
    { pose proof (Z.div_mod (2 * (Z.pos m * 10) + h) (2 * h) ltac:(lia)) as Hdm.
      pose proof (Z.mod_pos_bound (2 * (Z.pos m * 10) + h) (2 * h) ltac:(lia)).
      fold n in Hdm. lia. }
    split; [apply Z.div_pos; lia|].
    set (H := inject_Z h).
    assert (0 < H)%Q as HH by (unfold H, Qlt; simpl; lia).
    assert (pow2 e == / H)%Q as Hp.
    { unfold H, h. rewrite pow2_inject by lia. unfold pow2. by rewrite Qpower_opp, Qinv_involutive. }
    rewrite Hp.
    set (iN := inject_Z n). set (iM := inject_Z (Z.pos m)).
    assert (2 * H * iN <= 20 * iM + H)%Q as Hl'.
    { unfold H, iN, iM. change 2%Q with (inject_Z 2). change 20%Q with (inject_Z 20).
      rewrite <- !inject_Z_mult, <- inject_Z_plus, <- Zle_Qle. lia. }
    assert (20 * iM + H <= 2 * H * iN + 2 * H)%Q as Hu'.
    { unfold H, iN, iM. change 2%Q with (inject_Z 2). change 20%Q with (inject_Z 20).
      rewrite <- !inject_Z_mult, <- !inject_Z_plus, <- Zle_Qle. lia. }
    set (c := (/ (20 * H))%Q).
    assert (0 < c)%Q as Hc by (apply Qinv_lt_0_compat; lra).
    assert (iN * (1 # 10) - iM * / H == (2 * H * iN - 20 * iM) * c)%Q as Hv
      by (unfold c; field; lra).
    assert ((1 # 20) == H * c)%Q as Hx by (unfold c; field; lra).
    rewrite Hv, Hx. apply Qabs_Qle_condition. split.
    + assert (- (H * c) == (- H) * c)%Q as -> by ring.
      apply Qmult_le_compat_r; lra.
    + apply Qmult_le_compat_r; lra.
Qed.

(** *** The computation of the average *)

(** The sum of the solve times is computed without rounding. *)
Lemma totalSolveTime_exact (resolved : list Ticket.t) : ∀ acc : Z,
  Forall (λ t, Z.abs (Ticket.createdAt t) ≤ 8640000000000000
               ∧ Z.abs (Ticket.updatedAt t) ≤ 8640000000000000) resolved →
  Z.abs acc + foldr (λ t total, Z.abs (solveTime t) + total) 0 resolved < 2 ^ 53 →
  foldl addSolveTime (Number_of_Z acc) resolved
  = Number_of_Z (acc + totalSolveTime resolved).
Proof.
  induction resolved as [|t l IH]; intros acc Hvalid Hsum; simpl.
  - by rewrite Z.add_0_r.
  - apply Forall_cons in Hvalid as [[Hc Hu] Hvalid]. simpl in Hsum.
    assert (0 ≤ foldr (λ t total, Z.abs (solveTime t) + total) 0 l) as Hnn.
    { clear. induction l as [|t l IH]; simpl; lia. }
    set (rest := foldr (λ t total, Z.abs (solveTime t) + total) 0 l) in *.
    unfold addSolveTime at 2, getTime. unfold solveTime in Hsum.
    rewrite Number_sub, Number_add by lia.
    rewrite IH; [|done|fold rest; lia].
    f_equal. unfold solveTime. lia.
Qed.

(** From the two divisions and the rounding to tenths to the distance from
    the exact quotient. *)
Lemma tenths_near (u a a' b n : Q) :
  (0 <= u ->
   Qabs (a - u) <= u * (1 # 9007199254740992) ->
   a' * 86400000 == a ->
   Qabs (b - a') <= a' * (1 # 9007199254740992) ->
   Qabs (n * (1 # 10) - b) <= 1 # 20 ->
   Qabs (n * (1 # 10) - u * (1 # 86400000))
   <= (1 # 20) + u * (1 # 86400000) * (1 # 2251799813685248))%Q.
Proof.
  intros Hu Ha Ha' Hb Hn.
  apply Qabs_Qle_condition in Ha, Hb, Hn. apply Qabs_Qle_condition. lra.
Qed.

(** The text of an average: [total / count] milliseconds, converted to days
    and printed by [toFixed(1)], is a sign and a number of tenths that lies
    within 0.05 of the exact quotient, up to the relative [2^-51] that the
    two rounded divisions may add. *)
Lemma average_text (total count : Z) :
  Z.abs total < 2 ^ 53 → 0 < count < 2 ^ 32 →
  ∃ tenths : Z,
    0 ≤ tenths
    ∧ toFixed 1 (PrimFloat.div (PrimFloat.div (Number_of_Z total) (Number_of_Z count))
                   (Number_of_Z 86400000))
      = (if decide (total < 0) then "-" else "") +:+ oneDecimal tenths
    ∧ (Qabs (inject_Z tenths / 10
             - Qabs (inject_Z total / (inject_Z count * 86400000)))
       <= (1 # 20)
          + Qabs (inject_Z total / (inject_Z count * 86400000)) * (1 # 2 ^ 51))%Q.
Proof.
  intros Htotal Hcount.
  destruct (decide (total = 0)) as [->|Hnz].
  - exists 0. split; [done|]. split; [|done].
    destruct (SF_of_Z_finite count ltac:(lia) ltac:(lia)) as (mc & ec & Hc & _).
    destruct (SF_of_Z_finite 86400000 ltac:(lia) ltac:(lia)) as (md & ed & Hd & _).
    unfold toFixed.
    rewrite FloatAxioms.div_spec, FloatAxioms.div_spec, !Number_of_Z_spec, Hc, Hd by lia.
    reflexivity.
  - destruct (SF_of_Z_finite total Hnz Htotal) as (m0 & e0 & H0 & Hd0 & He0 & Hm0).
    destruct (div_Number (Number_of_Z total) (total <? 0) m0 e0 count)
      as (m1 & e1 & H1 & Hmag1 & Herr1).
    { by rewrite Number_of_Z_spec. }
    { lia. }
    { lia. }
    destruct (div_Number (PrimFloat.div (Number_of_Z total) (Number_of_Z count))
                (total <? 0) m1 e1 86400000) as (m2 & e2 & H2 & Hmag2 & Herr2).
    { done. }
    { lia. }
    { lia. }
    destruct (nearest_scaled_one m2 e2) as [Hn Herr3].
    exists (nearest_scaled 1 m2 e2). split; [done|]. split.
    { unfold toFixed. rewrite H2, fixed_digits_one by done.
      destruct (Z.ltb_spec total 0); [by rewrite decide_True|by rewrite decide_False by lia]. }
    rewrite (magnitude_integer m0 e0 total) in Herr1 by (done || lia).
    assert (0 < inject_Z count)%Q as Hc by (unfold Qlt; simpl; lia).
    assert (0 <= inject_Z (Z.abs total) / inject_Z count)%Q as Hu.
    { apply Qle_shift_div_l; [done|]. rewrite Qmult_0_l. unfold Qle. simpl. lia. }
    assert (Qabs (inject_Z total / (inject_Z count * 86400000))
            == inject_Z (Z.abs total) / inject_Z count * (1 # 86400000))%Q as Hmean.
    { unfold Qdiv. rewrite Qabs_Qmult. change (Qabs (inject_Z total)) with (inject_Z (Z.abs total)).
      rewrite Qabs_pos.
      - field. lra.
      - apply Qlt_le_weak, Qinv_lt_0_compat. lra. }
    rewrite Hmean.
    apply (tenths_near _ (magnitude m1 e1) (magnitude m1 e1 / inject_Z 86400000)
             (magnitude m2 e2)); try done.
    field.
Qed.

Local Close Scope Z_scope.

(** The magnitude of the total is at most the total of the magnitudes. *)
Lemma totalSolveTime_abs (resolved : list Ticket.t) :
  (Z.abs (totalSolveTime resolved)
   ≤ foldr (λ t total, Z.abs (solveTime t) + total) 0 resolved)%Z.
Proof. induction resolved as [|t l IH]; simpl; lia. Qed.

(** C6. For every ticket list, [calculateKPIs] stores: as [activeTickets]
    the number of tickets whose status is In Progress or Escalated; as
    [closedTickets] the number whose status is Completed or Closed; as
    [avgTimeToSolve] the sentinel N/A when that number is zero, and
    otherwise the mean of [updatedAt - createdAt] over those tickets,
    converted to days and printed with one decimal place ([toFixed(1)])
    before the word days. The printed text is a sign (that of the total), an
    integer part, a point and one digit; on inputs whose sum is computed
    without rounding ([exactTimes]) the number of tenths it shows is within
    0.05 of the exact mean in days, up to the relative [2^-51] that the two
    binary64 divisions may add. On the empty list it stores 0, 0 and N/A. *)
Theorem calculateKPIs_spec (filteredTickets : list Ticket.t) (s : State) :
  let k := kpis (calculateKPIs filteredTickets s) in
  let resolved := filter isClosedOrCompleted filteredTickets in
  activeTickets k
    = countWhere (λ t, Ticket.status t ∈ [IN_PROGRESS; ESCALATED]) filteredTickets
  ∧ closedTickets k
    = countWhere (λ t, Ticket.status t ∈ [COMPLETED; CLOSED]) filteredTickets
  ∧ closedTickets k = length resolved
  ∧ avgTimeToSolve k
    = (if decide (closedTickets k = 0) then "N/A"%string
       else toFixed 1 (meanResolutionDays resolved) +:+ " days")
  ∧ (resolved ≠ [] → exactTimes resolved →
     ∃ tenths : Z,
       (0 ≤ tenths)%Z
       ∧ avgTimeToSolve k
         = (if decide (totalSolveTime resolved < 0)%Z then "-" else "")
           +:+ oneDecimal tenths +:+ " days"
       ∧ (Qabs (inject_Z tenths / 10 - Qabs (meanDays resolved))
          <= (1 # 20) + Qabs (meanDays resolved) * (1 # 2 ^ 51))%Q)
  ∧ kpis (calculateKPIs [] s)
    = {| activeTickets := 0; closedTickets := 0; avgTimeToSolve := "N/A" |}.
Proof.
  intros k resolved. split_and!.
  - apply length_filter_countWhere. intros t. unfold isActive.
    rewrite !elem_of_cons, elem_of_nil. tauto.
  - apply length_filter_countWhere. intros t. unfold isClosedOrCompleted.
    rewrite !elem_of_cons, elem_of_nil. tauto.
  - done.
  - unfold k, resolved. simpl.
    destruct (filter isClosedOrCompleted filteredTickets) as [|t l] eqn:Hres; [done|].
    rewrite decide_True by (simpl; lia). rewrite decide_False by done.
    unfold meanResolutionDays. by rewrite msPerDay_value, totalSolveTime_fold.
  - intros Hne (Hvalid & Hsum & Hlen).
    destruct (average_text (totalSolveTime resolved) (Z.of_nat (length resolved)))
      as (tenths & Htenths & Htext & Hnear).
    { pose proof (totalSolveTime_abs resolved). lia. }
    { destruct resolved; [done|]. simpl length in *. lia. }
    exists tenths. split; [done|]. split; [|exact Hnear].
    unfold k, calculateKPIs, kpis, computeKPIs, avgTimeToSolve. fold resolved.
    rewrite decide_True by (destruct resolved; [done|simpl; lia]).
    rewrite msPerDay_value, (totalSolveTime_exact resolved 0 Hvalid) by (simpl; lia).
    rewrite Z.add_0_l, Htext.
    by destruct (decide (totalSolveTime resolved < 0)%Z).
  - done.
Qed.

(** Two resolved tickets of 3.25 and 3.15 days among open ones, in the
    range where the sum is exact: the text shows 32 tenths, within 0.05 of
    the mean of 3.2 days. *)
Lemma calculateKPIs_spec_witness :
  let filteredTickets :=
    [ ticketAt COMPLETED 1729000000000 1729280800000;
      ticketAt IN_PROGRESS 1729000000000 1729000000000;
      ticketAt CLOSED 1729100000000 1729372160000;
      ticketAt ESCALATED 1729000000000 1729500000000 ] in
  let resolved := filter isClosedOrCompleted filteredTickets in
  resolved ≠ [] ∧ exactTimes resolved
  ∧ ∃ tenths : Z,
      (0 ≤ tenths)%Z
      ∧ avgTimeToSolve (kpis (calculateKPIs filteredTickets aliceSession))
        = (if decide (totalSolveTime resolved < 0)%Z then "-" else "")
          +:+ oneDecimal tenths +:+ " days"
      ∧ (Qabs (inject_Z tenths / 10 - Qabs (meanDays resolved))
         <= (1 # 20) + Qabs (meanDays resolved) * (1 # 2 ^ 51))%Q.
Proof.
  intros filteredTickets resolved.
  assert (resolved ≠ []) as Hne by done.
  assert (exactTimes resolved) as Hexact.
  { split; [|split; [vm_compute; reflexivity|vm_compute; reflexivity]].
    repeat constructor; vm_compute; congruence. }
  split; [exact Hne|]. split; [exact Hexact|].
  destruct (calculateKPIs_spec filteredTickets aliceSession) as (_ & _ & _ & _ & H & _).
  exact (H Hne Hexact).
Defined.

(** Two resolved tickets, of 3.25 and 3.15 days, among open ones: the mean
    of 3.2 days is printed as such. *)
Example calculateKPIs_three_days :
  computeKPIs [ ticketAt COMPLETED 1729000000000 1729280800000;
                ticketAt IN_PROGRESS 1729000000000 1729000000000;
                ticketAt CLOSED 1729100000000 1729372160000;
                ticketAt ESCALATED 1729000000000 1729500000000 ]
  = {| activeTickets := 2; closedTickets := 2; avgTimeToSolve := "3.2 days" |}.
Proof. vm_compute. reflexivity. Qed.

(** ** Reporting lines: the function *)

Lemma while_loop_more_fuel allUsers fuel k : ∀ tr tr',
  while_loop fuel allUsers tr = Some tr' →
  while_loop (fuel + k) allUsers tr = Some tr'.
Proof.
  induction fuel as [|fuel IH]; intros tr tr'; [done|]. simpl.
  case_decide; [apply IH|done].
Qed.

(** C7, as the code has it. [getSubordinateIds] returns exactly the ids of
    the users who report to [managerId] directly or through other users
    (whatever their role), each id once, without [managerId] itself. When no
    user names [managerId] as manager the result is empty; the function has
    no error result. *)
Theorem getSubordinateIds_spec (managerId : string) (allUsers : list User.t) :
  NoDup (getSubordinateIds managerId allUsers)
  ∧ (∀ x, x ∈ getSubordinateIds managerId allUsers ↔
          reports allUsers managerId x ∧ x ≠ managerId)
  ∧ (Forall (λ u, User.managerId u ≠ Some managerId) allUsers →
     getSubordinateIds managerId allUsers = []).
Proof.
  unfold getSubordinateIds.
  destruct (getSubordinateIds_run allUsers managerId 0) as (tr & Hrun & Hinv & Hexit).
  rewrite Nat.add_0_r in Hrun. rewrite Hrun.
  pose proof (inv_wf _ _ _ Hinv) as Hwf.
  pose proof (wf_nodup _ _ _ Hwf) as Hnd.
  rewrite (wf_queue _ _ _ Hwf) in Hnd. apply NoDup_cons in Hnd as [Hm Hnd].
  assert (∀ x, x ∈ subordinates tr ↔ reports allUsers managerId x ∧ x ≠ managerId)
    as Hiff.
  { intros x. split.
    - intros Hx. split; [by apply (wf_sound _ _ _ Hwf)|]. by intros ->.
    - intros [Hr Hne].
      pose proof (exit_complete allUsers managerId tr x Hinv Hexit Hr) as Hq.
      rewrite (wf_queue _ _ _ Hwf) in Hq.
      by apply elem_of_cons in Hq as [?|?]. }
  split_and!; [done|done|].
  intros Hnone. destruct (subordinates tr) as [|x l] eqn:Hs; [done|]. exfalso.
  assert (reports allUsers managerId x) as Hr by (apply Hiff; by left).
  clear -Hr Hnone. rewrite Forall_forall in Hnone.
  induction Hr as [u Hu Hmgr|u y _ IH _ _]; [by eapply Hnone|done].
Qed.

(** A representative without reports: the witness of C7. *)
Lemma getSubordinateIds_spec_witness :
  Forall (λ u, User.managerId u ≠ Some "user-1"%string) mockUsers
  ∧ getSubordinateIds "user-1" mockUsers = [].
Proof.
  assert (Forall (λ u, User.managerId u ≠ Some "user-1"%string) mockUsers) as Hnone
    by (by repeat constructor).
  split; [done|].
  by apply (getSubordinateIds_spec "user-1" mockUsers).
Defined.

(** C7 as stated fails for an unknown manager id that users still
    reference: no user of the list has the id user-bdm-1 (the manager was
    deleted), and the result is not empty. *)
Lemma getSubordinateIds_unknown_manager_counterexample :
  Forall (λ u, User.id u ≠ "user-bdm-1"%string) orphanedTeam
  ∧ getSubordinateIds "user-bdm-1" orphanedTeam = ["user-1"%string].
Proof. split; [by repeat constructor|reflexivity]. Qed.

(** The hierarchy example of the specification, and the mock data. *)
Example getSubordinateIds_example :
  getSubordinateIds "M" exampleTeam = ["A"; "B"; "C"]%string
  ∧ getSubordinateIds "C" exampleTeam = []
  ∧ getSubordinateIds "user-asm-1" mockUsers = ["user-bdm-1"; "user-1"; "user-3"]%string.
Proof. split_and!; reflexivity. Qed.

(** C8. The loop of [getSubordinateIds] exits on every input, cyclic
    reporting lines included: within [2 + length allUsers] evaluations of
    its condition (and so with any larger bound) it reaches the state whose
    [subordinates] the function returns. In that state no id occurs twice in
    the queue, every queued id has been taken from the queue once, and the
    queue holds at most one entry per user besides the manager. *)
Theorem getSubordinateIds_terminates (managerId : string) (allUsers : list User.t) :
  ∃ tr,
    (∀ k, while_loop (traversal_fuel allUsers + k) allUsers (traversal_start managerId)
          = Some tr)
    ∧ getSubordinateIds managerId allUsers = subordinates tr
    ∧ NoDup (queue tr)
    ∧ head tr = length (queue tr)
    ∧ length (queue tr) ≤ S (length allUsers).
Proof.
  destruct (getSubordinateIds_run allUsers managerId 0) as (tr & Hrun & Hinv & Hexit).
  rewrite Nat.add_0_r in Hrun.
  exists tr. split_and!.
  - intros k. by apply while_loop_more_fuel.
  - unfold getSubordinateIds. by rewrite Hrun.
  - apply (wf_nodup _ _ _ (inv_wf _ _ _ Hinv)).
  - done.
  - apply wf_queue_length with managerId, Hinv.
Qed.

(** Reporting lines that form a cycle through the manager. *)
Example getSubordinateIds_cycle :
  getSubordinateIds "M" cyclicTeam = ["A"; "C"]%string.
Proof. reflexivity. Qed.

(** ** Timestamps *)

Lemma later_refl c : later c c.
Proof. by split. Qed.

Lemma later_monotone c c' : later c c' → monotone c → monotone c'.
Proof. intros [Hr _] Hm i j Hij. rewrite Hr. by apply Hm. Qed.

Lemma later_notAhead c c' t : later c c' → monotone c → notAhead c t → notAhead c' t.
Proof.
  intros [Hr Hk] Hm Ht. unfold notAhead in *. rewrite Hr.
  etrans; [exact Ht|]. by apply Hm.
Qed.

Lemma addTicket_body_clock ticketData preId team s c :
  later c (addTicket_body ticketData preId team s c).2
  ∧ 3 + reads c ≤ reads (addTicket_body ticketData preId team s c).2.
Proof.
  unfold addTicket_body, later. simpl.
  destruct (decide (initialStatus ticketData s = ESCALATED));
    destruct (automatedMessageFor _ s); simpl;
    try destruct (decide (initialStatus ticketData s = CLOSED)); simpl;
    split_and!; (done || lia).
Qed.

Lemma updateTicket_clock ticketData s c :
  later c (updateTicket ticketData s c).2.
Proof.
  unfold updateTicket, later.
  destruct (sessionUser s) as [user|]; simpl; [|done].
  destruct (truthy (User.id user)); simpl; [|done].
  destruct (list_find _ (mockTickets s)) as [[i t]|]; simpl; [|split; [done|lia]].
  destruct (manualEscalation ticketData (Ticket.status t)); simpl;
    destruct (resolution _ (Ticket.status t)); simpl; split; (done || lia).
Qed.

Lemma exec_later w cmd : later w.2 (exec w cmd).2.
Proof.
  destruct cmd; simpl; try apply later_refl.
  - destruct (addTicket ticketData w.1 w.2) as [e|w'] eqn:Hadd; [apply later_refl|].
    apply addTicket_inr in Hadd as (user & team & _ & _ & _ & _ & ->).
    apply addTicket_body_clock.
  - apply updateTicket_clock.
Qed.

Lemma timestampsOk_later s c c' :
  later c c' → monotone c → timestampsOk (s, c) → timestampsOk (s, c').
Proof.
  intros Hl Hm [H1 H2]. split; simpl in *.
  - eapply Forall_impl; [exact H1|]. intros t [? ?]. split; [done|].
    by eapply later_notAhead.
  - eapply Forall_impl; [exact H2|]. intros t [? ?]. split; [done|].
    by eapply later_notAhead.
Qed.

(** The timestamps of a created ticket are the second and the third reading
    of the call. *)
Lemma addTicket_timestamps ticketData s c w :
  addTicket ticketData s c = inr w →
  ∃ t, mockTickets w.1 = t :: mockTickets s
    ∧ tickets w.1 = t :: mockTickets s
    ∧ Ticket.createdAt t = readings c (1 + reads c)
    ∧ Ticket.updatedAt t = readings c (2 + reads c).
Proof.
  intros (user & team & _ & _ & _ & _ & ->)%addTicket_inr.
  destruct (addTicket_body_tickets ticketData (User.id user) team s c) as [Hm Ht].
  eexists. split; [exact Hm|]. split; [exact Ht|]. done.
Qed.

(** One admissible command keeps the timestamps in order. *)
Lemma exec_timestampsOk w cmd :
  monotone w.2 → timestampsOk w → admissible w.2 cmd → timestampsOk (exec w cmd).
Proof.
  destruct w as [s c]. intros Hmono Hok Hadm.
  pose proof (exec_later (s, c) cmd) as Hlater.
  destruct cmd as [ticketData|ticketData|nid|nid|fts|]; simpl in *.
  - destruct (addTicket ticketData s c) as [e|w'] eqn:Hadd; [done|].
    destruct (addTicket_timestamps _ _ _ _ Hadd) as (t & Hm & Ht & Hc & Hu).
    apply addTicket_inr in Hadd as (user & team & _ & _ & _ & _ & Hw).
    destruct (addTicket_body_clock ticketData (User.id user) team s c) as [_ Hreads].
    rewrite <- Hw in Hreads.
    pose proof (timestampsOk_later s c w'.2 Hlater Hmono Hok) as [Hold _].
    assert (timesOrdered t ∧ notAhead w'.2 t) as Hnew.
    { unfold timesOrdered, notAhead. rewrite Hc, Hu.
      destruct Hlater as [-> _]. split; apply Hmono; lia. }
    split; [rewrite Hm|rewrite Ht]; by constructor.
  - unfold updateTicket in *.
    destruct (sessionUser s) as [user|]; simpl in *; [|done].
    destruct (truthy (User.id user)); simpl in *; [|done].
    destruct (list_find _ (mockTickets s)) as [[i t]|] eqn:Hfind; simpl in *.
    + assert (∀ c', later c c' →
                Forall (λ t0, timesOrdered t0 ∧ notAhead c' t0)
                  (<[i:=applyPatch t ticketData (readings c (reads c))]> (mockTickets s)))
        as Hins.
      { intros c' Hl.
        pose proof (timestampsOk_later s c c' Hl Hmono Hok) as [Hold _].
        apply Forall_insert; [exact Hold|].
        apply list_find_Some in Hfind as (Hi & _).
        destruct Hok as [Hok _]. simpl in Hok. rewrite Forall_lookup in Hok.
        destruct (Hok i t Hi) as [Hord Hna].
        assert ((Ticket.createdAt (applyPatch t ticketData (readings c (reads c)))
                 ≤ readings c (reads c))%Z) as Hle.
        { simpl. by destruct (TicketPatch.createdAt ticketData). }
        split; [exact Hle|].
        unfold notAhead. etrans; [exact Hle|].
        destruct Hl as [-> Hk]. by apply Hmono. }
      destruct (manualEscalation ticketData (Ticket.status t)); simpl in *;
        destruct (resolution _ (Ticket.status t)); simpl in *;
        split; simpl; by apply Hins.
    + pose proof (timestampsOk_later s c _ Hlater Hmono Hok) as [Hold _].
      by split.
  - done.
  - done.
  - done.
  - destruct Hok as [Hok _]. by split.
Qed.

Lemma execAll_timestampsOk cmds : ∀ w,
  monotone w.2 → timestampsOk w → admissibleAll w cmds →
  timestampsOk (foldl exec w cmds).
Proof.
  induction cmds as [|cmd cmds IH]; intros w Hmono Hok Hadm; [done|].
  destruct Hadm as [Hadm Hrest]. simpl. apply IH; [|by apply exec_timestampsOk|done].
  eapply later_monotone; [apply exec_later|done].
Qed.

(** C10, as the code has it. Under a clock that never runs backwards:
    along every sequence of store operations whose update patches carry no
    [createdAt] later than their update instant, every ticket of the array
    and of the store keeps [createdAt ≤ updatedAt]; a created ticket takes
    [createdAt] and [updatedAt] from two successive readings of the clock
    (the same instant when the clock did not advance between them); and an
    update sets [updatedAt] of the ticket to the update instant. *)
Theorem timestamps_ordered (w : State * Clock) :
  monotone w.2 →
  (∀ cmds, timestampsOk w → admissibleAll w cmds →
     Forall timesOrdered (mockTickets (foldl exec w cmds).1)
     ∧ Forall timesOrdered (tickets (foldl exec w cmds).1))
  ∧ (∀ ticketData w', addTicket ticketData w.1 w.2 = inr w' →
       ∃ t, mockTickets w'.1 = t :: mockTickets w.1
         ∧ Ticket.createdAt t = readings w.2 (1 + reads w.2)
         ∧ Ticket.updatedAt t = readings w.2 (2 + reads w.2)
         ∧ timesOrdered t
         ∧ (readings w.2 (1 + reads w.2) = readings w.2 (2 + reads w.2) →
            Ticket.createdAt t = Ticket.updatedAt t))
  ∧ (∀ ticketData adminUser ticketIndex originalTicket,
       sessionUser w.1 = Some adminUser →
       User.id adminUser ≠ EmptyString →
       list_find (λ t, Ticket.id t = TicketPatch.id ticketData) (mockTickets w.1)
         = Some (ticketIndex, originalTicket) →
       ∃ t, mockTickets (updateTicket ticketData w.1 w.2).1 !! ticketIndex = Some t
         ∧ Ticket.updatedAt t = readings w.2 (reads w.2)).
Proof.
  intros Hmono. split_and!.
  - intros cmds Hok Hadm.
    destruct (execAll_timestampsOk cmds w Hmono Hok Hadm) as [H1 H2].
    split; (eapply Forall_impl; [eassumption|]); by intros t [? _].
  - intros ticketData w' Hadd.
    destruct (addTicket_timestamps _ _ _ _ Hadd) as (t & Hm & _ & Hc & Hu).
    exists t. split_and!; [done..| |congruence].
    unfold timesOrdered. rewrite Hc, Hu. apply Hmono. lia.
  - intros ticketData adminUser ticketIndex originalTicket Hu Hid Hfind.
    destruct (updateTicket_found ticketData w.1 w.2 adminUser ticketIndex originalTicket
                Hu Hid Hfind) as (Ht & _).
    eexists. split.
    + rewrite Ht. apply list_lookup_insert_eq.
      apply list_find_Some in Hfind as (Hi & _). by eapply lookup_lt_Some.
    + reflexivity.
Qed.

Lemma sampleClock_monotone : monotone sampleClock.
Proof. intros i j Hij. simpl. lia. Qed.

(** Bob completes the open ticket, then a ticket is filed: the witness of
    C10. *)
Lemma timestamps_ordered_witness :
  monotone sampleClock
  ∧ timestampsOk (bobSession, sampleClock)
  ∧ admissibleAll (bobSession, sampleClock)
      [ UpdateTicket (statusPatch "ticket-1" (Some COMPLETED) None);
        AddTicket (sampleDraft "UID500" "et-4" None) ]
  ∧ Forall timesOrdered
      (mockTickets
         (foldl exec (bobSession, sampleClock)
            [ UpdateTicket (statusPatch "ticket-1" (Some COMPLETED) None);
              AddTicket (sampleDraft "UID500" "et-4" None) ]).1).
Proof.
  assert (timestampsOk (bobSession, sampleClock)) as Hok.
  { split; simpl; repeat constructor; unfold timesOrdered, notAhead; simpl; lia. }
  assert (admissibleAll (bobSession, sampleClock)
            [ UpdateTicket (statusPatch "ticket-1" (Some COMPLETED) None);
              AddTicket (sampleDraft "UID500" "et-4" None) ]) as Hadm
    by (split; [exact I|split; exact I]).
  split_and!; [exact sampleClock_monotone|exact Hok|exact Hadm|].
  destruct (timestamps_ordered (bobSession, sampleClock) sampleClock_monotone)
    as (Hseq & _ & _).
  by destruct (Hseq _ Hok Hadm) as [Hm _].
Defined.

(** C10 as stated fails for an update whose patch carries a [createdAt]: the
    patch overwrites the creation time, [updatedAt] becomes the update
    instant, and the stored ticket ends with [updatedAt] earlier than
    [createdAt]. The clock here never runs backwards, and the ticket had
    ordered timestamps before. *)
Lemma updateTicket_createdAt_counterexample :
  let w := updateTicket (createdAtPatch "ticket-1" 1800000000000) bobSession sampleClock in
  monotone sampleClock
  ∧ Forall timesOrdered (mockTickets bobSession)
  ∧ (λ t, (Ticket.createdAt t, Ticket.updatedAt t)) <$> mockTickets w.1
    = [ (1800000000000, 1730000000000)%Z ]
  ∧ Exists (λ t, (Ticket.updatedAt t < Ticket.createdAt t)%Z) (tickets w.1).
Proof.
  split_and!.
  - exact sampleClock_monotone.
  - repeat constructor. unfold timesOrdered. simpl. lia.
  - reflexivity.
  - apply Exists_cons_hd. simpl. lia.
Qed.

(** Under a clock that advances with every reading the two timestamps of a
    created ticket differ. *)
Example addTicket_two_readings :
  (λ t, (Ticket.createdAt t, Ticket.updatedAt t))
    <$> mockTickets (created (sampleDraft "UID500" "et-4" None) (aliceSession, sampleClock)).1
  = [ (1730000000001, 1730000000002)%Z ].
Proof. reflexivity. Qed.

(** The resubmission scenario of the specification: the same uid and error
    type (one with an automated message) filed twice by the same
    representative is Closed the first time and Escalated the second, with
    an admin notification that mentions the resubmission. *)
Example addTicket_resubmission :
  let draft := sampleDraft "UID500" "et-4" None in
  let w1 := created draft (aliceSession, sampleClock) in
  let w2 := created draft w1 in
  Ticket.status <$> mockTickets w2.1 = [ESCALATED; CLOSED]
  ∧ AdminNotification.message <$> mockAdminNotifications w2.1
    = [ "Ticket for UID UID500 was re-submitted and has been escalated.";
        "New ticket from UID UID500 was created." ]%string
  ∧ length (mockNotifications w2.1) = 2
  ∧ length (mockLogs w2.1) = 2.
Proof. split_and!; reflexivity. Qed.

(** * Further properties of the ticket store *)

(** ** What one operation does to the arrays *)

Lemma addTicket_body_arrays ticketData preId team s c :
  let w := addTicket_body ticketData preId team s c in
  (∃ t, mockTickets w.1 = t :: mockTickets s
     ∧ Ticket.id t = "ticket-" +:+ string_of_Z (readings c (reads c)))
  ∧ (∃ ns, mockNotifications w.1 = ns ++ mockNotifications s)
  ∧ (∃ a, mockAdminNotifications w.1 = a :: mockAdminNotifications s)
  ∧ (∃ e, mockLogs w.1 = e :: mockLogs s)
  ∧ synced w.1.
Proof.
  simpl. unfold addTicket_body, synced. simpl.
  destruct (decide (initialStatus ticketData s = ESCALATED));
    destruct (automatedMessageFor _ s); simpl;
    try destruct (decide (initialStatus ticketData s = CLOSED)); simpl;
    split_and!; try done; try (by eexists); try (by eexists; split_and!);
    first [by exists [] | by eexists [_] | by eexists [_; _]].
Qed.

Lemma updateTicket_arrays ticketData s c :
  let w := updateTicket ticketData s c in
  w = (s, c)
  ∨ ((mockTickets w.1 = mockTickets s
      ∨ ∃ i t, list_find (λ t, Ticket.id t = TicketPatch.id ticketData) (mockTickets s)
               = Some (i, t)
          ∧ mockTickets w.1
            = <[i := applyPatch t ticketData (readings c (reads c))]> (mockTickets s))
     ∧ (∃ ns, mockNotifications w.1 = ns ++ mockNotifications s)
     ∧ (∃ ads, mockAdminNotifications w.1 = ads ++ mockAdminNotifications s)
     ∧ (∃ e, mockLogs w.1 = e :: mockLogs s)
     ∧ synced w.1).
Proof.
  simpl. unfold updateTicket, synced.
  destruct (sessionUser s) as [user|]; simpl; [|by left].
  destruct (truthy (User.id user)); simpl; [|by left]. right.
  destruct (list_find _ (mockTickets s)) as [[i t]|]; simpl.
  - destruct (manualEscalation ticketData (Ticket.status t)); simpl;
      destruct (resolution _ (Ticket.status t)); simpl;
      (split_and!; [right; by eexists _, _|..]); try done; try (by eexists);
      first [by exists [] | by eexists [_] | by eexists [_; _]].
  - split_and!; [by left|by exists []|by exists []|by eexists|done..].
Qed.

(** ** The audit log is append-only *)

Lemma exec_logs w cmd :
  ∃ new, mockLogs (exec w cmd).1 = new ++ mockLogs w.1 ∧ length new ≤ 1.
Proof.
  destruct cmd as [ticketData|ticketData|nid|nid|fts|]; simpl;
    try (exists []; split; [done|simpl; lia]).
  - destruct (addTicket ticketData w.1 w.2) as [e|w'] eqn:Hadd;
      [exists []; split; [done|simpl; lia]|].
    apply addTicket_inr in Hadd as (user & team & _ & _ & _ & _ & ->).
    destruct (addTicket_body_arrays ticketData (User.id user) team w.1 w.2)
      as (_ & _ & _ & [e He] & _).
    exists [e]. split; [exact He|done].
  - destruct (updateTicket_arrays ticketData w.1 w.2) as [->|(_ & _ & _ & [e He] & _)].
    + exists []. split; [done|simpl; lia].
    + exists [e]. split; [exact He|done].
Qed.

(** No operation of the ticket store changes or removes an audit entry:
    after any sequence of operations the earlier log is the tail of the
    log, under at most one new entry per operation. *)
Theorem audit_log_append_only (cmds : list Command) (w : State * Clock) :
  ∃ new,
    mockLogs (foldl exec w cmds).1 = new ++ mockLogs w.1
    ∧ length new ≤ length cmds.
Proof.
  revert w. induction cmds as [|cmd cmds IH]; intros w.
  - exists []. split; [done|simpl; lia].
  - simpl. destruct (IH (exec w cmd)) as (new2 & H2 & Hl2).
    destruct (exec_logs w cmd) as (new1 & H1 & Hl1).
    exists (new2 ++ new1). split.
    + by rewrite H2, H1, app_assoc.
    + rewrite length_app. lia.
Qed.

(** ** The stores show the arrays *)

Lemma exec_synced w cmd : synced w.1 → synced (exec w cmd).1.
Proof.
  intros Hs. destruct cmd as [ticketData|ticketData|nid|nid|fts|]; simpl.
  - destruct (addTicket ticketData w.1 w.2) as [e|w'] eqn:Hadd; [done|].
    apply addTicket_inr in Hadd as (user & team & _ & _ & _ & _ & ->).
    apply addTicket_body_arrays.
  - by destruct (updateTicket_arrays ticketData w.1 w.2) as [->|(_ & _ & _ & _ & ?)].
  - destruct Hs as (? & ? & ? & ?). by split_and!.
  - destruct Hs as (? & ? & ? & ?). by split_and!.
  - done.
  - destruct Hs as (? & ? & ? & ?). by split_and!.
Qed.

(** Once every store field shows its array (tickets, both notification
    collections, audit log), it does so after every sequence of
    operations. *)
Theorem stores_stay_synced (cmds : list Command) (w : State * Clock) :
  synced w.1 → synced (foldl exec w cmds).1.
Proof.
  revert w. induction cmds as [|cmd cmds IH]; intros w Hs; [done|].
  simpl. by apply IH, exec_synced.
Qed.

Lemma stores_stay_synced_witness :
  synced bobSession
  ∧ synced (foldl exec (bobSession, sampleClock)
              [ UpdateTicket (statusPatch "ticket-1" (Some ESCALATED) None);
                MarkAdminNotificationAsRead "admin-notif-1730000000001";
                AddTicket (sampleDraft "UID500" "et-4" None) ]).1.
Proof.
  assert (synced bobSession) as Hs by (by split_and!).
  split; [done|]. by apply stores_stay_synced.
Defined.

(** ** Notifications are kept, and stay read *)

Section kept.
Context {A : Type} (key : A → string) (mark1 : A → A).
Context (mark1_idem : ∀ n, mark1 (mark1 n) = mark1 n).

Abbreviation sameOrMarked := (sameOrMarked mark1).

Lemma sameOrMarked_refl l : Forall2 sameOrMarked l l.
Proof. apply Forall_Forall2_diag, Forall_forall. intros x _. by left. Qed.

Lemma sameOrMarked_trans l1 l2 l3 :
  Forall2 sameOrMarked l1 l2 → Forall2 sameOrMarked l2 l3 → Forall2 sameOrMarked l1 l3.
Proof.
  intros H12. revert l3. induction H12 as [|x y l1 l2 Hxy _ IH]; intros l3 H23.
  - by apply Forall2_nil_inv_l in H23 as ->.
  - apply Forall2_cons_inv_l in H23 as (z & l3' & Hyz & H23 & ->).
    constructor; [|by apply IH].
    destruct Hxy as [->| ->], Hyz as [->| ->]; [by left|by right|by right|].
    right. by rewrite mark1_idem.
Qed.

Lemma markRead_sameOrMarked notificationId l :
  Forall2 sameOrMarked l (markRead key mark1 notificationId l).
Proof.
  induction l as [|n l IH]; [constructor|].
  rewrite markRead_cons. case_decide.
  - constructor; [by right|apply sameOrMarked_refl].
  - constructor; [by left|done].
Qed.

(** A step that marks or prepends keeps what was there. *)
Lemma kept_step (old mid new : list A) added1 kept1 :
  mid = added1 ++ kept1 → Forall2 sameOrMarked old kept1 →
  (∃ added2, new = added2 ++ mid) ∨ Forall2 sameOrMarked mid new →
  ∃ added kept, new = added ++ kept ∧ Forall2 sameOrMarked old kept.
Proof.
  intros -> Hold [[added2 ->]|Hmark].
  - exists (added2 ++ added1), kept1. by rewrite app_assoc.
  - apply Forall2_app_inv_l in Hmark as (added & kept & _ & Hk & ->).
    exists added, kept. split; [done|]. by eapply sameOrMarked_trans.
Qed.

End kept.

Lemma exec_notifications w cmd :
  ((∃ added, mockNotifications (exec w cmd).1 = added ++ mockNotifications w.1)
   ∨ Forall2 sameOrReadSystem (mockNotifications w.1) (mockNotifications (exec w cmd).1))
  ∧ ((∃ added, mockAdminNotifications (exec w cmd).1 = added ++ mockAdminNotifications w.1)
     ∨ Forall2 sameOrReadAdmin (mockAdminNotifications w.1)
         (mockAdminNotifications (exec w cmd).1)).
Proof.
  destruct cmd as [ticketData|ticketData|nid|nid|fts|]; simpl;
    try (split; left; by exists []).
  - destruct (addTicket ticketData w.1 w.2) as [e|w'] eqn:Hadd;
      [split; left; by exists []|].
    apply addTicket_inr in Hadd as (user & team & _ & _ & _ & _ & ->).
    destruct (addTicket_body_arrays ticketData (User.id user) team w.1 w.2)
      as (_ & Hn & [a Ha] & _).
    split; left; [done|by exists [a]].
  - destruct (updateTicket_arrays ticketData w.1 w.2) as [->|(_ & Hn & Ha & _)].
    + split; left; by exists [].
    + split; by left.
  - split; [left; by exists []|right].
    rewrite markAdminRead_is_markRead.
    apply (markRead_sameOrMarked AdminNotification.id readAdmin).
  - split; [right|left; by exists []].
    rewrite markSystemRead_is_markRead.
    apply (markRead_sameOrMarked SystemNotification.id readSystem).
Qed.

(** No operation of the ticket store removes, reorders or rewrites a
    notification: after any sequence of operations the collection is the new
    notifications followed by the earlier ones, each of them as it was or
    marked as read. So a notification that was read stays read. *)
Theorem notifications_kept (cmds : list Command) (w : State * Clock) :
  (∃ added kept,
     mockNotifications (foldl exec w cmds).1 = added ++ kept
     ∧ Forall2 sameOrReadSystem (mockNotifications w.1) kept)
  ∧ (∃ added kept,
       mockAdminNotifications (foldl exec w cmds).1 = added ++ kept
       ∧ Forall2 sameOrReadAdmin (mockAdminNotifications w.1) kept).
Proof.
  induction cmds as [|cmd cmds IH] using rev_ind.
  - split; (eexists [], _; split; [reflexivity|]).
    + apply (sameOrMarked_refl readSystem).
    + apply (sameOrMarked_refl readAdmin).
  - rewrite foldl_snoc.
    destruct IH as [(a1 & k1 & H1 & Hk1) (a2 & k2 & H2 & Hk2)].
    destruct (exec_notifications (foldl exec w cmds) cmd) as [Hs Ha].
    split.
    + by eapply (kept_step readSystem readSystem_idem _ _ _ a1 k1).
    + by eapply (kept_step readAdmin readAdmin_idem _ _ _ a2 k2).
Qed.

(** ** Updates without effect on the arrays *)

Lemma updateTicket_unresolved_user_aux ticketData s c :
  sessionUser s = None
  ∨ (∃ user, sessionUser s = Some user ∧ User.id user = EmptyString) →
  updateTicket ticketData s c = (s, c).
Proof.
  unfold updateTicket. intros [->|(user & -> & Hid)]; [done|].
  simpl. by rewrite Hid.
Qed.

Lemma updateTicket_missing_aux ticketData s c adminUser :
  sessionUser s = Some adminUser →
  User.id adminUser ≠ EmptyString →
  list_find (λ t, Ticket.id t = TicketPatch.id ticketData) (mockTickets s) = None →
  mockTickets (updateTicket ticketData s c).1 = mockTickets s
  ∧ mockNotifications (updateTicket ticketData s c).1 = mockNotifications s
  ∧ mockAdminNotifications (updateTicket ticketData s c).1 = mockAdminNotifications s.
Proof.
  intros Hu Hid%truthy_true Hfind.
  unfold updateTicket. rewrite Hu. simpl. rewrite Hid. simpl. by rewrite Hfind.
Qed.

(** ** An update reaches one ticket *)

(** [updateTicket] changes at most the first ticket that has the id of the
    patch: the array keeps its length and its ids, and every ticket at
    another index than the first match stays as it was. *)
Theorem updateTicket_frame (ticketData : TicketPatch.t) (s : State) (c : Clock) :
  let w := updateTicket ticketData s c in
  length (mockTickets w.1) = length (mockTickets s)
  ∧ Ticket.id <$> mockTickets w.1 = Ticket.id <$> mockTickets s
  ∧ (∀ j t, mockTickets s !! j = Some t →
       findIndex (λ t, Ticket.id t = TicketPatch.id ticketData) (mockTickets s) ≠ Some j →
       mockTickets w.1 !! j = Some t).
Proof.
  simpl.
  destruct (updateTicket_arrays ticketData s c)
    as [->|([->|(i & t & Hfind & ->)] & _)]; [done..|].
  pose proof Hfind as (Hi & Hid & _)%list_find_Some.
  split_and!.
  - apply length_insert.
  - rewrite list_fmap_insert. simpl. apply list_insert_id.
    by rewrite list_lookup_fmap, Hi, <- Hid.
  - intros j t' Hj Hne. unfold findIndex in Hne. rewrite Hfind in Hne. simpl in Hne.
    rewrite list_lookup_insert_ne by congruence. done.
Qed.

(** ** Repeating an update *)

Lemma applyPatch_twice t ticketData now1 now2 :
  applyPatch (applyPatch t ticketData now1) ticketData now2
  = touched now2 (applyPatch t ticketData now1).
Proof.
  unfold applyPatch, touched, default. simpl. f_equal; by repeat case_match.
Qed.

Lemma applyPatch_settles ticketData t now1 now2 :
  let t1 := applyPatch t ticketData now1 in
  manualEscalation ticketData (Ticket.status t1) = false
  ∧ resolution (applyPatch t1 ticketData now2) (Ticket.status t1) = false.
Proof.
  simpl. split; apply not_true_iff_false.
  - rewrite manualEscalation_spec. simpl. intros [Hp Hne]. by rewrite Hp in Hne.
  - rewrite resolution_spec. simpl. intros [_ Hne].
    by destruct (TicketPatch.status ticketData).
Qed.

Lemma list_find_insert_same {A} (P : A → Prop) `{!∀ x, Decision (P x)}
    (l : list A) i x y :
  list_find P l = Some (i, x) → P y → list_find P (<[i:=y]> l) = Some (i, y).
Proof.
  intros (Hi & Hx & Hbefore)%list_find_Some Hy.
  apply list_find_Some. split_and!; [|done|].
  - apply list_lookup_insert_eq. by eapply lookup_lt_Some.
  - intros j z Hj Hlt. rewrite list_lookup_insert_ne in Hj by lia. by eapply Hbefore.
Qed.

(** The same update a second time emits no notification, whatever the first
    one did: both notification arrays are as the first call left them, and
    the tickets are too, but for the [updatedAt] of the updated ticket. *)
Theorem updateTicket_repeated (ticketData : TicketPatch.t) (s : State) (c : Clock) :
  let w1 := updateTicket ticketData s c in
  let w2 := updateTicket ticketData w1.1 w1.2 in
  mockNotifications w2.1 = mockNotifications w1.1
  ∧ mockAdminNotifications w2.1 = mockAdminNotifications w1.1
  ∧ (mockTickets w2.1 = mockTickets w1.1
     ∨ ∃ i t, mockTickets w1.1 !! i = Some t
         ∧ mockTickets w2.1 = <[i := touched (readings w1.2 (reads w1.2)) t]> (mockTickets w1.1)).
Proof.
  cbv zeta.
  destruct (sessionUser s) as [user|] eqn:Hu.
  2:{ rewrite (updateTicket_unresolved_user_aux ticketData s c) by (by left).
      cbn [fst snd].
      rewrite (updateTicket_unresolved_user_aux ticketData s c) by (by left).
      split_and!; [done..|by left]. }
  destruct (decide (User.id user = EmptyString)) as [Hid|Hid].
  { rewrite (updateTicket_unresolved_user_aux ticketData s c) by (right; eauto).
    cbn [fst snd].
    rewrite (updateTicket_unresolved_user_aux ticketData s c) by (right; eauto).
    split_and!; [done..|by left]. }
  assert (sessionUser (updateTicket ticketData s c).1 = Some user) as Hu1.
  { unfold updateTicket. rewrite Hu. simpl.
    apply truthy_true in Hid. rewrite Hid. simpl.
    by repeat (case_match; simpl). }
  destruct (list_find (λ t, Ticket.id t = TicketPatch.id ticketData) (mockTickets s))
    as [[i t]|] eqn:Hfind.
  - destruct (updateTicket_found ticketData s c user i t Hu Hid Hfind) as (Ht1 & _).
    set (w1 := updateTicket ticketData s c) in *.
    set (t1 := applyPatch t ticketData (readings c (reads c))) in *.
    assert (list_find (λ t, Ticket.id t = TicketPatch.id ticketData) (mockTickets w1.1)
            = Some (i, t1)) as Hfind1.
    { rewrite Ht1. by eapply list_find_insert_same. }
    destruct (updateTicket_found ticketData w1.1 w1.2 user i t1 Hu1 Hid Hfind1)
      as (Ht2 & _ & _ & _ & Ha2 & Hn2).
    destruct (applyPatch_settles ticketData t (readings c (reads c))
                (readings w1.2 (reads w1.2))) as [Hesc Hres].
    fold t1 in Hesc, Hres. rewrite Hesc in Ha2, Hn2. rewrite Hres in Hn2.
    split_and!; [done|done|]. right. exists i, t1. split.
    + apply list_find_Some in Hfind1. tauto.
    + rewrite Ht2. unfold t1. by rewrite applyPatch_twice.
  - destruct (updateTicket_missing_aux ticketData s c user Hu Hid Hfind)
      as (Ht1 & Hn1 & Ha1).
    set (w1 := updateTicket ticketData s c) in *.
    assert (list_find (λ t, Ticket.id t = TicketPatch.id ticketData) (mockTickets w1.1)
            = None) as Hfind1 by (by rewrite Ht1).
    destruct (updateTicket_missing_aux ticketData w1.1 w1.2 user Hu1 Hid Hfind1)
      as (Ht2 & Hn2 & Ha2).
    split_and!; [done|done|by left].
Qed.

(** ** Ticket ids *)

Lemma later_strictlyIncreasing c c' : later c c' → strictlyIncreasing c → strictlyIncreasing c'.
Proof. intros [Hr _] Hm i j Hij. rewrite Hr. by apply Hm. Qed.

Lemma idsFresh_later c c' l : later c c' → idsFresh c l → idsFresh c' l.
Proof.
  intros [Hr Hk] Hf t k Ht Hle. rewrite Hr. apply Hf; [done|lia].
Qed.

Lemma idsFresh_same_ids c l l' :
  Ticket.id <$> l' = Ticket.id <$> l → idsFresh c l → idsFresh c l'.
Proof.
  intros Hids Hf t' k Ht' Hk.
  assert (Ticket.id t' ∈ Ticket.id <$> l) as (t & Hid & Ht)%list_elem_of_fmap.
  { rewrite <- Hids. by apply list_elem_of_fmap_2. }
  rewrite Hid. by apply Hf.
Qed.

Lemma generated_id_inj (x y : Z) :
  ("ticket-" +:+ string_of_Z x)%string = ("ticket-" +:+ string_of_Z y)%string → x = y.
Proof. unfold string_of_Z. simpl. intros [= H]. by apply pretty_Z_inj in H. Qed.

Lemma updateTicket_ids_aux ticketData s c :
  Ticket.id <$> mockTickets (updateTicket ticketData s c).1 = Ticket.id <$> mockTickets s.
Proof.
  destruct (updateTicket_arrays ticketData s c)
    as [->|([->|(i & t & Hfind & ->)] & _)]; [done..|].
  apply list_find_Some in Hfind as (Hi & Hid & _).
  rewrite list_fmap_insert. simpl. apply list_insert_id.
  by rewrite list_lookup_fmap, Hi, <- Hid.
Qed.

Lemma exec_uniqueIds w cmd :
  strictlyIncreasing w.2 → uniqueIds w → uniqueIds (exec w cmd).
Proof.
  intros Hinc [Hnd Hfresh].
  pose proof (exec_later w cmd) as Hlater.
  destruct cmd as [ticketData|ticketData|nid|nid|fts|]; simpl in *; try by split.
  - destruct (addTicket ticketData w.1 w.2) as [e|w'] eqn:Hadd; [by split|].
    apply addTicket_inr in Hadd as (user & team & _ & _ & _ & _ & Hw).
    destruct (addTicket_body_arrays ticketData (User.id user) team w.1 w.2)
      as ((t & Ht & Hid) & _).
    destruct (addTicket_body_clock ticketData (User.id user) team w.1 w.2) as [_ Hreads].
    rewrite <- Hw in Ht, Hreads. split.
    + rewrite Ht, fmap_cons. apply NoDup_cons. split; [|done].
      intros (t0 & Hid0 & Ht0)%list_elem_of_fmap.
      apply (Hfresh t0 (reads w.2)); [done..|]. by rewrite <- Hid0.
    + rewrite Ht. intros t0 k [->|Ht0]%elem_of_cons Hk.
      * rewrite Hid. destruct Hlater as [-> _].
        intros Heq%generated_id_inj.
        assert (readings w.2 (reads w.2) < readings w.2 k)%Z by (apply Hinc; lia).
        lia.
      * by apply (idsFresh_later w.2 w'.2 (mockTickets w.1)).
  - pose proof (updateTicket_ids_aux ticketData w.1 w.2) as Hids. split.
    + by rewrite Hids.
    + eapply idsFresh_same_ids; [exact Hids|]. by eapply idsFresh_later.
Qed.

(** Under a clock that advances with every reading, ticket ids stay
    pairwise different along every sequence of operations, when they are so
    at the start and no ticket has an id that is still to be generated. *)
Theorem ticket_ids_unique (cmds : list Command) (w : State * Clock) :
  strictlyIncreasing w.2 → uniqueIds w →
  NoDup (Ticket.id <$> mockTickets (foldl exec w cmds).1).
Proof.
  intros Hinc Hu. enough (uniqueIds (foldl exec w cmds)) as [? _] by done.
  revert w Hinc Hu. induction cmds as [|cmd cmds IH]; intros w Hinc Hu; [done|].
  simpl. apply IH; [|by apply exec_uniqueIds].
  eapply later_strictlyIncreasing; [apply exec_later|done].
Qed.

Lemma sampleClock_strictlyIncreasing : strictlyIncreasing sampleClock.
Proof. intros i j Hij. simpl. lia. Qed.

(** The open ticket has a hand-written id: the witness of
    [ticket_ids_unique]. *)
Lemma ticket_ids_unique_witness :
  strictlyIncreasing sampleClock
  ∧ uniqueIds (bobSession, sampleClock)
  ∧ NoDup (Ticket.id <$>
             mockTickets
               (foldl exec (bobSession, sampleClock)
                  [ AddTicket (sampleDraft "UID500" "et-4" None);
                    AddTicket (sampleDraft "UID500" "et-4" None) ]).1).
Proof.
  assert (uniqueIds (bobSession, sampleClock)) as Hu.
  { split; simpl.
    - apply NoDup_singleton.
    - intros t k ->%list_elem_of_singleton _. simpl.
      unfold string_of_Z. intros [= H].
      assert (pretty 1%Z = pretty (1730000000000 + Z.of_nat k)%Z) as Hp by exact H.
      apply pretty_Z_inj in Hp. lia. }
  split_and!; [exact sampleClock_strictlyIncreasing|exact Hu|].
  by apply ticket_ids_unique; [exact sampleClock_strictlyIncreasing|].
Defined.

(** When the clock stands still between two creations the two tickets share
    an id, and an update by that id reaches only the newer one. *)
Example addTicket_same_millisecond :
  let draft := sampleDraft "UID500" "et-3" None in
  let w1 := created draft (aliceSession, frozenClock) in
  let w2 := created draft w1 in
  let w3 := updateTicket (statusPatch "ticket-1730000000000" (Some COMPLETED) None)
              w2.1 w2.2 in
  Ticket.id <$> mockTickets w2.1 = ["ticket-1730000000000"; "ticket-1730000000000"]%string
  ∧ Ticket.status <$> mockTickets w3.1 = [COMPLETED; IN_PROGRESS].
Proof. split; reflexivity. Qed.

(** ** KPIs: the two counts *)

(** Every ticket counts as active or as closed, never as both: the two
    counts add up to the number of tickets, and they do not depend on the
    order of the tickets. *)
Theorem computeKPIs_partition (filteredTickets : list Ticket.t) :
  activeTickets (computeKPIs filteredTickets) + closedTickets (computeKPIs filteredTickets)
    = length filteredTickets
  ∧ (∀ reordered, filteredTickets ≡ₚ reordered →
       activeTickets (computeKPIs reordered) = activeTickets (computeKPIs filteredTickets)
       ∧ closedTickets (computeKPIs reordered) = closedTickets (computeKPIs filteredTickets)).
Proof.
  simpl. split.
  - induction filteredTickets as [|t l IH]; [done|].
    unfold isActive, isClosedOrCompleted in *.
    destruct (Ticket.status t) eqn:Hst.
    + rewrite filter_cons_True by (by left).
      rewrite (filter_cons_False (λ t, _ = COMPLETED ∨ _)) by (rewrite Hst; by intros [|]).
      simpl. lia.
    + rewrite filter_cons_False by (rewrite Hst; by intros [|]).
      rewrite (filter_cons_True (λ t, _ = COMPLETED ∨ _)) by (by left).
      simpl. lia.
    + rewrite filter_cons_True by (by right).
      rewrite (filter_cons_False (λ t, _ = COMPLETED ∨ _)) by (rewrite Hst; by intros [|]).
      simpl. lia.
    + rewrite filter_cons_False by (rewrite Hst; by intros [|]).
      rewrite (filter_cons_True (λ t, _ = COMPLETED ∨ _)) by (by right).
      simpl. lia.
  - intros reordered Hp. by rewrite Hp.
Qed.

(** * CSV export *)

Lemma append_cons a (s1 s2 : string) : String a s1 +:+ s2 = String a (s1 +:+ s2).
Proof. reflexivity. Qed.

















(** A label is written as it is: one that holds a double quote makes a text
    that does not read back. *)
Example convertToCSV_label_quote :
  readCSV (convertToCSV [] [ Header.mk "size" ("Size (" +:+ dquote +:+ ")") ]) = None.
Proof. reflexivity. Qed.

(** * Team view *)

Lemma insertBy_Permutation {A} (compareFn : A → A → Z) x l :
  insertBy compareFn x l ≡ₚ x :: l.
Proof.
  induction l as [|y l IH]; simpl; [done|].
  case_decide; [done|]. rewrite IH. apply Permutation_swap.
Qed.

Lemma sortBy_Permutation {A} (compareFn : A → A → Z) l : sortBy compareFn l ≡ₚ l.
Proof.
  induction l as [|x l IH]; simpl; [done|].
  by rewrite insertBy_Permutation, IH.
Qed.

Lemma insertBy_newestFirst_sorted x l :
  StronglySorted notOlder l → StronglySorted notOlder (insertBy newestFirst x l).
Proof.
  induction 1 as [|y l Hl IH Hy]; simpl; [by repeat constructor|].
  unfold newestFirst at 1. case_decide as Hxy.
  - constructor; [by constructor|].
    constructor; [unfold notOlder; lia|].
    eapply Forall_impl; [exact Hy|]. unfold notOlder. intros z Hz. lia.
  - constructor; [done|].
    rewrite insertBy_Permutation. constructor; [unfold notOlder; lia|done].
Qed.

Lemma sortBy_newestFirst_sorted l : StronglySorted notOlder (sortBy newestFirst l).
Proof.
  induction l as [|x l IH]; simpl; [constructor|].
  by apply insertBy_newestFirst_sorted.
Qed.

(** Membership in the result of [getSubordinateIds]. *)
Lemma getSubordinateIds_elem managerId allUsers x :
  x ∈ getSubordinateIds managerId allUsers ↔
  reports allUsers managerId x ∧ x ≠ managerId.
Proof.
  unfold getSubordinateIds.
  destruct (getSubordinateIds_run allUsers managerId 0) as (tr & Hrun & Hinv & Hexit).
  rewrite Nat.add_0_r in Hrun. rewrite Hrun.
  pose proof (inv_wf _ _ _ Hinv) as Hwf.
  pose proof (wf_nodup _ _ _ Hwf) as Hnd.
  rewrite (wf_queue _ _ _ Hwf) in Hnd. apply NoDup_cons in Hnd as [Hm Hnd].
  split.
  - intros Hx. split; [by apply (wf_sound _ _ _ Hwf)|]. by intros ->.
  - intros [Hr Hne].
    pose proof (exit_complete allUsers managerId tr x Hinv Hexit Hr) as Hq.
    rewrite (wf_queue _ _ _ Hwf) in Hq.
    by apply elem_of_cons in Hq as [?|?].
Qed.

(** The team view of a logged-in user shows exactly the tickets filed by
    users who report to that user directly or through others, hence never
    the user's own tickets; it shows no ticket more often than the store
    holds it, newest first. Without a user, or with an empty user list, it
    is empty. *)
Theorem teamTickets_spec (user : User.t) (users : list User.t) (tickets : list Ticket.t) :
  (∀ t, t ∈ teamTickets (Some user) users tickets ↔
        t ∈ tickets
        ∧ reports users (User.id user) (Ticket.preId t)
        ∧ Ticket.preId t ≠ User.id user)
  ∧ teamTickets (Some user) users tickets ⊆+ tickets
  ∧ StronglySorted notOlder (teamTickets (Some user) users tickets)
  ∧ teamTickets None users tickets = []
  ∧ teamTickets (Some user) [] tickets = [].
Proof.
  unfold teamTickets. split_and!; [| | |done|done].
  - intros t. case_decide as Hlen.
    + apply length_zero_iff_nil in Hlen as ->. split; [by intros ?%elem_of_nil|].
      intros (_ & Hr & _). destruct Hr as [u Hu _|u y _ Hu _]; by apply elem_of_nil in Hu.
    + rewrite sortBy_Permutation, list_elem_of_filter, getSubordinateIds_elem. tauto.
  - case_decide; [apply submseteq_nil_l|].
    rewrite sortBy_Permutation. apply sublist_submseteq, sublist_filter.
  - case_decide; [constructor|apply sortBy_newestFirst_sorted].
Qed.

(** * Notification badges *)

Lemma find_cons {A} (P : A → Prop) `{!∀ x, Decision (P x)} x (l : list A) :
  find P (x :: l) = if decide (P x) then Some x else find P l.
Proof.
  unfold find. simpl. case_decide; [done|].
  by destruct (list_find P l) as [[i y]|].
Qed.

Lemma preUnreadCount_cons user n l :
  preUnreadCount user (n :: l)
  = (if decide (Some (SystemNotification.preId n) = User.id <$> user
                ∧ SystemNotification.isRead n = false) then 1 else 0)
    + preUnreadCount user l.
Proof.
  unfold preUnreadCount, myNotifications.
  destruct (decide (Some (SystemNotification.preId n) = User.id <$> user)) as [Hmine|Hmine].
  - rewrite (filter_cons_True (λ n, Some (SystemNotification.preId n) = User.id <$> user))
      by done.
    destruct (SystemNotification.isRead n) eqn:Hread.
    + rewrite filter_cons_False by (by rewrite Hread).
      rewrite decide_False by (by intros [_ ?]). done.
    + rewrite filter_cons_True by done. rewrite decide_True by done. done.
  - rewrite (filter_cons_False (λ n, Some (SystemNotification.preId n) = User.id <$> user))
      by done.
    rewrite decide_False by (by intros [? _]). done.
Qed.

Lemma adminUnreadCount_cons n l :
  adminUnreadCount (n :: l)
  = (if decide (AdminNotification.isRead n = false) then 1 else 0) + adminUnreadCount l.
Proof.
  unfold adminUnreadCount. case_decide.
  - by rewrite filter_cons_True.
  - by rewrite filter_cons_False.
Qed.

Lemma markSystemRead_unread user notificationId l :
  preUnreadCount user (markSystemRead notificationId l)
  + match find (λ n, SystemNotification.id n = notificationId) l with
    | Some n =>
        if decide (Some (SystemNotification.preId n) = User.id <$> user
                   ∧ SystemNotification.isRead n = false) then 1 else 0
    | None => 0
    end
  = preUnreadCount user l.
Proof.
  rewrite markSystemRead_is_markRead.
  induction l as [|n l IH]; [done|].
  rewrite markRead_cons, find_cons by done. case_decide as Hid.
  - rewrite !preUnreadCount_cons. simpl.
    rewrite (decide_False (P := _ ∧ true = false)) by (by intros [_ ?]). lia.
  - rewrite !preUnreadCount_cons. lia.
Qed.

Lemma markAdminRead_unread notificationId l :
  adminUnreadCount (markAdminRead notificationId l)
  + match find (λ n, AdminNotification.id n = notificationId) l with
    | Some n => if decide (AdminNotification.isRead n = false) then 1 else 0
    | None => 0
    end
  = adminUnreadCount l.
Proof.
  rewrite markAdminRead_is_markRead.
  induction l as [|n l IH]; [done|].
  rewrite markRead_cons, find_cons by done. case_decide as Hid.
  - rewrite !adminUnreadCount_cons. simpl. lia.
  - rewrite !adminUnreadCount_cons. lia.
Qed.

(** Clicking a notification lowers an unread badge by exactly one when the
    first notification with that id is unread (and, for the badge of a
    representative, addressed to that user), and leaves it as it is in every
    other case: already read, addressed to someone else, or unknown id. *)
Theorem unread_badges (notificationId : string) (user : option User.t) (s : State) :
  notifications s = mockNotifications s →
  adminNotifications s = mockAdminNotifications s →
  preUnreadCount user (notifications (markSystemNotificationAsRead notificationId s))
  + match find (λ n, SystemNotification.id n = notificationId) (notifications s) with
    | Some n =>
        if decide (Some (SystemNotification.preId n) = User.id <$> user
                   ∧ SystemNotification.isRead n = false) then 1 else 0
    | None => 0
    end
  = preUnreadCount user (notifications s)
  ∧ adminUnreadCount (adminNotifications (markAdminNotificationAsRead notificationId s))
    + match find (λ n, AdminNotification.id n = notificationId) (adminNotifications s) with
      | Some n => if decide (AdminNotification.isRead n = false) then 1 else 0
      | None => 0
      end
    = adminUnreadCount (adminNotifications s).
Proof.
  intros Hs Ha. simpl. rewrite Hs, Ha. split.
  - apply markSystemRead_unread.
  - apply markAdminRead_unread.
Qed.

Lemma unread_badges_witness :
  notifications notifiedSession = mockNotifications notifiedSession
  ∧ adminNotifications notifiedSession = mockAdminNotifications notifiedSession
  ∧ preUnreadCount (Some alice) (notifications notifiedSession) = 2
  ∧ preUnreadCount (Some alice)
      (notifications (markSystemNotificationAsRead "notif-2" notifiedSession)) = 1.
Proof.
  split_and!; [done..|].
  destruct (unread_badges "notif-2" (Some alice) notifiedSession eq_refl eq_refl)
    as [Hpre _].
  assert (preUnreadCount (Some alice) (notifications notifiedSession) = 2) as Hbefore
    by reflexivity.
  rewrite Hbefore in Hpre.
  assert (find (λ n, SystemNotification.id n = "notif-2"%string)
            (notifications notifiedSession) = Some noticeTwo) as Hfind by reflexivity.
  rewrite Hfind in Hpre. rewrite decide_True in Hpre by done. lia.
Defined.

(** * Session *)

Lemma find_Some_elem {A} (P : A → Prop) `{!∀ x, Decision (P x)} (l : list A) x :
  find P l = Some x → x ∈ l ∧ P x.
Proof.
  unfold find. destruct (list_find P l) as [[i y]|] eqn:Hf; [|done].
  intros [= <-]. apply list_find_Some in Hf as (Hi & HP & _).
  split; [by eapply list_elem_of_lookup_2|done].
Qed.

Lemma sessionStep_inv mockUsers ss action :
  (Session.isAuthenticated ss = true ↔ is_Some (Session.user ss)) →
  (∀ u, Session.user ss = Some u → u ∈ mockUsers) →
  (Session.isAuthenticated (sessionStep mockUsers ss action) = true
   ↔ is_Some (Session.user (sessionStep mockUsers ss action)))
  ∧ (∀ u, Session.user (sessionStep mockUsers ss action) = Some u → u ∈ mockUsers).
Proof.
  intros Hauth Hin. destruct action as [email| |team]; simpl.
  - unfold login.
    destruct (find (λ u, User.email u = email) mockUsers) as [found|] eqn:Hf; simpl.
    + split; [done|]. intros u [= <-]. by apply find_Some_elem in Hf as [? _].
    + done.
  - split; [|done]. split; [done|]. by intros [? ?].
  - done.
Qed.

(** Whatever is done to the session (logging in with any email, logging
    out, selecting a team), [isAuthenticated] holds exactly when the session
    has a user, and that user is a user of the user array. *)
Theorem session_authenticated (mockUsers : list User.t) (actions : list SessionAction) :
  let ss := foldl (sessionStep mockUsers) initialSession actions in
  (Session.isAuthenticated ss = true ↔ is_Some (Session.user ss))
  ∧ (∀ u, Session.user ss = Some u → u ∈ mockUsers).
Proof.
  simpl. induction actions as [|action actions IH] using rev_ind.
  - simpl. split; [|done]. split; [done|]. by intros [? ?].
  - rewrite foldl_snoc. destruct IH as [Hauth Hin]. by apply sessionStep_inv.
Qed.

(** Logging in and filing a ticket. After a login that finds a user with a
    non-empty id: with a team on the profile, [addTicket] succeeds at once,
    whatever the role; without one it fails with TeamUnresolved, and
    selecting a team in the session cures that for a PRE and for no other
    role. After logging out, [addTicket] fails with SessionInvalid. A login
    that finds no user returns false and leaves the session as it was. *)
Theorem login_then_addTicket (email : string) (mockUsers : list User.t) (ss : Session.t)
    (ticketData : TicketData.t) (s : State) (c : Clock) :
  let ss1 := (login email mockUsers ss).2 in
  match find (λ u, User.email u = email) mockUsers with
  | None => login email mockUsers ss = (false, ss)
  | Some foundUser =>
      (login email mockUsers ss).1 = true
      ∧ Session.user ss1 = Some foundUser
      ∧ addTicket ticketData (inSession (logout ss1) s) c = inl SessionInvalid
      ∧ (User.id foundUser ≠ EmptyString →
         (truthy_opt (User.team foundUser) = true →
          ∃ w, addTicket ticketData (inSession ss1 s) c = inr w)
         ∧ (truthy_opt (User.team foundUser) = false →
            addTicket ticketData (inSession ss1 s) c = inl TeamUnresolved
            ∧ ∀ team, team ≠ EmptyString →
                if decide (User.role foundUser = PRE)
                then ∃ w, addTicket ticketData (inSession (setTeam team ss1) s) c = inr w
                else addTicket ticketData (inSession (setTeam team ss1) s) c
                     = inl TeamUnresolved))
  end.
Proof.
  simpl. unfold login.
  destruct (find (λ u, User.email u = email) mockUsers) as [found|]; [|done].
  simpl. split_and!; [done..|].
  intros Hid%truthy_true. unfold addTicket, resolveTeam. simpl. rewrite Hid.
  split.
  - intros Hteam. destruct (User.team found) as [team|]; [|done]. simpl in *.
    case_decide; simpl; rewrite ?Hteam; simpl; rewrite ?Hteam; by eexists.
  - intros Hteam. split.
    + destruct (User.team found) as [team|]; simpl in *; [|by case_decide].
      case_decide; simpl; rewrite ?Hteam; simpl; by rewrite ?Hteam.
    + intros team Hne%truthy_true. case_decide; simpl.
      * rewrite Hne. by eexists.
      * destruct (User.team found) as [team'|]; simpl in *; [|done].
        by rewrite Hteam.
Qed.

(** Bob, an administrator without a team on the profile: the witness of
    [login_then_addTicket]. *)
Lemma login_then_addTicket_witness :
  find (λ u, User.email u = "admin@example.com"%string) mockUsers = Some bob
  ∧ User.id bob ≠ EmptyString
  ∧ truthy_opt (User.team bob) = false
  ∧ addTicket (sampleDraft "UID500" "et-4" None)
      (inSession (setTeam ONBOARDING (login "admin@example.com" mockUsers initialSession).2)
         aliceSession) sampleClock
    = inl TeamUnresolved.
Proof.
  assert (User.id bob ≠ EmptyString) as Hid by done.
  split_and!; [done..|].
  pose proof (login_then_addTicket "admin@example.com" mockUsers initialSession
                (sampleDraft "UID500" "et-4" None) aliceSession sampleClock) as H.
  assert (find (λ u, User.email u = "admin@example.com"%string) mockUsers = Some bob)
    as Hfind by reflexivity.
  rewrite Hfind in H. destruct H as (_ & _ & _ & H).
  destruct (H Hid) as [_ Hno]. destruct (Hno eq_refl) as [_ Hset].
  specialize (Hset ONBOARDING). rewrite decide_False in Hset by done.
  by apply Hset.
Defined.

(** * Admin store: users *)

Lemma findIndex_cons {A} (P : A → Prop) `{!∀ x, Decision (P x)} x (l : list A) :
  findIndex P (x :: l) = if decide (P x) then Some 0 else S <$> findIndex P l.
Proof.
  unfold findIndex. simpl. case_decide; [done|].
  by destruct (list_find P l) as [[i y]|].
Qed.

Section by_key.
Context {A : Type} (key : A → string).

Lemma replace_absent k (y : A) (l : list A) :
  k ∉ key <$> l → (λ u, if decide (key u = k) then y else u) <$> l = l.
Proof.
  induction l as [|x l IH]; [done|]. rewrite fmap_cons, not_elem_of_cons.
  intros [Hx Hl]. rewrite fmap_cons, decide_False by done. by rewrite IH.
Qed.

Lemma filter_absent k (l : list A) :
  k ∉ key <$> l → filter (λ u, key u ≠ k) l = l.
Proof.
  induction l as [|x l IH]; [done|]. rewrite fmap_cons, not_elem_of_cons.
  intros [Hx Hl]. rewrite filter_cons_True by done. by rewrite IH.
Qed.

(** With unique keys, replacing every match is replacing the first one. *)
Lemma replace_unique (y : A) (l : list A) :
  NoDup (key <$> l) →
  (λ u, if decide (key u = key y) then y else u) <$> l
  = match findIndex (λ u, key u = key y) l with
    | Some i => <[i := y]> l
    | None => l
    end.
Proof.
  induction l as [|x l IH]; [done|].
  rewrite fmap_cons, NoDup_cons. intros [Hx Hl].
  rewrite fmap_cons, findIndex_cons. case_decide as Hk.
  - simpl. f_equal. apply replace_absent. by rewrite <- Hk.
  - rewrite IH by done. by destruct (findIndex _ l).
Qed.

(** With unique keys, dropping every match is dropping the first one. *)
Lemma filter_unique k (l : list A) :
  NoDup (key <$> l) →
  filter (λ u, key u ≠ k) l
  = match findIndex (λ u, key u = k) l with
    | Some i => delete i l
    | None => l
    end.
Proof.
  induction l as [|x l IH]; [done|].
  rewrite fmap_cons, NoDup_cons. intros [Hx Hl].
  rewrite findIndex_cons. case_decide as Hk.
  - rewrite filter_cons_False by (by intros ?). simpl.
    apply filter_absent. by rewrite <- Hk.
  - rewrite filter_cons_True by done. rewrite IH by done.
    by destruct (findIndex _ l).
Qed.

End by_key.

Lemma updateUser_ids updatedUser a :
  User.id <$> Admin.mockUsers (updateUser updatedUser a) = User.id <$> Admin.mockUsers a.
Proof.
  simpl. unfold findIndex.
  destruct (list_find _ (Admin.mockUsers a)) as [[i u]|] eqn:Hf; simpl; [|done].
  apply list_find_Some in Hf as (Hi & Hid & _).
  rewrite list_fmap_insert. apply list_insert_id.
  by rewrite list_lookup_fmap, Hi, <- Hid.
Qed.

Lemma deleteUser_sublist userId a :
  sublist (Admin.mockUsers (deleteUser userId a)) (Admin.mockUsers a).
Proof.
  simpl. destruct (findIndex _ (Admin.mockUsers a)); [apply sublist_delete|done].
Qed.

Lemma userIdsFresh_later c c' l : later c c' → userIdsFresh c l → userIdsFresh c' l.
Proof.
  intros [Hr Hk] Hf u k Hu Hle. rewrite Hr. apply Hf; [done|lia].
Qed.

Lemma generated_user_id_inj (x y : Z) :
  ("user-" +:+ string_of_Z x)%string = ("user-" +:+ string_of_Z y)%string → x = y.
Proof. unfold string_of_Z. simpl. intros [= H]. by apply pretty_Z_inj in H. Qed.

Lemma adminStep_later w cmd : later w.2 (adminStep w cmd).2.
Proof. destruct cmd; simpl; split; simpl; (done || lia). Qed.

Lemma adminStep_ok w cmd :
  strictlyIncreasing w.2 → adminOk w → adminOk (adminStep w cmd).
Proof.
  destruct w as [a c]. intros Hinc (Hsync & Hnd & Hfresh). simpl in *.
  destruct cmd as [userData|updatedUser|userId]; simpl.
  - split_and!; simpl.
    + done.
    + rewrite fmap_app. apply NoDup_app. split_and!; [done| |apply NoDup_singleton].
      intros x (u & Hid & Hu)%list_elem_of_fmap ->%list_elem_of_singleton.
      apply (Hfresh u (reads c)); [done..|]. by rewrite <- Hid.
    + intros u k [Hu| ->%list_elem_of_singleton]%elem_of_app Hk; simpl in *.
      * apply Hfresh; [done|lia].
      * intros Heq%generated_user_id_inj.
        assert (readings c (reads c) < readings c k)%Z by (apply Hinc; lia). lia.
  - pose proof (updateUser_ids updatedUser a) as Hids.
    split_and!; simpl.
    + rewrite Hsync. by apply (replace_unique User.id).
    + simpl in Hids. by rewrite Hids.
    + intros u k Hu Hk.
      assert (User.id u ∈ User.id <$> Admin.mockUsers a) as (u' & Hid & Hu')%list_elem_of_fmap.
      { simpl in Hids. rewrite <- Hids. by apply list_elem_of_fmap_2. }
      rewrite Hid. by apply Hfresh.
  - pose proof (deleteUser_sublist userId a) as Hsub.
    split_and!; simpl.
    + rewrite Hsync. by apply (filter_unique User.id).
    + simpl in Hsub.
      apply (sublist_NoDup _ (User.id <$> Admin.mockUsers a)); [exact Hnd|].
      by apply fmap_sublist.
    + intros u k Hu Hk. apply Hfresh; [|done].
      simpl in Hsub. eapply elem_of_submseteq; [exact Hu|].
      by apply sublist_submseteq.
Qed.

(** With user ids that are pairwise different (and a clock that advances
    with every reading, so that generated ids are new), the admin store and
    the user array hold the same users after every sequence of additions,
    updates and deletions, and the ids stay pairwise different, although
    the store maps and filters by id where the array is changed at one
    index. *)
Theorem admin_users_synced (cmds : list AdminCommand) (w : Admin.t * Clock) :
  strictlyIncreasing w.2 → adminOk w →
  Admin.users (foldl adminStep w cmds).1 = Admin.mockUsers (foldl adminStep w cmds).1
  ∧ NoDup (User.id <$> Admin.mockUsers (foldl adminStep w cmds).1).
Proof.
  intros Hinc Hok.
  enough (adminOk (foldl adminStep w cmds)) as (? & ? & _) by done.
  revert w Hinc Hok. induction cmds as [|cmd cmds IH]; intros w Hinc Hok; [done|].
  simpl. apply IH; [|by apply adminStep_ok].
  eapply later_strictlyIncreasing; [apply adminStep_later|done].
Qed.

Lemma admin_users_synced_witness :
  strictlyIncreasing sampleClock
  ∧ adminOk (sampleAdmin, sampleClock)
  ∧ Admin.users
      (foldl adminStep (sampleAdmin, sampleClock)
         [ AddUser newcomer; DeleteUser "user-2"; UpdateUser alice ]).1
    = Admin.mockUsers
        (foldl adminStep (sampleAdmin, sampleClock)
           [ AddUser newcomer; DeleteUser "user-2"; UpdateUser alice ]).1.
Proof.
  assert (adminOk (sampleAdmin, sampleClock)) as Hok.
  { split_and!; simpl.
    - done.
    - apply NoDup_cons. split; [|apply NoDup_singleton].
      intros H%list_elem_of_singleton. discriminate.
    - intros u k Hu _. simpl. unfold string_of_Z.
      apply elem_of_cons in Hu as [Hu|Hu%list_elem_of_singleton]; subst u; simpl;
        intros [= H].
      + assert (pretty 1%Z = pretty (1730000000000 + Z.of_nat k)%Z) as Hp by exact H.
        apply pretty_Z_inj in Hp. lia.
      + assert (pretty 2%Z = pretty (1730000000000 + Z.of_nat k)%Z) as Hp by exact H.
        apply pretty_Z_inj in Hp. lia. }
  split_and!; [exact sampleClock_strictlyIncreasing|exact Hok|].
  by apply admin_users_synced; [exact sampleClock_strictlyIncreasing|].
Defined.

(** With a shared id the two lists part: an update reaches one user of the
    array and every such user of the store. *)
Example updateUser_shared_id :
  let a := updateUser (report "user-9" (Some "user-asm-1")) twins in
  User.managerId <$> Admin.mockUsers a = [Some "user-asm-1"; Some "user-bdm-1"]%string
  ∧ User.managerId <$> Admin.users a = [Some "user-asm-1"; Some "user-asm-1"]%string.
Proof. split; reflexivity. Qed.

(** * Deleting a user and the reporting lines *)

Lemma reports_mono (l l' : list User.t) m x :
  (∀ u, u ∈ l' → u ∈ l) → reports l' m x → reports l m x.
Proof.
  intros Hsub. induction 1 as [u Hu Hm|u y _ IH Hu Hm].
  - apply reports_direct; [by apply Hsub|done].
  - eapply reports_indirect; [exact IH|by apply Hsub|done].
Qed.

Lemma reports_is_id (l : list User.t) m x : reports l m x → ∃ u, u ∈ l ∧ User.id u = x.
Proof. intros [u Hu _|u y _ Hu _]; by exists u. Qed.

Lemma reports_without_manager (l : list User.t) m x :
  reports l m x → x ≠ m → reports (filter (λ u, User.id u ≠ m) l) m x.
Proof.
  induction 1 as [u Hu Hm|u y Hr IH Hu Hm]; intros Hne.
  - apply reports_direct; [by apply list_elem_of_filter|done].
  - destruct (decide (y = m)) as [->|Hy].
    + apply reports_direct; [by apply list_elem_of_filter|done].
    + eapply reports_indirect; [by apply IH|by apply list_elem_of_filter|done].
Qed.

(** Deleting a user from the admin store does not touch the manager
    references of the others. The reports of the deleted user are still
    found under the deleted id, exactly as before; for any manager the
    deletion adds no subordinate, and the deleted user is none of them
    afterwards. *)
Theorem deleteUser_keeps_reports (userId managerId : string) (a : Admin.t) :
  (∀ x, x ∈ getSubordinateIds userId (Admin.users (deleteUser userId a)) ↔
        x ∈ getSubordinateIds userId (Admin.users a))
  ∧ (∀ x, x ∈ getSubordinateIds managerId (Admin.users (deleteUser userId a)) →
          x ∈ getSubordinateIds managerId (Admin.users a) ∧ x ≠ userId).
Proof.
  simpl. split.
  - intros x. rewrite !getSubordinateIds_elem. split.
    + intros [Hr Hne]. split; [|done].
      eapply reports_mono; [|exact Hr]. intros u Hu.
      by apply list_elem_of_filter in Hu as [_ ?].
    + intros [Hr Hne]. split; [|done]. by apply reports_without_manager.
  - intros x. rewrite !getSubordinateIds_elem. intros [Hr Hne]. split_and!; [|done|].
    + eapply reports_mono; [|exact Hr]. intros u Hu.
      by apply list_elem_of_filter in Hu as [_ ?].
    + apply reports_is_id in Hr as (u & Hu & <-).
      by apply list_elem_of_filter in Hu as [? _].
Qed.

(** * Automated messages: the first one counts *)

Lemma find_snoc {A} (P : A → Prop) `{!∀ x, Decision (P x)} (l : list A) x :
  find P (l ++ [x])
  = match find P l with
    | Some y => Some y
    | None => if decide (P x) then Some x else None
    end.
Proof.
  induction l as [|y l IH].
  - unfold find. simpl. by case_decide.
  - rewrite <- app_comm_cons, !find_cons. destruct (decide (P y)); [done|apply IH].
Qed.

(** [addMessage] appends, and [addTicket] takes the first message of the
    error type: a message added for an error type that has one already
    changes nothing for later tickets, and a message added for an error type
    without one becomes the message of that type and of no other. *)
Theorem addMessage_first_counts (errorTypeId message : string) (s : State) (c : Clock)
    (queried : string) :
  automatedMessageFor queried (addMessage errorTypeId message s c).1
  = match automatedMessageFor queried s with
    | Some earlier => Some earlier
    | None =>
        if decide (queried = errorTypeId)
        then Some {| AutomatedMessage.id := "msg-" +:+ string_of_Z (readings c (reads c));
                     AutomatedMessage.errorTypeId := errorTypeId;
                     AutomatedMessage.message := message |}
        else None
    end
  ∧ tickets (addMessage errorTypeId message s c).1 = tickets s
  ∧ (is_Some (automatedMessageFor queried s) →
     ∀ ticketData, TicketData.errorTypeId ticketData = queried →
       initialStatus ticketData (addMessage errorTypeId message s c).1
       = initialStatus ticketData s).
Proof.
  assert (automatedMessageFor queried (addMessage errorTypeId message s c).1
          = match automatedMessageFor queried s with
            | Some earlier => Some earlier
            | None =>
                if decide (queried = errorTypeId)
                then Some {| AutomatedMessage.id :=
                               "msg-" +:+ string_of_Z (readings c (reads c));
                             AutomatedMessage.errorTypeId := errorTypeId;
                             AutomatedMessage.message := message |}
                else None
            end) as Hfor.
  { unfold automatedMessageFor. simpl. rewrite find_snoc. simpl.
    destruct (find _ (mockMessages s)); [done|].
    destruct (decide (errorTypeId = queried)) as [->|Hne].
    - by rewrite decide_True.
    - by rewrite decide_False. }
  split_and!; [exact Hfor|done|].
  intros [earlier Hearlier] ticketData Het.
  unfold initialStatus, existingTicketFor. rewrite Het, Hfor, Hearlier. done.
Qed.

(** * Who is notified *)

Lemma preUnreadCount_app user l1 l2 :
  preUnreadCount user (l1 ++ l2) = preUnreadCount user l1 + preUnreadCount user l2.
Proof.
  induction l1 as [|n l1 IH]; [done|].
  rewrite <- app_comm_cons, !preUnreadCount_cons, IH. lia.
Qed.

(** A created ticket raises the admin badge by one; it raises the badge of
    the representative who filed it by one unless the ticket is In
    Progress, and the badge of nobody else. *)
Theorem addTicket_badges (ticketData : TicketData.t) (s : State) (c : Clock)
    (w : State * Clock) (user : option User.t) :
  addTicket ticketData s c = inr w →
  adminUnreadCount (adminNotifications w.1) = 1 + adminUnreadCount (mockAdminNotifications s)
  ∧ preUnreadCount user (notifications w.1)
    = (if decide (User.id <$> user = User.id <$> sessionUser s
                  ∧ initialStatus ticketData s ≠ IN_PROGRESS) then 1 else 0)
      + preUnreadCount user (mockNotifications s).
Proof.
  intros (filer & team & Hu & _ & _ & _ & ->)%addTicket_inr.
  rewrite Hu. unfold addTicket_body, initialStatus.
  destruct (automatedMessageFor (TicketData.errorTypeId ticketData) s) as [msg|];
    [destruct (existingTicketFor _ _ s)|]; simpl.
  - split; [by rewrite adminUnreadCount_cons|].
    rewrite preUnreadCount_cons. simpl. f_equal.
    destruct (decide (Some (User.id filer) = User.id <$> user)) as [He|He].
    + rewrite !decide_True; [done|by split|by split].
    + rewrite !decide_False; [done|by intros [? _]|by intros [? _]].
  - split; [by rewrite adminUnreadCount_cons|].
    rewrite preUnreadCount_cons. simpl. f_equal.
    destruct (decide (Some (User.id filer) = User.id <$> user)) as [He|He].
    + rewrite !decide_True; [done|by split|by split].
    + rewrite !decide_False; [done|by intros [? _]|by intros [? _]].
  - split; [by rewrite adminUnreadCount_cons|].
    by rewrite decide_False by (by intros [_ ?]).
Qed.

Lemma addTicket_badges_witness :
  addTicket (sampleDraft "UID500" "et-4" None) aliceSession sampleClock
    = inr (created (sampleDraft "UID500" "et-4" None) (aliceSession, sampleClock))
  ∧ preUnreadCount (Some alice)
      (notifications (created (sampleDraft "UID500" "et-4" None)
                        (aliceSession, sampleClock)).1) = 1
  ∧ preUnreadCount (Some bob)
      (notifications (created (sampleDraft "UID500" "et-4" None)
                        (aliceSession, sampleClock)).1) = 0.
Proof.
  split; [reflexivity|]. split.
  - destruct (addTicket_badges (sampleDraft "UID500" "et-4" None) aliceSession sampleClock
                (created (sampleDraft "UID500" "et-4" None) (aliceSession, sampleClock))
                (Some alice) eq_refl) as [_ H].
    rewrite H. reflexivity.
  - destruct (addTicket_badges (sampleDraft "UID500" "et-4" None) aliceSession sampleClock
                (created (sampleDraft "UID500" "et-4" None) (aliceSession, sampleClock))
                (Some bob) eq_refl) as [_ H].
    rewrite H. reflexivity.
Defined.

(** An update notifies the owner of the ticket (as the patch leaves it) and
    nobody else: the owner's badge rises by one when the update is a manual
    escalation or a resolution, every other badge stays. *)
Theorem updateTicket_badges (ticketData : TicketPatch.t) (s : State) (c : Clock)
    (adminUser : User.t) (ticketIndex : nat) (originalTicket : Ticket.t)
    (user : option User.t) :
  sessionUser s = Some adminUser →
  User.id adminUser ≠ EmptyString →
  list_find (λ t, Ticket.id t = TicketPatch.id ticketData) (mockTickets s)
    = Some (ticketIndex, originalTicket) →
  let w := updateTicket ticketData s c in
  let updatedTicket := applyPatch originalTicket ticketData (readings c (reads c)) in
  preUnreadCount user (notifications w.1)
  = (if decide (Some (Ticket.preId updatedTicket) = User.id <$> user
                ∧ ((TicketPatch.status ticketData = Some ESCALATED
                    ∧ Ticket.status originalTicket ≠ ESCALATED)
                   ∨ ((Ticket.status updatedTicket = COMPLETED
                       ∨ Ticket.status updatedTicket = CLOSED)
                      ∧ Ticket.status updatedTicket ≠ Ticket.status originalTicket)))
     then 1 else 0)
    + preUnreadCount user (mockNotifications s).
Proof.
  intros Hu Hid Hfind w updatedTicket.
  destruct (updateTicket_found ticketData s c adminUser ticketIndex originalTicket
              Hu Hid Hfind) as (_ & _ & Hn & _ & _ & Hmn).
  fold w updatedTicket in Hn, Hmn. rewrite Hn, Hmn, preUnreadCount_app. f_equal.
  pose proof (manualEscalation_spec ticketData (Ticket.status originalTicket)) as Hesc.
  pose proof (resolution_spec updatedTicket (Ticket.status originalTicket)) as Hres.
  destruct (manualEscalation ticketData (Ticket.status originalTicket)).
  - rewrite preUnreadCount_cons. simpl.
    destruct (decide (Some (Ticket.preId updatedTicket) = User.id <$> user)) as [He|He].
    + rewrite decide_True by done. rewrite decide_True; [done|].
      split; [done|]. left. by apply Hesc.
    + rewrite decide_False by (by intros [? _]).
      by rewrite decide_False by (by intros [? _]).
  - destruct (resolution updatedTicket (Ticket.status originalTicket)).
    + rewrite preUnreadCount_cons. simpl.
      destruct (decide (Some (Ticket.preId updatedTicket) = User.id <$> user)) as [He|He].
      * rewrite decide_True by done. rewrite decide_True; [done|].
        split; [done|]. right. by apply Hres.
      * rewrite decide_False by (by intros [? _]).
        by rewrite decide_False by (by intros [? _]).
    + rewrite decide_False; [done|].
      intros [_ [H%Hesc|H%Hres]]; discriminate.
Qed.

Lemma updateTicket_badges_witness :
  sessionUser bobSession = Some bob
  ∧ User.id bob ≠ EmptyString
  ∧ list_find (λ t, Ticket.id t = "ticket-1"%string) (mockTickets bobSession)
    = Some (0, openTicket)
  ∧ preUnreadCount (Some alice)
      (notifications (updateTicket (statusPatch "ticket-1" (Some ESCALATED) None)
                        bobSession sampleClock).1) = 1.
Proof.
  assert (User.id bob ≠ EmptyString) as Hid by done.
  split_and!; [done..|].
  rewrite (updateTicket_badges (statusPatch "ticket-1" (Some ESCALATED) None)
             bobSession sampleClock bob 0 openTicket (Some alice) eq_refl Hid eq_refl).
  reflexivity.
Defined.

(** * KPIs: the sentinel *)

Lemma length_append (s1 s2 : string) :
  String.length (s1 +:+ s2) = String.length s1 + String.length s2.
Proof.
  induction s1 as [|a s1 IH]; [done|]. rewrite append_cons. simpl. by rewrite IH.
Qed.

(** The average reads N/A exactly when no ticket of the list is closed or
    completed: a computed average never looks like the sentinel. *)
Theorem computeKPIs_sentinel (filteredTickets : list Ticket.t) :
  avgTimeToSolve (computeKPIs filteredTickets) = "N/A"%string
  ↔ closedTickets (computeKPIs filteredTickets) = 0.
Proof.
  unfold computeKPIs. simpl.
  destruct (filter isClosedOrCompleted filteredTickets) as [|t l]; [done|].
  rewrite decide_True by (simpl; lia). split; [|done].
  intros H%(f_equal String.length). rewrite length_append in H. simpl in H. lia.
Qed.

(** * Ticket numbers in messages *)

Lemma split_nonempty sep s : split sep s ≠ [].
Proof.
  destruct s as [|a s]; simpl; [done|]. case_decide; [done|].
  by destruct (split sep s).
Qed.

Lemma split_dashFree s : dashFree s → split "-" s = [s].
Proof.
  induction s as [|a s IH]; [done|]. intros [Ha Hs]. simpl.
  rewrite decide_False by done. by rewrite IH.
Qed.

Lemma split_prefix prefix s :
  dashFree prefix → split "-" (prefix +:+ "-" +:+ s) = prefix :: split "-" s.
Proof.
  induction prefix as [|a prefix IH]; intros Hp.
  - done.
  - destruct Hp as [Ha Hp]. rewrite append_cons. simpl.
    rewrite decide_False by done. by rewrite IH.
Qed.

Lemma pretty_N_go_dashFree x : ∀ s, dashFree s → dashFree (pretty_N_go x s).
Proof.
  induction (N.lt_wf_0 x) as [x _ IH]; intros s Hs.
  assert (x = 0 ∨ 0 < x)%N as [->|Hx] by lia.
  - by rewrite pretty_N_go_0.
  - rewrite pretty_N_go_step by done. apply IH.
    { by apply N.div_lt. }
    split; [|done]. unfold pretty_N_char. by repeat case_match.
Qed.

Lemma pretty_N_dashFree (x : N) : dashFree (pretty x).
Proof.
  unfold pretty, pretty_N. case_decide; [by split|].
  by apply pretty_N_go_dashFree.
Qed.

(** The ticket number that the notification messages print for a generated
    ticket id is the decimal time of creation; for a time before 1970 (a
    negative reading) it is empty, because the sign is taken for the
    separator. *)
Theorem ticket_number_generated (now : Z) :
  ticket_number ("ticket-" +:+ string_of_Z now)
  = if decide (0 ≤ now)%Z then string_of_Z now else EmptyString.
Proof.
  unfold ticket_number, string_of_Z.
  change ("ticket-" +:+ pretty now) with ("ticket" +:+ "-" +:+ pretty now).
  rewrite (split_prefix "ticket" (pretty now)) by (by repeat split).
  cbn [lookup list_lookup]. destruct now as [|p|p].
  - done.
  - rewrite decide_True by lia.
    change (pretty (Z.pos p)) with (pretty (N.pos p)).
    by rewrite split_dashFree by apply pretty_N_dashFree.
  - rewrite decide_False by lia.
    change (pretty (Z.neg p)) with ("" +:+ "-" +:+ pretty (N.pos p)).
    by rewrite (split_prefix "" (pretty (N.pos p))) by done.
Qed.
